(** * script.js: interaction script of the Aurora marketing page

    A shallow embedding of [src/script.js] and the properties its
    specification states about it.  The script is one immediately invoked
    function: it wires event handlers onto a fixed document and mutates
    DOM properties, [localStorage], timers and [window.location].

    - JavaScript strings are sequences of UTF-16 code units ([list N]).
    - Numbers are IEEE-754 binary64 values ([spec_float], precision 53).
    - The DOM is a store of properties indexed by node and property name;
      the listener table, the timer table, the intersection observer and
      [localStorage] are further components of the [world].
    - Handlers are programs of a state-and-exception monad over [world]. *)

From Stdlib Require Import ZArith NArith Lia String Ascii.
From Stdlib Require Import Floats.SpecFloat.
From Stdlib Require QArith Qround.
From stdpp Require Import base decidable option list countable gmap.

Local Open Scope N_scope.

(** ** JavaScript strings *)

Module JSString.

(** A string value is a finite sequence of 16-bit code units. *)
Definition code_unit := N.
Abbreviation jsstring := (list N).

(** A source literal made of ASCII characters only. *)
Definition lit (s : string) : jsstring :=
  map N_of_ascii (list_ascii_of_string s).

(** [WhiteSpace] and [LineTerminator] of ECMAScript: the code units
    removed by [String.prototype.trim] and matched by the class [\s]. *)
Definition is_white_space (c : N) : bool :=
  (c =? 0x9) || (c =? 0xA) || (c =? 0xB) || (c =? 0xC) || (c =? 0xD)
  || (c =? 0x20) || (c =? 0xA0) || (c =? 0x1680)
  || ((0x2000 <=? c) && (c <=? 0x200A))
  || (c =? 0x2028) || (c =? 0x2029) || (c =? 0x202F) || (c =? 0x205F)
  || (c =? 0x3000) || (c =? 0xFEFF).

Fixpoint trimStart (s : jsstring) : jsstring :=
  match s with
  | c :: s' => if is_white_space c then trimStart s' else s
  | [] => []
  end.

Definition trimEnd (s : jsstring) : jsstring := rev (trimStart (rev s)).

(** [String.prototype.trim] *)
Definition trim (s : jsstring) : jsstring := trimEnd (trimStart s).

(** [s.length], in code units *)
Definition str_length (s : jsstring) : N := N.of_nat (length s).

End JSString.

Import JSString.

Example trim_example :
  trim (lit "  Jane Doe " ++ [0xA0]) = lit "Jane Doe".
Proof. reflexivity. Qed.

(** ** Regular expressions

    The pattern language needed for the literal used by the form
    validator: character sets, sequencing, alternation and the greedy
    quantifiers [*] and [+].  No capture groups, back-references or
    look-around occur, so whether [RegExp.prototype.test] succeeds on a
    pattern anchored by [^] and [$] only depends on whether the whole
    input belongs to the pattern's language; the matcher below decides it
    by taking derivatives code unit by code unit. *)

Module Regex.

Inductive pattern : Type :=
| Fail                          (* matches nothing *)
| Empty                         (* matches the empty string *)
| CharSet (p : N -> bool)       (* one code unit satisfying [p] *)
| Seq (r1 r2 : pattern)
| Alt (r1 r2 : pattern)
| Star (r : pattern).

(** [r+] *)
Definition Plus (r : pattern) : pattern := Seq r (Star r).

Fixpoint nullable (r : pattern) : bool :=
  match r with
  | Fail => false
  | Empty => true
  | CharSet _ => false
  | Seq r1 r2 => nullable r1 && nullable r2
  | Alt r1 r2 => nullable r1 || nullable r2
  | Star _ => true
  end.

Fixpoint deriv (c : N) (r : pattern) : pattern :=
  match r with
  | Fail => Fail
  | Empty => Fail
  | CharSet p => if p c then Empty else Fail
  | Seq r1 r2 =>
      if nullable r1 then Alt (Seq (deriv c r1) r2) (deriv c r2)
      else Seq (deriv c r1) r2
  | Alt r1 r2 => Alt (deriv c r1) (deriv c r2)
  | Star r1 => Seq (deriv c r1) (Star r1)
  end.

(** [/^r$/.test(s)] *)
Fixpoint test_anchored (r : pattern) (s : jsstring) : bool :=
  match s with
  | [] => nullable r
  | c :: s' => test_anchored (deriv c r) s'
  end.

(** The language of a pattern, stated independently of the matcher. *)
Inductive iter (L : jsstring -> Prop) : jsstring -> Prop :=
| iter_nil : iter L []
| iter_app s1 s2 : L s1 -> iter L s2 -> iter L (s1 ++ s2).

Fixpoint lang (r : pattern) : jsstring -> Prop :=
  match r with
  | Fail => fun _ => False
  | Empty => fun s => s = []
  | CharSet p => fun s => exists c, s = [c] /\ p c = true
  | Seq r1 r2 => fun s => exists s1 s2, s = s1 ++ s2 /\ lang r1 s1 /\ lang r2 s2
  | Alt r1 r2 => fun s => lang r1 s \/ lang r2 s
  | Star r1 => iter (lang r1)
  end.

Lemma iter_cons_inv (L : jsstring -> Prop) c s :
  iter L (c :: s) ->
  exists s1 s2, s = s1 ++ s2 /\ L (c :: s1) /\ iter L s2.
Proof.
  intros H. remember (c :: s) as t eqn:Et.
  induction H as [|s1 s2 H1 H2 IH]; [discriminate|].
  destruct s1 as [|c1 s1]; simpl in Et.
  - auto.
  - injection Et as -> <-. eauto.
Qed.

Lemma nullable_lang r : nullable r = true <-> lang r [].
Proof.
  induction r as [| |p|r1 IH1 r2 IH2|r1 IH1 r2 IH2|r IH]; simpl.
  - split; [discriminate|tauto].
  - tauto.
  - split; [discriminate|]. intros (c & Hc & _). discriminate.
  - rewrite andb_true_iff, IH1, IH2. split.
    + intros [H1 H2]. exists [], []. auto.
    + intros (s1 & s2 & Hs & H1 & H2).
      symmetry in Hs. apply app_eq_nil in Hs as [-> ->]. auto.
  - rewrite orb_true_iff, IH1, IH2. tauto.
  - split; [constructor|reflexivity].
Qed.

Lemma deriv_lang r : forall c s, lang (deriv c r) s <-> lang r (c :: s).
Proof.
  induction r as [| |p|r1 IH1 r2 IH2|r1 IH1 r2 IH2|r IH]; intros c s; simpl.
  - tauto.
  - split; [tauto|discriminate].
  - destruct (p c) eqn:Hp; simpl.
    + split.
      * intros ->. eauto.
      * intros (c' & Hc & _). by injection Hc.
    + split; [tauto|]. intros (c' & Hc & Hp'). injection Hc as -> _. congruence.
  - assert (Hcons : (exists s1 s2, s = s1 ++ s2 /\ lang (deriv c r1) s1 /\ lang r2 s2)
                    <-> exists s1 s2, c :: s = (c :: s1) ++ s2 /\ lang r1 (c :: s1) /\ lang r2 s2).
    { split; intros (s1 & s2 & Hs & H1 & H2); exists s1, s2.
      - rewrite <- IH1. subst. auto.
      - rewrite IH1. simpl in Hs. injection Hs as ->. auto. }
    destruct (nullable r1) eqn:Hn; simpl.
    + rewrite Hcons, IH2. split.
      * intros [(s1 & s2 & Hs & H1 & H2)|H2].
        -- exists (c :: s1), s2. auto.
        -- exists [], (c :: s). split; [done|]. split; [|done].
           by apply nullable_lang.
      * intros (s1 & s2 & Hs & H1 & H2). destruct s1 as [|c1 s1]; simpl in Hs.
        -- right. by subst.
        -- left. injection Hs as <- ->. exists s1, s2. auto.
    + rewrite Hcons. split.
      * intros (s1 & s2 & Hs & H1 & H2). exists (c :: s1), s2. auto.
      * intros (s1 & s2 & Hs & H1 & H2). destruct s1 as [|c1 s1]; simpl in Hs.
        -- apply nullable_lang in H1. congruence.
        -- injection Hs as <- ->. exists s1, s2. auto.
  - rewrite IH1, IH2. tauto.
  - split.
    + intros (s1 & s2 & -> & H1 & H2). apply IH in H1.
      apply (iter_app _ (c :: s1) s2); auto.
    + intros H. apply iter_cons_inv in H as (s1 & s2 & -> & H1 & H2).
      exists s1, s2. rewrite IH. auto.
Qed.

Lemma test_anchored_lang s : forall r, test_anchored r s = true <-> lang r s.
Proof.
  induction s as [|c s IH]; intros r; simpl.
  - apply nullable_lang.
  - rewrite IH. apply deriv_lang.
Qed.

(** One or more code units of a set. *)
Lemma lang_plus_charset p s :
  lang (Plus (CharSet p)) s <-> s <> [] /\ Forall (fun c => p c = true) s.
Proof.
  split.
  - intros (s1 & s2 & -> & (c & -> & Hc) & H2). split; [done|].
    constructor; [done|]. clear Hc.
    induction H2 as [|t1 t2 (c' & -> & Hc') _ IH]; [constructor|].
    by constructor.
  - intros [Hne Hall]. destruct s as [|c s]; [done|].
    apply Forall_cons in Hall as [Hc Hall].
    exists [c], s. split; [done|]. split; [by exists c|].
    clear Hne Hc. simpl. induction Hall as [|c' s' Hc' _ IH]; [apply iter_nil|].
    apply (iter_app _ [c'] s'); [|done]. simpl. eauto.
Qed.

End Regex.

Import Regex.

(** ** Completions

    A call either returns normally or throws.  The only exception this
    script can raise from its own code is the [URIError] of
    [encodeURIComponent]. *)

Inductive error : Type := URIError.

Inductive outcome (A : Type) : Type :=
| Ok (a : A)
| Throw (e : error).
Arguments Ok {A} a.
Arguments Throw {A} e.

(** ** [encodeURIComponent] *)

Module URI.

Definition in_range (lo hi c : N) : bool := (lo <=? c) && (c <=? hi).

(** [uriUnreserved]: letters, decimal digits and the marks - _ . ! ~ * ' ( ) *)
Definition is_unreserved (c : N) : bool :=
  in_range 0x41 0x5A c || in_range 0x61 0x7A c || in_range 0x30 0x39 c
  || (c =? 0x2D) || (c =? 0x5F) || (c =? 0x2E) || (c =? 0x21) || (c =? 0x7E)
  || (c =? 0x2A) || (c =? 0x27) || (c =? 0x28) || (c =? 0x29).

Definition is_leading_surrogate (c : N) : bool := in_range 0xD800 0xDBFF c.
Definition is_trailing_surrogate (c : N) : bool := in_range 0xDC00 0xDFFF c.

(** [UTF16SurrogatePairToCodePoint] *)
Definition surrogate_pair_to_code_point (lead trail : N) : N :=
  (lead - 0xD800) * 0x400 + (trail - 0xDC00) + 0x10000.

(** The octets of the UTF-8 encoding of a code point. *)
Definition utf8_octets (cp : N) : list N :=
  if cp <? 0x80 then [cp]
  else if cp <? 0x800 then
    [0xC0 + cp / 0x40; 0x80 + cp mod 0x40]
  else if cp <? 0x10000 then
    [0xE0 + cp / 0x1000; 0x80 + (cp / 0x40) mod 0x40; 0x80 + cp mod 0x40]
  else
    [0xF0 + cp / 0x40000; 0x80 + (cp / 0x1000) mod 0x40;
     0x80 + (cp / 0x40) mod 0x40; 0x80 + cp mod 0x40].

(** Upper-case hexadecimal digit, as a code unit. *)
Definition hex_digit (d : N) : N := if d <? 10 then 0x30 + d else 0x37 + d.

(** ["%XY"] for one octet *)
Definition percent_octet (b : N) : jsstring :=
  [0x25; hex_digit (b / 16); hex_digit (b mod 16)].

Definition percent_encode (cp : N) : jsstring :=
  concat (map percent_octet (utf8_octets cp)).

(** The abstract operation [Encode] with the unreserved set of
    [encodeURIComponent]: unreserved code units are copied, every other
    code point is replaced by the escapes of its UTF-8 octets, and an
    unpaired surrogate throws. *)
Fixpoint encodeURIComponent (s : jsstring) : outcome jsstring :=
  match s with
  | [] => Ok []
  | c :: rest =>
      if is_unreserved c then
        match encodeURIComponent rest with
        | Ok r => Ok (c :: r)
        | Throw e => Throw e
        end
      else if is_trailing_surrogate c then Throw URIError
      else if is_leading_surrogate c then
        match rest with
        | d :: rest' =>
            if is_trailing_surrogate d then
              match encodeURIComponent rest' with
              | Ok r => Ok (percent_encode (surrogate_pair_to_code_point c d) ++ r)
              | Throw e => Throw e
              end
            else Throw URIError
        | [] => Throw URIError
        end
      else
        match encodeURIComponent rest with
        | Ok r => Ok (percent_encode c ++ r)
        | Throw e => Throw e
        end
  end.

(** A string without unpaired surrogates (the strings [isWellFormed]
    accepts). *)
Fixpoint well_formed (s : jsstring) : bool :=
  match s with
  | [] => true
  | c :: rest =>
      if is_trailing_surrogate c then false
      else if is_leading_surrogate c then
        match rest with
        | d :: rest' => is_trailing_surrogate d && well_formed rest'
        | [] => false
        end
      else well_formed rest
  end.

End URI.

Import URI.

Example encode_space : encodeURIComponent (lit "Jane Doe") = Ok (lit "Jane%20Doe").
Proof. reflexivity. Qed.

Example encode_newline_at :
  encodeURIComponent (lit "a@b" ++ [0xA]) = Ok (lit "a%40b%0A").
Proof. reflexivity. Qed.

(* U+00E9, U+2014, U+1F319 as UTF-16 *)
Example encode_non_ascii :
  encodeURIComponent [0xE9; 0x2014; 0xD83C; 0xDF19]
  = Ok (lit "%C3%A9%E2%80%94%F0%9F%8C%99").
Proof. reflexivity. Qed.

Example encode_lone_surrogate : encodeURIComponent [0x41; 0xD800] = Throw URIError.
Proof. reflexivity. Qed.

Lemma list_pair_ind {A} (P : list A -> Prop) :
  P [] ->
  (forall c rest, P rest -> (forall d rest', rest = d :: rest' -> P rest') -> P (c :: rest)) ->
  forall l, P l.
Proof.
  intros H0 Hs l.
  cut (P l /\ forall d l', l = d :: l' -> P l'); [tauto|].
  induction l as [|c l [IH1 IH2]].
  - split; [done|discriminate].
  - split; [by apply Hs|]. by intros d l' [= -> ->].
Qed.

Section EncodeFacts.

Lemma unreserved_not_surrogate c :
  is_unreserved c = true ->
  is_trailing_surrogate c = false /\ is_leading_surrogate c = false.
Proof.
  unfold is_unreserved, is_trailing_surrogate, is_leading_surrogate, in_range.
  intros Hu.
  repeat rewrite orb_true_iff in Hu. repeat rewrite andb_true_iff in Hu.
  rewrite ?N.leb_le, ?N.eqb_eq in Hu.
  split; apply andb_false_iff; rewrite !N.leb_gt; lia.
Qed.

(** Encoding succeeds exactly on the strings without unpaired surrogates. *)
Lemma encode_well_formed s :
  well_formed s = true <-> exists r, encodeURIComponent s = Ok r.
Proof.
  induction s as [|c rest IH1 IH2] using list_pair_ind; simpl.
  - split; eauto.
  - destruct (is_unreserved c) eqn:Hu.
    + destruct (unreserved_not_surrogate c Hu) as [-> ->].
      rewrite IH1. split; intros [r Hr].
      * rewrite Hr. eauto.
      * destruct (encodeURIComponent rest); [eauto|discriminate].
    + destruct (is_trailing_surrogate c); [split; [discriminate|by intros [? ?]]|].
      destruct (is_leading_surrogate c).
      * destruct rest as [|d rest']; [split; [discriminate|by intros [? ?]]|].
        destruct (is_trailing_surrogate d); simpl;
          [|split; [discriminate|by intros [? ?]]].
        rewrite (IH2 d rest' eq_refl). split; intros [r Hr].
        -- rewrite Hr. eauto.
        -- destruct (encodeURIComponent rest'); [eauto|discriminate].
      * rewrite IH1. split; intros [r Hr].
        -- rewrite Hr. eauto.
        -- destruct (encodeURIComponent rest); [eauto|discriminate].
Qed.

(** On successful encodings, [encodeURIComponent] distributes over
    concatenation: the escapes of a substring appear unchanged inside
    the encoding of the whole. *)
Lemma encode_app a : forall a' b b',
  encodeURIComponent a = Ok a' ->
  encodeURIComponent b = Ok b' ->
  encodeURIComponent (a ++ b) = Ok (a' ++ b').
Proof.
  induction a as [|c rest IH1 IH2] using list_pair_ind; intros a' b b' Ha Hb.
  - simpl in *. by injection Ha as <-.
  - simpl in *. destruct (is_unreserved c).
    + destruct (encodeURIComponent rest) as [r|] eqn:Hr; [|discriminate].
      injection Ha as <-. by rewrite (IH1 r b b').
    + destruct (is_trailing_surrogate c); [discriminate|].
      destruct (is_leading_surrogate c).
      * destruct rest as [|d rest']; [discriminate|]. simpl.
        destruct (is_trailing_surrogate d); [|discriminate].
        destruct (encodeURIComponent rest') as [r|] eqn:Hr; [|discriminate].
        injection Ha as <-. rewrite (IH2 d rest' eq_refl r b b'); [|done..].
        by rewrite app_assoc.
      * destruct (encodeURIComponent rest) as [r|] eqn:Hr; [|discriminate].
        injection Ha as <-. rewrite (IH1 r b b'); [|done..].
        by rewrite app_assoc.
Qed.

Lemma encode_well_formed_app a b :
  well_formed a = true -> well_formed b = true ->
  exists a' b', encodeURIComponent a = Ok a' /\ encodeURIComponent b = Ok b'
                /\ encodeURIComponent (a ++ b) = Ok (a' ++ b').
Proof.
  intros [a' Ha]%encode_well_formed [b' Hb]%encode_well_formed.
  exists a', b'. eauto using encode_app.
Qed.

End EncodeFacts.

(** ** Class lists

    An element's classes are kept in its [class] attribute, a string;
    [classList] is a view of that string as an ordered set of tokens.  Each
    modification through [classList] parses the attribute, changes the set
    and writes its serialization back. *)

Module TokenList.

Definition is_ascii_whitespace (c : N) : bool :=
  (c =? 0x9) || (c =? 0xA) || (c =? 0xC) || (c =? 0xD) || (c =? 0x20).

(** Split on ASCII whitespace; [cur] is the token being read. *)
Fixpoint split_on_whitespace (s cur : jsstring) : list jsstring :=
  match s with
  | [] => match cur with [] => [] | _ => [cur] end
  | c :: s' =>
      if is_ascii_whitespace c then
        match cur with
        | [] => split_on_whitespace s' []
        | _ => cur :: split_on_whitespace s' []
        end
      else split_on_whitespace s' (cur ++ [c])
  end.

(** Append to an ordered set: a token already present keeps its place. *)
Definition set_append (ts : list jsstring) (t : jsstring) : list jsstring :=
  if decide (t ∈ ts) then ts else ts ++ [t].

(** The ordered set parser. *)
Definition parse (attr : jsstring) : list jsstring :=
  fold_left set_append (split_on_whitespace attr []) [].

(** The ordered set serializer: tokens joined by U+0020. *)
Fixpoint serialize (ts : list jsstring) : jsstring :=
  match ts with
  | [] => []
  | [t] => t
  | t :: ts' => t ++ 0x20 :: serialize ts'
  end.

Definition set_remove (ts : list jsstring) (t : jsstring) : list jsstring :=
  filter (fun u => u <> t) ts.

(** [classList.contains(t)] *)
Definition contains (attr t : jsstring) : bool := bool_decide (t ∈ parse attr).

(** [classList.add(t)]: the new value of the attribute *)
Definition add (attr t : jsstring) : jsstring := serialize (set_append (parse attr) t).

(** [classList.remove(t)] *)
Definition remove (attr t : jsstring) : jsstring := serialize (set_remove (parse attr) t).

(** [classList.toggle(t)]: the returned flag and the new attribute *)
Definition toggle (attr t : jsstring) : bool * jsstring :=
  if contains attr t then (false, serialize (set_remove (parse attr) t))
  else (true, serialize (parse attr ++ [t])).

(** A token as [classList] accepts it: not empty, no ASCII whitespace. *)
Definition valid_token (t : jsstring) : Prop :=
  t <> [] /\ Forall (fun c => is_ascii_whitespace c = false) t.

End TokenList.

Example parse_example :
  TokenList.parse (lit "  hero theme-dark  hero wide ") = [lit "hero"; lit "theme-dark"; lit "wide"].
Proof. reflexivity. Qed.

Example toggle_example :
  TokenList.toggle (lit "hero theme-dark wide") (lit "theme-dark") = (false, lit "hero wide").
Proof. reflexivity. Qed.

(** ** Numbers

    A Number is an IEEE-754 binary64 value.  Arithmetic rounds to nearest,
    ties to even ([SFmul]); comparisons are those of the standard. *)

Module JSNumber.

Abbreviation number := spec_float.

Definition prec : Z := 53.
Definition emax : Z := 1024.

Definition mul (x y : number) : number := SFmul prec emax x y.
Definition ltb (x y : number) : bool := SFltb x y.

(** An integer as a Number (exact below 2^53). *)
Definition of_Z (n : Z) : number := binary_normalize prec emax n 0 false.

(** The literals of the script: the binary64 values nearest to the
    decimals written in the source. *)
Definition lit_0_12 : number := S754_finite false 8646911284551352 (-56).
Definition lit_0_9 : number := S754_finite false 8106479329266893 (-53).
Definition lit_300 : number := S754_finite false 5277655813324800 (-44).
Definition lit_0 : number := S754_zero false.

Definition is_nan (x : number) : bool :=
  match x with S754_nan => true | _ => false end.

(** [Math.max(a, b)]: NaN if an argument is NaN; +0 is larger than -0. *)
Definition Math_max (args : list number) : number :=
  if existsb is_nan args then S754_nan
  else
    fold_left
      (fun highest x =>
         match x, highest with
         | S754_zero false, S754_zero true => x
         | _, _ => if ltb highest x then x else highest
         end)
      args (S754_infinity true).

(** [Math.min(a, b)]: NaN if an argument is NaN; -0 is smaller than +0. *)
Definition Math_min (args : list number) : number :=
  if existsb is_nan args then S754_nan
  else
    fold_left
      (fun lowest x =>
         match x, lowest with
         | S754_zero true, S754_zero false => x
         | _, _ => if ltb x lowest then x else lowest
         end)
      args (S754_infinity false).

(** [Math.round(x)]: [x] itself when it is not finite or is integral;
    otherwise the integral Number closest to [x], ties towards +∞, with
    the sign of [x] kept on a zero result. *)
Definition Math_round (x : number) : number :=
  match x with
  | S754_finite s m e =>
      if (0 <=? e)%Z then x
      else
        let d := (2 ^ (- e))%Z in
        let v := (if s then Z.neg m else Z.pos m) in
        if (v mod d =? 0)%Z then x
        else
          let n := ((2 * v + d) / (2 * d))%Z in
          binary_normalize prec emax n 0 s
  | _ => x
  end.

End JSNumber.

Import JSNumber.

(** The literals are correctly rounded: each is a 53-bit significand
    within half a unit in the last place of the decimal it stands for. *)
Lemma lit_0_12_nearest :
  (2 ^ 52 <= 8646911284551352 < 2 ^ 53
   /\ 2 * Z.abs (100 * 8646911284551352 - 12 * 2 ^ 56) <= 100)%Z.
Proof. vm_compute. intuition discriminate. Qed.

Lemma lit_0_9_nearest :
  (2 ^ 52 <= 8106479329266893 < 2 ^ 53
   /\ 2 * Z.abs (10 * 8106479329266893 - 9 * 2 ^ 53) <= 10)%Z.
Proof. vm_compute. intuition discriminate. Qed.

Example lit_300_exact : of_Z 300 = lit_300.
Proof. reflexivity. Qed.

Example round_examples :
  Math_round (S754_finite false 6755399441055744 (-52)) = of_Z 2      (* 1.5 *)
  /\ Math_round (S754_finite true 5629499534213120 (-51)) = of_Z (-2)  (* -2.5 *)
  /\ Math_round (S754_finite true 4503599627370496 (-53)) = S754_zero true  (* -0.5 *)
  /\ Math_round (S754_finite false 9007199254740991 (-54)) = S754_zero false. (* 0.49999999999999994 *)
Proof. repeat split; reflexivity. Qed.

(** ** The document and the browser state *)

(** The nodes the script looks up by id, the three named controls of the
    form, and any further element of the page ([Elem n]). *)
Inductive node : Type :=
| Document | Window | Body
| ThemeToggle | MobileNavToggle | Nav | YearEl
| ContactForm | FormFeedback | ResetBtn | SubmitBtn
| Cursor | CursorDot | CursorRing
| FieldName | FieldEmail | FieldMessage
| Elem (n : nat).

Global Instance node_eq_dec : EqDecision node.
Proof. solve_decision. Defined.

Definition node_code (x : node) : nat + nat :=
  match x with
  | Document => inl 0%nat | Window => inl 1%nat | Body => inl 2%nat
  | ThemeToggle => inl 3%nat | MobileNavToggle => inl 4%nat | Nav => inl 5%nat
  | YearEl => inl 6%nat | ContactForm => inl 7%nat | FormFeedback => inl 8%nat
  | ResetBtn => inl 9%nat | SubmitBtn => inl 10%nat | Cursor => inl 11%nat
  | CursorDot => inl 12%nat | CursorRing => inl 13%nat | FieldName => inl 14%nat
  | FieldEmail => inl 15%nat | FieldMessage => inl 16%nat
  | Elem n => inr n
  end.

Definition node_of_code (c : nat + nat) : node :=
  match c with
  | inl 0%nat => Document | inl 1%nat => Window | inl 2%nat => Body
  | inl 3%nat => ThemeToggle | inl 4%nat => MobileNavToggle | inl 5%nat => Nav
  | inl 6%nat => YearEl | inl 7%nat => ContactForm | inl 8%nat => FormFeedback
  | inl 9%nat => ResetBtn | inl 10%nat => SubmitBtn | inl 11%nat => Cursor
  | inl 12%nat => CursorDot | inl 13%nat => CursorRing | inl 14%nat => FieldName
  | inl 15%nat => FieldEmail | inl _ => FieldMessage
  | inr n => Elem n
  end.

Global Instance node_countable : Countable node.
Proof. apply (inj_countable' node_code node_of_code). by intros []. Defined.

(** The properties and attributes the script reads or writes. *)
Inductive prop : Type :=
| ClassName | TextContent | AriaPressed | AriaExpanded | Value | Disabled
| StyleTransitionDelay | StyleDisplay | StyleTransform | StyleOpacity.

Global Instance prop_eq_dec : EqDecision prop.
Proof. solve_decision. Defined.

Definition prop_code (p : prop) : nat :=
  match p with
  | ClassName => 0 | TextContent => 1 | AriaPressed => 2 | AriaExpanded => 3
  | Value => 4 | Disabled => 5 | StyleTransitionDelay => 6 | StyleDisplay => 7
  | StyleTransform => 8 | StyleOpacity => 9
  end%nat.

Definition prop_of_code (c : nat) : prop :=
  match c with
  | 0 => ClassName | 1 => TextContent | 2 => AriaPressed | 3 => AriaExpanded
  | 4 => Value | 5 => Disabled | 6 => StyleTransitionDelay | 7 => StyleDisplay
  | 8 => StyleTransform | _ => StyleOpacity
  end%nat.

Global Instance prop_countable : Countable prop.
Proof. apply (inj_countable' prop_code prop_of_code). by intros []. Defined.

(** Property values.  [VMillis x] stands for the template literal
    [`${x}ms`]; the decimal rendering of the number is kept symbolic. *)
Inductive value : Type :=
| VStr (s : jsstring)
| VBool (b : bool)
| VMillis (x : number).

Inductive event_type : Type :=
| Click | MouseMove | MouseLeave | PointerEnter | PointerLeave
| FocusEvent | BlurEvent | SubmitEvent | KeyDown.

(** The listener functions of the script, one tag per function
    expression; the tag records the variables the closure captures. *)
Inductive handler : Type :=
| OnThemeClick | OnNavClick | OnAnchorClick (a : node)
| OnTiltMove (el : node) | OnTiltLeave (el : node)
| OnCursorMove | OnCursorEnter | OnCursorLeave | OnInputFocus | OnInputBlur
| OnWindowBlur | OnFormSubmit | OnResetClick | OnKeyDown.

Global Instance event_type_eq_dec : EqDecision event_type.
Proof. solve_decision. Defined.
Global Instance handler_eq_dec : EqDecision handler.
Proof. solve_decision. Defined.

(** Callbacks handed to [setTimeout] and [setInterval]. *)
Inductive task : Type :=
| SubmitDone (name email message : jsstring)   (* lines 206-216 *)
| RingPulse.                                   (* lines 158-164 *)

Record timer : Type := Timer {
  timer_id : N;
  timer_due : Z;                (* next firing time, ms *)
  timer_period : option Z;      (* [Some p] for [setInterval] *)
  timer_task : task;
}.

Record world : Type := World {
  props : gmap (node * prop) value;
  activeElement : option node;
  listeners : list (node * event_type * handler);
  observer : option (list node);     (* targets of [revealObserver], once constructed *)
  timers : list timer;
  next_timer_id : N;
  now : Z;                           (* ms since page load *)
  ringAnim : option N;               (* [let ringAnim] of the cursor block *)
  ring_animations : N;               (* calls of [cursorRing.animate] so far *)
  localStorage : gmap jsstring jsstring;
  location_href : jsstring;
  defaultPrevented : bool;           (* of the event being dispatched *)
  uncaught : list error;             (* exceptions that escaped a callback *)
}.

(** What the script reads from its environment at start-up. *)
Record env : Type := Env {
  prefersReduced : bool;             (* matchMedia('(prefers-reduced-motion: reduce)').matches *)
  isTouch : bool;                    (* 'ontouchstart' in window || maxTouchPoints > 0 *)
  has_cursor : bool;                 (* getElementById('cursor') is not null *)
  reveal_els : list node;            (* querySelectorAll('[data-reveal]') *)
  tilt_els : list node;              (* querySelectorAll('[data-tilt]') *)
  anchor_els : list node;            (* querySelectorAll('a[href^="#"]') *)
  interactive_els : list node;       (* querySelectorAll(interactive) *)
  input_els : list node;             (* querySelectorAll('input, textarea') *)
  rect_top : node -> number;         (* getBoundingClientRect().top *)
  innerHeight : number;              (* window.innerHeight *)
  full_year : jsstring;              (* String(new Date().getFullYear()) *)
  markup : gmap (node * prop) value; (* properties given by the HTML *)
  stored : gmap jsstring jsstring;   (* localStorage as the last visit left it *)
  document_url : jsstring;           (* window.location.href at load *)
}.

(** Field updates of [world]. *)

Definition set_props x (w : world) : world :=
  World x (activeElement w) (listeners w) (observer w) (timers w)
    (next_timer_id w) (now w) (ringAnim w) (ring_animations w) (localStorage
    w) (location_href w) (defaultPrevented w) (uncaught w).

Definition set_activeElement x (w : world) : world :=
  World (props w) x (listeners w) (observer w) (timers w) (next_timer_id w)
    (now w) (ringAnim w) (ring_animations w) (localStorage w) (location_href
    w) (defaultPrevented w) (uncaught w).

Definition set_listeners x (w : world) : world :=
  World (props w) (activeElement w) x (observer w) (timers w) (next_timer_id
    w) (now w) (ringAnim w) (ring_animations w) (localStorage w)
    (location_href w) (defaultPrevented w) (uncaught w).

Definition set_observer x (w : world) : world :=
  World (props w) (activeElement w) (listeners w) x (timers w)
    (next_timer_id w) (now w) (ringAnim w) (ring_animations w) (localStorage
    w) (location_href w) (defaultPrevented w) (uncaught w).

Definition set_timers x (w : world) : world :=
  World (props w) (activeElement w) (listeners w) (observer w) x
    (next_timer_id w) (now w) (ringAnim w) (ring_animations w) (localStorage
    w) (location_href w) (defaultPrevented w) (uncaught w).

Definition set_next_timer_id x (w : world) : world :=
  World (props w) (activeElement w) (listeners w) (observer w) (timers w) x
    (now w) (ringAnim w) (ring_animations w) (localStorage w) (location_href
    w) (defaultPrevented w) (uncaught w).

Definition set_now x (w : world) : world :=
  World (props w) (activeElement w) (listeners w) (observer w) (timers w)
    (next_timer_id w) x (ringAnim w) (ring_animations w) (localStorage w)
    (location_href w) (defaultPrevented w) (uncaught w).

Definition set_ringAnim x (w : world) : world :=
  World (props w) (activeElement w) (listeners w) (observer w) (timers w)
    (next_timer_id w) (now w) x (ring_animations w) (localStorage w)
    (location_href w) (defaultPrevented w) (uncaught w).

Definition set_ring_animations x (w : world) : world :=
  World (props w) (activeElement w) (listeners w) (observer w) (timers w)
    (next_timer_id w) (now w) (ringAnim w) x (localStorage w) (location_href
    w) (defaultPrevented w) (uncaught w).

Definition set_localStorage x (w : world) : world :=
  World (props w) (activeElement w) (listeners w) (observer w) (timers w)
    (next_timer_id w) (now w) (ringAnim w) (ring_animations w) x
    (location_href w) (defaultPrevented w) (uncaught w).

Definition set_location_href x (w : world) : world :=
  World (props w) (activeElement w) (listeners w) (observer w) (timers w)
    (next_timer_id w) (now w) (ringAnim w) (ring_animations w) (localStorage
    w) x (defaultPrevented w) (uncaught w).

Definition set_defaultPrevented x (w : world) : world :=
  World (props w) (activeElement w) (listeners w) (observer w) (timers w)
    (next_timer_id w) (now w) (ringAnim w) (ring_animations w) (localStorage
    w) (location_href w) x (uncaught w).

Definition set_uncaught x (w : world) : world :=
  World (props w) (activeElement w) (listeners w) (observer w) (timers w)
    (next_timer_id w) (now w) (ringAnim w) (ring_animations w) (localStorage
    w) (location_href w) (defaultPrevented w) x.

(** ** The monad of the script: state and exceptions *)

Definition M (A : Type) : Type := world -> outcome A * world.

Global Instance M_ret : MRet M := fun A a w => (Ok a, w).
Global Instance M_bind : MBind M := fun A B k m w =>
  match m w with
  | (Ok a, w') => k a w'
  | (Throw e, w') => (Throw e, w')
  end.

Global Instance M_fmap : FMap M := fun A B f m w =>
  match m w with
  | (Ok a, w') => (Ok (f a), w')
  | (Throw e, w') => (Throw e, w')
  end.

Definition throw {A} (e : error) : M A := fun w => (Throw e, w).
Definition gets {A} (f : world -> A) : M A := fun w => (Ok (f w), w).
Definition modify (f : world -> world) : M unit := fun w => (Ok (), f w).

(** Lift a completion of a pure library function. *)
Definition lift {A} (o : outcome A) : M A := fun w => (o, w).

(** The state a program leaves behind, whether it returned or threw. *)
Definition exec {A} (m : M A) (w : world) : world := snd (m w).

(** [forEach] *)
Fixpoint for_each {A} (l : list A) (f : A -> M unit) : M unit :=
  match l with
  | [] => mret ()
  | x :: l' => f x ;; for_each l' f
  end.

(** *** DOM primitives *)

Definition get_prop (n : node) (p : prop) : M (option value) :=
  gets (fun w => props w !! (n, p)).

Definition set_prop (n : node) (p : prop) (v : value) : M unit :=
  modify (fun w => set_props (<[(n, p) := v]> (props w)) w).

(** A string-valued property; an attribute never set reads as empty. *)
Definition str_prop (w : world) (n : node) (p : prop) : jsstring :=
  match props w !! (n, p) with
  | Some (VStr s) => s
  | _ => []
  end.

Definition get_str (n : node) (p : prop) : M jsstring :=
  gets (fun w => str_prop w n p).

Definition classList_add (n : node) (t : jsstring) : M unit :=
  attr ← get_str n ClassName;
  set_prop n ClassName (VStr (TokenList.add attr t)).

Definition classList_remove (n : node) (t : jsstring) : M unit :=
  attr ← get_str n ClassName;
  set_prop n ClassName (VStr (TokenList.remove attr t)).

Definition classList_toggle (n : node) (t : jsstring) : M bool :=
  attr ← get_str n ClassName;
  let '(present, attr') := TokenList.toggle attr t in
  set_prop n ClassName (VStr attr') ;;
  mret present.

Definition focus (n : node) : M unit := modify (set_activeElement (Some n)).

Definition preventDefault : M unit := modify (set_defaultPrevented true).

Definition addEventListener (target : node) (ty : event_type) (h : handler) : M unit :=
  modify (fun w => set_listeners (listeners w ++ [(target, ty, h)]) w).

(** *** Browser primitives *)

Definition localStorage_getItem (k : jsstring) : M (option jsstring) :=
  gets (fun w => localStorage w !! k).

Definition localStorage_setItem (k v : jsstring) : M unit :=
  modify (fun w => set_localStorage (<[k := v]> (localStorage w)) w).

Definition add_timer (period : option Z) (t : task) (delay : Z) : M N :=
  fun w =>
    let id := next_timer_id w in
    (Ok id,
     set_next_timer_id (id + 1)
       (set_timers (timers w ++ [Timer id (now w + delay) period t]) w)).

Definition setTimeout (t : task) (delay : Z) : M N := add_timer None t delay.
Definition setInterval (t : task) (delay : Z) : M N := add_timer (Some delay) t delay.

(** [clearInterval(id)]; an [undefined] handle clears nothing. *)
Definition clearInterval (id : option N) : M unit :=
  modify (fun w =>
    match id with
    | Some i => set_timers (filter (fun t => timer_id t <> i) (timers w)) w
    | None => w
    end).

(** [window.location.href = url] *)
Definition navigate (url : jsstring) : M unit := modify (set_location_href url).

(** [new IntersectionObserver(...)], [obs.observe(el)], [obs.unobserve(el)] *)
Definition new_observer : M unit := modify (set_observer (Some [])).

Definition observe (el : node) : M unit :=
  modify (fun w =>
    match observer w with
    | Some ts => set_observer (Some (if decide (el ∈ ts) then ts else ts ++ [el])) w
    | None => w
    end).

Definition unobserve (el : node) : M unit :=
  modify (fun w =>
    match observer w with
    | Some ts => set_observer (Some (filter (fun t => t <> el) ts)) w
    | None => w
    end).

(** ** The script *)

Module Script.

(** *** String literals *)

Definition site_theme : jsstring := lit "site-theme".
Definition theme_dark : jsstring := lit "theme-dark".
Definition theme_light : jsstring := lit "theme-light".
Definition revealed : jsstring := lit "revealed".
Definition glyph_sun : jsstring := [0x2600; 0xFE0F].      (* U+2600 U+FE0F *)
Definition glyph_moon : jsstring := [0xD83C; 0xDF19].     (* U+1F319 *)

(** [String(b)], as [setAttribute] stores a boolean argument *)
Definition string_of_bool (b : bool) : jsstring :=
  if b then lit "true" else lit "false".

Definition msg_name : jsstring := lit "Please enter your name (2+ characters).".
Definition msg_email : jsstring := lit "Please enter a valid email address.".
Definition msg_message : jsstring :=
  lit "Message is too short " ++ [0x2014] ++ lit " tell us more about your project.".
Definition msg_success : jsstring :=
  lit "Thanks " ++ [0x2014]
  ++ lit " message prepared. Your email client will open so you can send it (or use your preferred workflow).".

(** *** Theme toggle with persistence (lines 21-34) *)

Definition theme_init : M unit :=
  storedTheme ← localStorage_getItem site_theme;
  match storedTheme with
  | Some (c :: s) =>
      let storedTheme := c :: s in
      set_prop Body ClassName (VStr storedTheme) ;;
      set_prop ThemeToggle AriaPressed
        (VStr (string_of_bool (bool_decide (storedTheme = theme_dark)))) ;;
      set_prop ThemeToggle TextContent
        (VStr (if bool_decide (storedTheme = theme_dark) then glyph_sun else glyph_moon))
  | Some [] | None => mret ()          (* falsy: nothing stored, or the empty string *)
  end.

Definition on_theme_click : M unit :=
  isDark ← classList_toggle Body theme_dark;
  (if negb isDark then classList_add Body theme_light
   else classList_remove Body theme_light) ;;
  set_prop ThemeToggle AriaPressed (VStr (string_of_bool isDark)) ;;
  set_prop ThemeToggle TextContent
    (VStr (if isDark : bool then glyph_sun else glyph_moon)) ;;
  localStorage_setItem site_theme (if isDark : bool then theme_dark else theme_light).

(** *** Reveals (lines 74-95, 238-242) *)

(** [Math.min(300, Math.max(0, Math.round(rect.top * 0.12)))] *)
Definition stagger_delay (top : number) : number :=
  Math_min [lit_300; Math_max [lit_0; Math_round (mul top lit_0_12)]].

(** The callback of [revealObserver]; an entry is its target and its
    [isIntersecting] flag. *)
Definition reveal_callback (entries : list (node * bool)) : M unit :=
  for_each entries (fun e =>
    if e.2 then classList_add e.1 revealed ;; unobserve e.1
    else mret ()).

Definition reveal_init (e : env) : M unit :=
  if negb (prefersReduced e) then
    new_observer ;;
    for_each (reveal_els e) (fun el =>
      let delay := stagger_delay (rect_top e el) in
      set_prop el StyleTransitionDelay (VMillis delay) ;;
      observe el)
  else
    for_each (reveal_els e) (fun el => classList_add el revealed).

Definition reveal_above_fold (e : env) : M unit :=
  for_each (reveal_els e) (fun el =>
    if ltb (rect_top e el) (mul (innerHeight e) lit_0_9)
    then classList_add el revealed
    else mret ()).

(** *** Tilt (lines 101-120) *)

Definition attachTilt (el : node) : M unit :=
  addEventListener el MouseMove (OnTiltMove el) ;;
  addEventListener el MouseLeave (OnTiltLeave el).

Definition tilt_init (e : env) : M unit :=
  if negb (prefersReduced e) && negb (isTouch e)
  then for_each (tilt_els e) attachTilt
  else mret ().

(** *** Custom cursor (lines 126-170) *)

(** The interval callback: one call of [cursorRing.animate]. *)
Definition ring_pulse : M unit :=
  modify (fun w => set_ring_animations (ring_animations w + 1) w).

Definition startRingPulse : M unit :=
  id ← setInterval RingPulse 3200;
  modify (set_ringAnim (Some id)).

Definition on_window_blur : M unit :=
  id ← gets ringAnim;
  clearInterval id.

Definition cursor_init (e : env) : M unit :=
  if has_cursor e && negb (isTouch e) && negb (prefersReduced e) then
    addEventListener Document MouseMove OnCursorMove ;;
    for_each (interactive_els e) (fun node =>
      addEventListener node PointerEnter OnCursorEnter ;;
      addEventListener node PointerLeave OnCursorLeave) ;;
    for_each (input_els e) (fun inp =>
      addEventListener inp FocusEvent OnInputFocus ;;
      addEventListener inp BlurEvent OnInputBlur) ;;
    startRingPulse ;;
    addEventListener Window BlurEvent OnWindowBlur
  else if has_cursor e then
    set_prop Cursor StyleDisplay (VStr (lit "none"))
  else mret ().

(** *** Form validation (lines 178-217) *)

Definition not_space_or_at (c : N) : bool := negb (is_white_space c || (c =? 0x40)).

(** [/^[^\s@]+@[^\s@]+\.[^\s@]+$/] *)
Definition email_pattern : pattern :=
  Seq (Plus (CharSet not_space_or_at))
    (Seq (CharSet (N.eqb 0x40))
       (Seq (Plus (CharSet not_space_or_at))
          (Seq (CharSet (N.eqb 0x2E))
             (Plus (CharSet not_space_or_at))))).

(** The callback of [setTimeout], closed over the trimmed fields. *)
Definition submit_done (name email message : jsstring) : M unit :=
  set_prop SubmitBtn Disabled (VBool false) ;;
  set_prop SubmitBtn TextContent (VStr (lit "Send message")) ;;
  set_prop FormFeedback TextContent (VStr msg_success) ;;
  subject ← lift (encodeURIComponent (lit "Website inquiry from " ++ name));
  body ← lift (encodeURIComponent
                 (lit "Name: " ++ name ++ [0xA] ++ lit "Email: " ++ email
                  ++ [0xA; 0xA] ++ message));
  let mailto := lit "mailto:hello@aurora.example?subject=" ++ subject
                ++ lit "&body=" ++ body in
  navigate mailto.

Definition on_submit : M unit :=
  preventDefault ;;
  set_prop FormFeedback TextContent (VStr []) ;;
  name ← trim <$> get_str FieldName Value;
  email ← trim <$> get_str FieldEmail Value;
  message ← trim <$> get_str FieldMessage Value;
  if str_length name <? 2 then
    set_prop FormFeedback TextContent (VStr msg_name) ;;
    focus FieldName
  else if negb (test_anchored email_pattern email) then
    set_prop FormFeedback TextContent (VStr msg_email) ;;
    focus FieldEmail
  else if str_length message <? 10 then
    set_prop FormFeedback TextContent (VStr msg_message) ;;
    focus FieldMessage
  else
    set_prop SubmitBtn Disabled (VBool true) ;;
    set_prop SubmitBtn TextContent (VStr (lit "Sending...")) ;;
    setTimeout (SubmitDone name email message) 900 ;;
    mret ().

(** *** The whole script, in source order *)

Definition main (e : env) : M unit :=
  set_prop YearEl TextContent (VStr (full_year e)) ;;
  theme_init ;;
  addEventListener ThemeToggle Click OnThemeClick ;;
  addEventListener MobileNavToggle Click OnNavClick ;;
  for_each (anchor_els e) (fun a => addEventListener a Click (OnAnchorClick a)) ;;
  reveal_init e ;;
  tilt_init e ;;
  cursor_init e ;;
  addEventListener ContactForm SubmitEvent OnFormSubmit ;;
  addEventListener ResetBtn Click OnResetClick ;;
  addEventListener Document KeyDown OnKeyDown ;;
  reveal_above_fold e.

End Script.

Import Script.

(** ** The page as a reactive system

    After [main] has run, the browser calls back into the script: it
    dispatches events to the registered listeners, fires due timers and
    delivers intersection entries.  An exception that escapes a callback is
    reported and the page goes on. *)

Module Page.

Definition handle (m : M unit) (w : world) : world :=
  match m w with
  | (Ok _, w') => w'
  | (Throw e, w') => set_uncaught (uncaught w' ++ [e]) w'
  end.

(** How many times [h] is registered for [ty] on [target]. *)
Definition registrations (target : node) (ty : event_type) (h : handler) (w : world) : nat :=
  length (filter (fun l => l = (target, ty, h)) (listeners w)).

(** Dispatch to one listener function: its body runs once per registration. *)
Definition fire (target : node) (ty : event_type) (h : handler) (body : M unit)
    (w : world) : world :=
  Nat.iter (registrations target ty h w) (handle body) w.

Definition run_task (t : task) : M unit :=
  match t with
  | SubmitDone name email message => submit_done name email message
  | RingPulse => ring_pulse
  end.

Definition is_due (t : Z) (x : timer) : bool := (timer_due x <=? t)%Z.

(** What remains of a timer after it fired: an interval is rescheduled,
    a timeout is dropped. *)
Definition after_firing (x : timer) : list timer :=
  match timer_period x with
  | Some p => [Timer (timer_id x) (timer_due x + p) (Some p) (timer_task x)]
  | None => []
  end.

(** One millisecond passes; the timers that are due fire in order. *)
Definition tick (w : world) : world :=
  let t := (now w + 1)%Z in
  let due := filter (fun x => is_due t x = true) (timers w) in
  let rest := flat_map (fun x => if is_due t x then after_firing x else [x]) (timers w) in
  fold_left (fun w x => handle (run_task (timer_task x)) w) due
    (set_now t (set_timers rest w)).

(** The browser delivers entries only for targets under observation. *)
Definition deliver (changes : list (node * bool)) (w : world) : world :=
  match observer w with
  | Some ts => handle (reveal_callback (filter (fun e => e.1 ∈ ts) changes)) w
  | None => w
  end.

Inductive event : Type :=
| ThemeClick                                   (* click on #themeToggle *)
| Input (field : node) (text : jsstring)       (* the user edits a form control *)
| Submit                                       (* submit of #contactForm *)
| WindowBlur                                   (* the window loses focus *)
| WindowFocus                                  (* the window gains focus *)
| Intersection (changes : list (node * bool))  (* visibility crossed the threshold *)
| Tick.                                        (* 1 ms elapses *)

Definition step (w : world) (ev : event) : world :=
  match ev with
  | ThemeClick => fire ThemeToggle Click OnThemeClick on_theme_click w
  | Input field text => exec (set_prop field Value (VStr text)) w
  | Submit => fire ContactForm SubmitEvent OnFormSubmit on_submit (set_defaultPrevented false w)
  | WindowBlur => fire Window BlurEvent OnWindowBlur on_window_blur w
  | WindowFocus => w                           (* no listener for [focus] on the window *)
  | Intersection changes => deliver changes w
  | Tick => tick w
  end.

Definition run (w : world) (evs : list event) : world := fold_left step evs w.

(** The document as parsed, before the script runs. *)
Definition fresh (e : env) : world :=
  {| props := markup e; activeElement := None; listeners := []; observer := None;
     timers := []; next_timer_id := 1; now := 0; ringAnim := None;
     ring_animations := 0; localStorage := stored e;
     location_href := document_url e; defaultPrevented := false; uncaught := [] |}.

(** The page once the script has run. *)
Definition load (e : env) : world := handle (main e) (fresh e).

(** The states the page can be in: loaded, then any events. *)
Definition reachable (e : env) (w : world) : Prop :=
  exists evs, w = run (load e) evs.

End Page.

Import Page.

(** ** Facts about the form handler *)

Section FormFacts.

(** The trimmed content of a form control. *)
Definition field_value (w : world) (f : node) : jsstring := trim (str_prop w f Value).

(** The e-mail shape in the specification's words: some characters that
    are neither whitespace nor [@], an [@], more such characters, a dot,
    and more such characters. *)
Definition plain_run (s : jsstring) : Prop :=
  s <> [] /\ Forall (fun c => is_white_space c = false /\ c <> 0x40) s.

Definition email_shape (s : jsstring) : Prop :=
  exists a b c, s = a ++ [0x40] ++ b ++ [0x2E] ++ c
                /\ plain_run a /\ plain_run b /\ plain_run c.

Lemma lang_plain_run s : lang (Plus (CharSet not_space_or_at)) s <-> plain_run s.
Proof.
  rewrite lang_plus_charset. unfold plain_run. apply and_iff_compat_l.
  apply Forall_iff. intros c. unfold not_space_or_at.
  rewrite negb_true_iff, orb_false_iff, N.eqb_neq. tauto.
Qed.

Lemma lang_single k s : lang (CharSet (N.eqb k)) s <-> s = [k].
Proof.
  simpl. split.
  - intros (c & -> & Hc). apply N.eqb_eq in Hc. by subst.
  - intros ->. exists k. by rewrite N.eqb_refl.
Qed.

(** The regular expression of the script accepts exactly that shape. *)
Lemma email_pattern_shape s : test_anchored email_pattern s = true <-> email_shape s.
Proof.
  rewrite test_anchored_lang. unfold email_pattern, email_shape.
  change (lang (Seq ?r1 ?r2) ?s)
    with (exists s1 s2, s = s1 ++ s2 /\ lang r1 s1 /\ lang r2 s2).
  split.
  - intros (a & t1 & -> & Ha & x & t2 & -> & Hx & H).
    change (exists b t3, t2 = b ++ t3 /\ lang (Plus (CharSet not_space_or_at)) b
              /\ exists y c, t3 = y ++ c /\ lang (CharSet (N.eqb 0x2E)) y
                   /\ lang (Plus (CharSet not_space_or_at)) c) in H.
    destruct H as (b & t3 & -> & Hb & y & c & -> & Hy & Hc).
    apply lang_single in Hx as ->. apply lang_single in Hy as ->.
    exists a, b, c. by rewrite <- !lang_plain_run.
  - intros (a & b & c & -> & Ha & Hb & Hc).
    exists a, ([0x40] ++ b ++ [0x2E] ++ c). split; [done|].
    split; [by apply lang_plain_run|].
    exists [0x40], (b ++ [0x2E] ++ c). split; [done|].
    split; [by apply lang_single|].
    change (exists s1 s2, b ++ [0x2E] ++ c = s1 ++ s2
              /\ lang (Plus (CharSet not_space_or_at)) s1
              /\ exists y c', s2 = y ++ c' /\ lang (CharSet (N.eqb 0x2E)) y
                   /\ lang (Plus (CharSet not_space_or_at)) c').
    exists b, ([0x2E] ++ c). split; [done|].
    split; [by apply lang_plain_run|].
    exists [0x2E], c. split; [done|]. split; [by apply lang_single|].
    by apply lang_plain_run.
Qed.

End FormFacts.

(** ** Frame reasoning

    [preserves f m]: whatever [m] does, the observation [f] of the state
    is the same afterwards, whether [m] returns or throws. *)

Section Frames.

Context {B : Type} (f : world -> B).

Definition preserves {A} (m : M A) : Prop := forall w, f (snd (m w)) = f w.

Lemma preserves_ret {A} (a : A) : preserves (mret a).
Proof. by intros w. Qed.

Lemma preserves_bind {A C} (m : M A) (k : A -> M C) :
  preserves m -> (forall a, preserves (k a)) -> preserves (m ≫= k).
Proof.
  intros Hm Hk w. unfold mbind, M_bind. specialize (Hm w).
  destruct (m w) as [[a|e] w']; simpl in *; [|done].
  by rewrite Hk.
Qed.

Lemma preserves_fmap {A C} (g : A -> C) (m : M A) :
  preserves m -> preserves (g <$> m).
Proof.
  intros Hm w. unfold fmap, M_fmap. specialize (Hm w).
  by destruct (m w) as [[a|e] w'].
Qed.

Lemma preserves_for_each {A} (l : list A) (body : A -> M unit) :
  (forall x, x ∈ l -> preserves (body x)) -> preserves (for_each l body).
Proof.
  induction l as [|x l IH]; intros Hb; simpl.
  - apply preserves_ret.
  - apply preserves_bind.
    + apply Hb. by left.
    + intros _. apply IH. intros y Hy. apply Hb. by right.
Qed.

Lemma preserves_lift {A} (o : outcome A) : preserves (lift o).
Proof. by intros w. Qed.

Lemma preserves_gets {A} (g : world -> A) : preserves (gets g).
Proof. by intros w. Qed.

Lemma preserves_modify (g : world -> world) :
  (forall w, f (g w) = f w) -> preserves (modify g).
Proof. intros Hg w. apply Hg. Qed.

Lemma preserves_exec {A} (m : M A) w : preserves m -> f (exec m w) = f w.
Proof. intros Hm. apply Hm. Qed.

Lemma preserves_handle (m : M unit) w :
  preserves m -> (forall x w', f (set_uncaught x w') = f w') -> f (handle m w) = f w.
Proof.
  intros Hm Hu. unfold handle. specialize (Hm w).
  destruct (m w) as [[a|e] w']; simpl in *; [done|]. by rewrite Hu.
Qed.

End Frames.

(** Decompose a program down to its primitives; a primitive is closed by
    computation. *)
Ltac frame_step :=
  lazymatch goal with
  | |- preserves _ (mbind _ _) => apply preserves_bind; [|intros ?]
  | |- preserves _ (fmap _ _) => apply preserves_fmap
  | |- preserves _ (for_each _ _) => apply preserves_for_each; intros ? ?
  | |- preserves _ (mret _) => apply preserves_ret
  | |- preserves _ (lift _) => apply preserves_lift
  | |- preserves _ (if ?c then _ else _) => destruct c
  | |- preserves _ (match ?x with _ => _ end) => destruct x
  | |- preserves _ _ =>
      first [ by intros ?
            | intros ?; cbv [observe unobserve clearInterval modify snd];
              repeat case_match; done ]
  end.
Ltac frame := repeat frame_step.

(** ** What the callbacks leave alone *)

Ltac script_unfold :=
  unfold on_submit, on_theme_click, on_window_blur, reveal_callback, run_task,
    submit_done, ring_pulse, main, theme_init, reveal_init, tilt_init, cursor_init,
    reveal_above_fold, attachTilt, startRingPulse,
    classList_toggle, classList_add, classList_remove.
Ltac script_frame := script_unfold; frame.

Section ScriptFrames.

Lemma fire_preserves {B} (f : world -> B) target ty h body w :
  preserves f body -> (forall x w', f (set_uncaught x w') = f w') ->
  f (fire target ty h body w) = f w.
Proof.
  intros Hb Hu. unfold fire. generalize (registrations target ty h w) as n.
  induction n as [|n IH]; [done|].
  simpl. by rewrite preserves_handle.
Qed.

Lemma tasks_preserve {B} (f : world -> B) (due : list timer) w :
  (forall t, preserves f (run_task t)) -> (forall x w', f (set_uncaught x w') = f w') ->
  f (fold_left (fun w x => handle (run_task (timer_task x)) w) due w) = f w.
Proof.
  intros Ht Hu. revert w. induction due as [|x due IH]; intros w; [done|].
  simpl. rewrite IH. by apply preserves_handle.
Qed.

(** The listener table is fixed once the script has run. *)
Lemma listeners_step w ev : listeners (step w ev) = listeners w.
Proof.
  destruct ev; simpl.
  - apply fire_preserves; [script_frame|done].
  - done.
  - by rewrite fire_preserves; [|script_frame|].
  - apply fire_preserves; [script_frame|done].
  - done.
  - unfold deliver. destruct (observer w); [|done].
    apply preserves_handle; [script_frame|done].
  - unfold tick. rewrite tasks_preserve; [done| |done].
    intros t. destruct t; script_frame.
Qed.

Lemma listeners_run evs : forall w, listeners (run w evs) = listeners w.
Proof.
  induction evs as [|ev evs IH]; intros w; [done|].
  simpl. fold (run (step w ev) evs). by rewrite IH, listeners_step.
Qed.

(** Start-up never writes to [localStorage]. *)
Lemma main_preserves_localStorage e : preserves localStorage (main e).
Proof. script_frame. Qed.

(** The callbacks of the timers touch neither the timer table, the
    clock, nor the handle kept in [ringAnim]. *)
Lemma task_preserves_timers t : preserves timers (run_task t).
Proof. destruct t; script_frame. Qed.

Lemma task_preserves_now t : preserves now (run_task t).
Proof. destruct t; script_frame. Qed.

Lemma task_preserves_ringAnim t : preserves ringAnim (run_task t).
Proof. destruct t; script_frame. Qed.

Lemma task_preserves_observer t : preserves observer (run_task t).
Proof. destruct t; script_frame. Qed.

End ScriptFrames.

(** ** Programs that always return

    [total m]: [m] never throws.  Everything in the script except the
    deferred step of the form (which calls [encodeURIComponent]) is total,
    so its effect is the composition of the effects of its statements. *)

Section Totality.

Definition total {A} (m : M A) : Prop := forall w, exists a, fst (m w) = Ok a.

Lemma total_ret {A} (a : A) : total (mret a).
Proof. intros w. by exists a. Qed.

Lemma total_bind {A C} (m : M A) (k : A -> M C) :
  total m -> (forall a, total (k a)) -> total (m ≫= k).
Proof.
  intros Hm Hk w. unfold mbind, M_bind. destruct (Hm w) as [a Ha].
  destruct (m w) as [[a'|e] w']; simpl in *; [|done]. apply Hk.
Qed.

Lemma total_fmap {A C} (g : A -> C) (m : M A) : total m -> total (g <$> m).
Proof.
  intros Hm w. unfold fmap, M_fmap. destruct (Hm w) as [a Ha].
  destruct (m w) as [[a'|e] w']; simpl in *; [|done]. eauto.
Qed.

Lemma total_for_each {A} (l : list A) (body : A -> M unit) :
  (forall x, total (body x)) -> total (for_each l body).
Proof.
  intros Hb. induction l as [|x l IH]; simpl.
  - apply total_ret.
  - apply total_bind; [apply Hb|by intros _].
Qed.

Lemma total_run (m : M unit) w : total m -> m w = (Ok (), exec m w).
Proof.
  intros Hm. destruct (Hm w) as [[] Ha]. unfold exec.
  destruct (m w) as [o w']. simpl in *. by subst.
Qed.

Lemma handle_total (m : M unit) w : total m -> handle m w = exec m w.
Proof. intros Hm. unfold handle. by rewrite (total_run m w Hm). Qed.

Lemma exec_seq (m k : M unit) w : total m -> exec (m ;; k) w = exec k (exec m w).
Proof.
  intros Hm. unfold exec at 1. unfold mbind, M_bind. by rewrite (total_run m w Hm).
Qed.

Lemma exec_bind {A} (m : M A) (k : A -> M unit) w a w' :
  m w = (Ok a, w') -> exec (m ≫= k) w = exec (k a) w'.
Proof. intros Hm. unfold exec at 1. unfold mbind, M_bind. by rewrite Hm. Qed.

Lemma exec_for_each {A} (l : list A) (body : A -> M unit) :
  (forall x, total (body x)) ->
  forall w, exec (for_each l body) w = fold_left (fun w x => exec (body x) w) l w.
Proof.
  intros Hb. induction l as [|x l IH]; intros w; simpl; [done|].
  by rewrite exec_seq, IH.
Qed.

End Totality.

Ltac total_step :=
  lazymatch goal with
  | |- total (mbind _ _) => apply total_bind; [|intros ?]
  | |- total (fmap _ _) => apply total_fmap
  | |- total (for_each _ _) => apply total_for_each; intros ?
  | |- total (mret _) => apply total_ret
  | |- total (if ?c then _ else _) => destruct c
  | |- total (match ?x with _ => _ end) => destruct x
  | |- total _ => intros ?; eexists; reflexivity
  end.
Ltac script_total := script_unfold; repeat total_step.

(** ** The loaded page *)

Section Load.

Variable e : env.

(** Motion effects are on: no reduced-motion preference, no touch input. *)
Definition tilt_enabled : bool := negb (prefersReduced e) && negb (isTouch e).
Definition cursor_enabled : bool :=
  has_cursor e && negb (isTouch e) && negb (prefersReduced e).

Definition anchor_listeners : list (node * event_type * handler) :=
  flat_map (fun a => [(a, Click, OnAnchorClick a)]) (anchor_els e).
Definition tilt_listeners : list (node * event_type * handler) :=
  flat_map (fun el => [(el, MouseMove, OnTiltMove el); (el, MouseLeave, OnTiltLeave el)])
    (tilt_els e).
Definition cursor_listeners : list (node * event_type * handler) :=
  [(Document, MouseMove, OnCursorMove)]
  ++ flat_map (fun n => [(n, PointerEnter, OnCursorEnter); (n, PointerLeave, OnCursorLeave)])
       (interactive_els e)
  ++ flat_map (fun i => [(i, FocusEvent, OnInputFocus); (i, BlurEvent, OnInputBlur)])
       (input_els e)
  ++ [(Window, BlurEvent, OnWindowBlur)].

(** The script is a straight sequence of total statements. *)
Lemma load_eq :
  load e =
  exec (reveal_above_fold e)
    (exec (addEventListener Document KeyDown OnKeyDown)
    (exec (addEventListener ResetBtn Click OnResetClick)
    (exec (addEventListener ContactForm SubmitEvent OnFormSubmit)
    (exec (cursor_init e)
    (exec (tilt_init e)
    (exec (reveal_init e)
    (exec (for_each (anchor_els e) (fun a => addEventListener a Click (OnAnchorClick a)))
    (exec (addEventListener MobileNavToggle Click OnNavClick)
    (exec (addEventListener ThemeToggle Click OnThemeClick)
    (exec theme_init
    (exec (set_prop YearEl TextContent (VStr (full_year e))) (fresh e)))))))))))).
Proof.
  unfold load. rewrite handle_total by script_total. unfold main.
  repeat (rewrite exec_seq by script_total). done.
Qed.

Lemma listeners_for_each {A} (l : list A) (body : A -> M unit)
    (g : A -> list (node * event_type * handler)) :
  (forall x, total (body x)) ->
  (forall x w, listeners (exec (body x) w) = listeners w ++ g x) ->
  forall w, listeners (exec (for_each l body) w) = listeners w ++ flat_map g l.
Proof.
  intros Ht Hb. induction l as [|x l IH]; intros w; simpl.
  - by rewrite app_nil_r.
  - rewrite exec_seq, IH, Hb, <- app_assoc; done.
Qed.

Lemma listeners_tilt_init w :
  listeners (exec (tilt_init e) w)
  = listeners w ++ (if tilt_enabled then tilt_listeners else []).
Proof.
  unfold tilt_init, tilt_enabled.
  destruct (negb (prefersReduced e) && negb (isTouch e)); [|by rewrite app_nil_r].
  apply listeners_for_each; [intros x; script_total|].
  intros x w'. unfold attachTilt. rewrite exec_seq by script_total.
  simpl. by rewrite <- app_assoc.
Qed.

Lemma listeners_cursor_init w :
  listeners (exec (cursor_init e) w)
  = listeners w ++ (if cursor_enabled then cursor_listeners else []).
Proof.
  unfold cursor_init, cursor_enabled.
  destruct (has_cursor e && negb (isTouch e) && negb (prefersReduced e)).
  - repeat (rewrite exec_seq by script_total).
    change (listeners (exec (addEventListener ?t ?y ?h) ?w'))
      with (listeners w' ++ [(t, y, h)]).
    rewrite (preserves_exec listeners startRingPulse) by script_frame.
    rewrite (listeners_for_each (input_els e) _
               (fun i => [(i, FocusEvent, OnInputFocus); (i, BlurEvent, OnInputBlur)])).
    + rewrite (listeners_for_each (interactive_els e) _
               (fun n => [(n, PointerEnter, OnCursorEnter); (n, PointerLeave, OnCursorLeave)])).
      * change (listeners (exec (addEventListener ?t ?y ?h) ?w'))
          with (listeners w' ++ [(t, y, h)]).
        unfold cursor_listeners. by rewrite <- !app_assoc.
      * intros x. script_total.
      * intros x w'. rewrite exec_seq by script_total. simpl. by rewrite <- app_assoc.
    + intros x. script_total.
    + intros x w'. rewrite exec_seq by script_total. simpl. by rewrite <- app_assoc.
  - destruct (has_cursor e); by rewrite app_nil_r.
Qed.

(** The listener table after start-up, in registration order. *)
Lemma listeners_load :
  listeners (load e)
  = [(ThemeToggle, Click, OnThemeClick); (MobileNavToggle, Click, OnNavClick)]
    ++ anchor_listeners
    ++ (if tilt_enabled then tilt_listeners else [])
    ++ (if cursor_enabled then cursor_listeners else [])
    ++ [(ContactForm, SubmitEvent, OnFormSubmit); (ResetBtn, Click, OnResetClick);
        (Document, KeyDown, OnKeyDown)].
Proof.
  rewrite load_eq.
  rewrite (preserves_exec listeners (reveal_above_fold e)) by script_frame.
  change (listeners (exec (addEventListener ?t ?y ?h) ?w'))
    with (listeners w' ++ [(t, y, h)]).
  change (listeners (exec (addEventListener ?t ?y ?h) ?w'))
    with (listeners w' ++ [(t, y, h)]).
  change (listeners (exec (addEventListener ?t ?y ?h) ?w'))
    with (listeners w' ++ [(t, y, h)]).
  rewrite listeners_cursor_init, listeners_tilt_init.
  rewrite (preserves_exec listeners (reveal_init e)) by script_frame.
  rewrite (listeners_for_each (anchor_els e) _ (fun a => [(a, Click, OnAnchorClick a)]));
    [|intros x; script_total|done].
  change (listeners (exec (addEventListener ?t ?y ?h) ?w'))
    with (listeners w' ++ [(t, y, h)]).
  change (listeners (exec (addEventListener ?t ?y ?h) ?w'))
    with (listeners w' ++ [(t, y, h)]).
  rewrite (preserves_exec listeners theme_init) by script_frame.
  simpl. rewrite <- !app_assoc. done.
Qed.

End Load.

(** ** Registration counts *)

Section Registrations.

Lemma filter_none {L} (P : L -> Prop) `{forall y, Decision (P y)} (l : list L) :
  Forall (fun y => ~ P y) l -> filter P l = [].
Proof.
  induction 1 as [|y l Hy _ IH]; [done|].
  rewrite filter_cons. by destruct (decide (P y)).
Qed.

Lemma filter_all {L} (P : L -> Prop) `{forall y, Decision (P y)} (l : list L) :
  Forall P l -> filter P l = l.
Proof.
  induction 1 as [|y l Hy _ IH]; [done|].
  rewrite filter_cons. destruct (decide (P y)); [by rewrite IH|done].
Qed.

Lemma filter_comm {L} (P Q : L -> Prop) `{forall y, Decision (P y)} `{forall y, Decision (Q y)}
    (l : list L) :
  filter P (filter Q l) = filter Q (filter P l).
Proof. rewrite !list_filter_filter. apply list_filter_iff. intros y. tauto. Qed.

Lemma Forall_flat_map {A L} (Q : L -> Prop) (g : A -> list L) (l : list A) :
  (forall x, Forall Q (g x)) -> Forall Q (flat_map g l).
Proof.
  intros Hg. induction l as [|x l IH]; simpl; [constructor|].
  apply Forall_app. auto.
Qed.

Variable e : env.

Ltac drop_foreign :=
  repeat rewrite filter_app;
  repeat (rewrite (filter_none _ (flat_map _ _))
            by (apply Forall_flat_map; intros ?; repeat constructor; congruence)).

Ltac count_listeners :=
  unfold registrations; rewrite listeners_load;
  unfold anchor_listeners, tilt_listeners, cursor_listeners;
  drop_foreign;
  destruct (tilt_enabled e), (cursor_enabled e); drop_foreign; reflexivity.

Lemma form_registered_once :
  registrations ContactForm SubmitEvent OnFormSubmit (load e) = 1%nat.
Proof. count_listeners. Qed.

Lemma theme_registered_once :
  registrations ThemeToggle Click OnThemeClick (load e) = 1%nat.
Proof. count_listeners. Qed.

Lemma blur_registered :
  registrations Window BlurEvent OnWindowBlur (load e)
  = if cursor_enabled e then 1%nat else 0%nat.
Proof. count_listeners. Qed.

Lemma registrations_reachable w target ty h :
  reachable e w -> registrations target ty h w = registrations target ty h (load e).
Proof. intros [evs ->]. unfold registrations. by rewrite listeners_run. Qed.

End Registrations.

(** ** The submit handler, case by case *)

Section SubmitHandler.

(** The state a rejected attempt leaves: feedback shown, control focused. *)
Definition rejected (msg : jsstring) (f : node) (w : world) : world :=
  set_activeElement (Some f)
    (set_props (<[(FormFeedback, TextContent) := VStr msg]> (props w))
       (set_defaultPrevented true w)).

(** The state an accepted attempt leaves: feedback cleared, button
    disabled and relabelled, deferred step scheduled 900 ms ahead. *)
Definition accepted (name email message : jsstring) (w : world) : world :=
  set_next_timer_id (next_timer_id w + 1)
    (set_timers
       (timers w ++ [Timer (next_timer_id w) (now w + 900) None
                       (SubmitDone name email message)])
       (set_props
          (<[(SubmitBtn, TextContent) := VStr (lit "Sending...")]>
             (<[(SubmitBtn, Disabled) := VBool true]>
                (<[(FormFeedback, TextContent) := VStr []]> (props w))))
          (set_defaultPrevented true w))).

Definition submit_result (w : world) : world :=
  let name := field_value w FieldName in
  let email := field_value w FieldEmail in
  let message := field_value w FieldMessage in
  if str_length name <? 2 then rejected msg_name FieldName w
  else if negb (test_anchored email_pattern email) then rejected msg_email FieldEmail w
  else if str_length message <? 10 then rejected msg_message FieldMessage w
  else accepted name email message w.

Lemma str_prop_insert_ne w n p v n' p' :
  (n, p) <> (n', p') ->
  str_prop (set_props (<[(n, p) := v]> (props w)) w) n' p' = str_prop w n' p'.
Proof. intros H. unfold str_prop. simpl. by rewrite lookup_insert_ne. Qed.

Lemma str_prop_insert_eq w ps n p s :
  str_prop (set_props (<[(n, p) := VStr s]> ps) w) n p = s.
Proof. unfold str_prop. simpl. by rewrite lookup_insert_eq. Qed.

Lemma on_submit_result w : exec on_submit w = submit_result w.
Proof.
  unfold exec, on_submit, submit_result, field_value.
  unfold mbind, M_bind, fmap, M_fmap, preventDefault, set_prop, get_str, gets, modify.
  simpl.
  rewrite !(str_prop_insert_ne (set_defaultPrevented true w)) by done.
  change (str_prop (set_defaultPrevented true w)) with (str_prop w).
  destruct (str_length (trim (str_prop w FieldName Value)) <? 2).
  { unfold rejected. simpl. by rewrite insert_insert_eq. }
  destruct (negb (test_anchored email_pattern (trim (str_prop w FieldEmail Value)))).
  { unfold rejected. simpl. by rewrite insert_insert_eq. }
  destruct (str_length (trim (str_prop w FieldMessage Value)) <? 10).
  { unfold rejected. simpl. by rewrite insert_insert_eq. }
  reflexivity.
Qed.

(** In every state of the loaded page, a submit event runs the handler
    exactly once. *)
Lemma step_submit e w : reachable e w -> step w Submit = submit_result w.
Proof.
  intros Hw. simpl. unfold fire.
  replace (registrations ContactForm SubmitEvent OnFormSubmit (set_defaultPrevented false w))
    with 1%nat.
  - simpl. rewrite handle_total by script_total. by rewrite on_submit_result.
  - change (registrations ?t ?y ?h (set_defaultPrevented false w))
      with (registrations t y h w).
    by rewrite (registrations_reachable e), form_registered_once.
Qed.

End SubmitHandler.

Example submit_short_name :
  let w := run (load (Env false false true [] [] [] [] [] (fun _ => lit_0) lit_0 [] ∅ ∅ []))
             [Input FieldName (lit " J "); Input FieldEmail (lit "jane@example.com");
              Input FieldMessage (lit "I would like a quote for a new site"); Submit] in
  str_prop w FormFeedback TextContent = msg_name /\ activeElement w = Some FieldName.
Proof. vm_compute. done. Qed.

(** ** Timers *)

Section Timers.

Definition reschedule (t : Z) (ts : list timer) : list timer :=
  flat_map (fun x => if is_due t x then after_firing x else [x]) ts.

Definition fire_all (due : list timer) (w : world) : world :=
  fold_left (fun w x => handle (run_task (timer_task x)) w) due w.

Lemma tick_unfold w :
  tick w = fire_all (filter (fun x => is_due (now w + 1) x = true) (timers w))
             (set_now (now w + 1) (set_timers (reschedule (now w + 1) (timers w)) w)).
Proof. done. Qed.

Lemma tick_timers w : timers (tick w) = reschedule (now w + 1) (timers w).
Proof.
  rewrite tick_unfold. unfold fire_all.
  by rewrite tasks_preserve; [|apply task_preserves_timers|].
Qed.

Lemma tick_now w : now (tick w) = (now w + 1)%Z.
Proof.
  rewrite tick_unfold. unfold fire_all.
  by rewrite tasks_preserve; [|apply task_preserves_now|].
Qed.

Lemma reschedule_app t ts1 ts2 :
  reschedule t (ts1 ++ ts2) = reschedule t ts1 ++ reschedule t ts2.
Proof. unfold reschedule. by rewrite flat_map_app. Qed.

(** A timer at the end of the table that is not yet due stays there. *)
Lemma ticks_pending k : forall w ts x,
  timers w = ts ++ [x] -> (now w + Z.of_nat k < timer_due x)%Z ->
  exists ts', timers (run w (repeat Tick k)) = ts' ++ [x]
              /\ now (run w (repeat Tick k)) = (now w + Z.of_nat k)%Z.
Proof.
  induction k as [|k IH]; intros w ts x Hts Hdue.
  - exists ts. simpl. split; [done|lia].
  - simpl. fold (run (tick w) (repeat Tick k)).
    destruct (IH (tick w) (reschedule (now w + 1) ts) x) as (ts' & Hts' & Hnow).
    + rewrite tick_timers, Hts, reschedule_app. f_equal.
      unfold reschedule. simpl. unfold is_due.
      destruct (Z.leb_spec (timer_due x) (now w + 1)); [lia|done].
    + rewrite tick_now. lia.
    + exists ts'. split; [done|]. rewrite Hnow, tick_now. lia.
Qed.

(** When the last timer of the table is a timeout that falls due, its
    callback is the last thing the tick runs. *)
Lemma tick_fires_last w ts x :
  timers w = ts ++ [x] -> timer_due x = (now w + 1)%Z ->
  exists w', tick w = handle (run_task (timer_task x)) w'.
Proof.
  intros Hts Hdue. rewrite tick_unfold, Hts, filter_app.
  rewrite (filter_cons _ x), filter_nil.
  destruct (decide (is_due (now w + 1) x = true)) as [_|Hn].
  - unfold fire_all. rewrite fold_left_app. simpl. eauto.
  - exfalso. apply Hn. unfold is_due. apply Z.leb_le. lia.
Qed.

End Timers.

(** ** The deferred step of the form *)

Section SubmitDone.

(** The link the deferred step navigates to, given the escapes of the
    three fields. *)
Definition mailto_link (name' email' message' : jsstring) : jsstring :=
  lit "mailto:hello@aurora.example?subject="
  ++ (lit "Website%20inquiry%20from%20" ++ name')
  ++ lit "&body="
  ++ (lit "Name%3A%20" ++ name' ++ lit "%0AEmail%3A%20" ++ email'
      ++ lit "%0A%0A" ++ message').

Definition submit_done_props (ps : gmap (node * prop) value) : gmap (node * prop) value :=
  <[(FormFeedback, TextContent) := VStr msg_success]>
    (<[(SubmitBtn, TextContent) := VStr (lit "Send message")]>
       (<[(SubmitBtn, Disabled) := VBool false]> ps)).

Lemma encode_subject name name' :
  encodeURIComponent name = Ok name' ->
  encodeURIComponent (lit "Website inquiry from " ++ name)
  = Ok (lit "Website%20inquiry%20from%20" ++ name').
Proof. intros H. by apply encode_app. Qed.

Lemma encode_body name email message name' email' message' :
  encodeURIComponent name = Ok name' ->
  encodeURIComponent email = Ok email' ->
  encodeURIComponent message = Ok message' ->
  encodeURIComponent (lit "Name: " ++ name ++ [0xA] ++ lit "Email: " ++ email
                      ++ [0xA; 0xA] ++ message)
  = Ok (lit "Name%3A%20" ++ name' ++ lit "%0AEmail%3A%20" ++ email'
        ++ lit "%0A%0A" ++ message').
Proof.
  intros Hn He Hm.
  apply encode_app; [done|]. apply encode_app; [done|].
  change ([0xA] ++ lit "Email: " ++ email ++ [0xA; 0xA] ++ message)
    with (([0xA] ++ lit "Email: ") ++ email ++ [0xA; 0xA] ++ message).
  apply (encode_app _ (lit "%0AEmail%3A%20")); [done|].
  apply encode_app; [done|]. by apply (encode_app _ (lit "%0A%0A")).
Qed.

(** With well-formed fields the deferred step runs to its end. *)
Lemma submit_done_ok name email message name' email' message' w :
  encodeURIComponent name = Ok name' ->
  encodeURIComponent email = Ok email' ->
  encodeURIComponent message = Ok message' ->
  handle (submit_done name email message) w
  = set_location_href (mailto_link name' email' message')
      (set_props (submit_done_props (props w)) w).
Proof.
  intros Hn He Hm.
  cbv [handle submit_done mbind M_bind set_prop modify lift navigate].
  rewrite (encode_subject _ _ Hn). rewrite (encode_body _ _ _ _ _ _ Hn He Hm).
  reflexivity.
Qed.

(** If the name cannot be encoded, the step stops after showing the
    success message: the exception is reported and nothing navigates. *)
Lemma submit_done_throws name email message w :
  well_formed name = false ->
  handle (submit_done name email message) w
  = set_uncaught (uncaught w ++ [URIError]) (set_props (submit_done_props (props w)) w).
Proof.
  intros Hn.
  cbv [handle submit_done mbind M_bind set_prop modify lift navigate].
  destruct (encodeURIComponent (lit "Website inquiry from " ++ name)) as [r|[]] eqn:E;
    [|reflexivity].
  exfalso.
  assert (well_formed (lit "Website inquiry from " ++ name) = true) as Hw
    by (apply encode_well_formed; eauto).
  vm_compute in Hw. change (well_formed name = true) in Hw. congruence.
Qed.

End SubmitDone.

(** ** Facts about class lists *)

Section TokenListFacts.

Import TokenList.

Definition no_whitespace (t : jsstring) : Prop :=
  Forall (fun c => is_ascii_whitespace c = false) t.

Lemma split_token t : forall rest cur,
  no_whitespace t ->
  split_on_whitespace (t ++ rest) cur = split_on_whitespace rest (cur ++ t).
Proof.
  induction t as [|c t IH]; intros rest cur Ht; simpl.
  - by rewrite app_nil_r.
  - apply Forall_cons in Ht as [Hc Ht]. rewrite Hc, IH by done.
    by rewrite <- app_assoc.
Qed.

(** Splitting yields tokens only. *)
Lemma split_valid s : forall cur,
  no_whitespace cur -> Forall valid_token (split_on_whitespace s cur).
Proof.
  induction s as [|c s IH]; intros cur Hcur; simpl.
  - destruct cur; [constructor|]. constructor; [by split|constructor].
  - destruct (is_ascii_whitespace c) eqn:Hc.
    + destruct cur; [by apply IH|].
      constructor; [by split|]. apply IH. constructor.
    + apply IH. apply Forall_app. split; [done|]. by repeat constructor.
Qed.

Lemma set_append_elem (ts : list jsstring) t u :
  u ∈ set_append ts t <-> u ∈ ts \/ u = t.
Proof.
  unfold set_append. destruct (decide (t ∈ ts)).
  - split; [auto|]. intros [?| ->]; done.
  - rewrite elem_of_app, list_elem_of_singleton. done.
Qed.

Lemma set_append_NoDup (ts : list jsstring) t : NoDup ts -> NoDup (set_append ts t).
Proof.
  intros Hts. unfold set_append. destruct (decide (t ∈ ts)); [done|].
  apply NoDup_app. split; [done|]. split; [|apply NoDup_singleton].
  intros u Hu ->%list_elem_of_singleton. done.
Qed.

Lemma set_remove_elem (ts : list jsstring) t u :
  u ∈ set_remove ts t <-> u ∈ ts /\ u <> t.
Proof. unfold set_remove. rewrite list_elem_of_filter. tauto. Qed.

Lemma set_remove_NoDup (ts : list jsstring) t : NoDup ts -> NoDup (set_remove ts t).
Proof. apply NoDup_filter. Qed.

Lemma fold_set_append (ts : list jsstring) : forall acc,
  NoDup acc ->
  NoDup (fold_left set_append ts acc)
  /\ forall u, u ∈ fold_left set_append ts acc <-> u ∈ acc \/ u ∈ ts.
Proof.
  induction ts as [|t ts IH]; intros acc Hacc; simpl.
  - split; [done|]. intros u. rewrite elem_of_nil. tauto.
  - destruct (IH (set_append acc t) (set_append_NoDup _ _ Hacc)) as [Hnd Hin].
    split; [done|]. intros u. rewrite Hin, set_append_elem, elem_of_cons. tauto.
Qed.

Lemma fold_set_append_NoDup (ts : list jsstring) : forall acc,
  NoDup (acc ++ ts) -> fold_left set_append ts acc = acc ++ ts.
Proof.
  induction ts as [|t ts IH]; intros acc Hnd; simpl.
  - by rewrite app_nil_r.
  - assert (t ∉ acc) as Ht.
    { apply NoDup_app in Hnd as (_ & Hd & _). intros Hin. apply (Hd t Hin). by left. }
    unfold set_append at 2. destruct (decide (t ∈ acc)); [done|].
    rewrite IH; rewrite <- app_assoc; done.
Qed.

(** The parser returns an ordered set of tokens. *)
Lemma parse_NoDup attr : NoDup (parse attr).
Proof. apply fold_set_append. constructor. Qed.

Lemma parse_valid attr : Forall valid_token (parse attr).
Proof.
  apply Forall_forall. intros u Hu.
  apply (fold_set_append _ [] (NoDup_nil_2)) in Hu as [Hu|Hu]; [by apply elem_of_nil in Hu|].
  revert u Hu. apply Forall_forall. apply split_valid. constructor.
Qed.

Lemma split_serialize ts :
  Forall valid_token ts -> split_on_whitespace (serialize ts) [] = ts.
Proof.
  induction 1 as [|t ts [Hne Hws] _ IH]; [done|].
  destruct ts as [|t' ts].
  - simpl. rewrite <- (app_nil_r t) at 1. rewrite split_token by done.
    simpl. by destruct t.
  - change (serialize (t :: t' :: ts)) with (t ++ 0x20 :: serialize (t' :: ts)).
    rewrite split_token by done.
    remember (serialize (t' :: ts)) as r eqn:Er. simpl. rewrite IH. by destruct t.
Qed.

(** Parsing what the serializer wrote gives the set back. *)
Lemma parse_serialize ts :
  Forall valid_token ts -> NoDup ts -> parse (serialize ts) = ts.
Proof.
  intros Hv Hnd. unfold parse. rewrite split_serialize by done.
  by apply fold_set_append_NoDup.
Qed.

Lemma valid_token_lit_theme_dark : valid_token theme_dark.
Proof. split; [done|]. by repeat constructor. Qed.
Lemma valid_token_lit_theme_light : valid_token theme_light.
Proof. split; [done|]. by repeat constructor. Qed.
Lemma valid_token_lit_revealed : valid_token revealed.
Proof. split; [done|]. by repeat constructor. Qed.

(** The token set after each [classList] operation. *)
Lemma parse_add attr t :
  valid_token t -> parse (add attr t) = set_append (parse attr) t.
Proof.
  intros Ht. unfold add. apply parse_serialize.
  - unfold set_append. destruct (decide (t ∈ parse attr)); [apply parse_valid|].
    apply Forall_app. split; [apply parse_valid|]. constructor; [done|constructor].
  - apply set_append_NoDup, parse_NoDup.
Qed.

Lemma parse_remove attr t : parse (remove attr t) = set_remove (parse attr) t.
Proof.
  unfold remove. apply parse_serialize.
  - apply Forall_forall. intros u [Hu _]%set_remove_elem.
    revert u Hu. apply Forall_forall, parse_valid.
  - apply set_remove_NoDup, parse_NoDup.
Qed.

Lemma parse_toggle attr t :
  valid_token t ->
  parse (toggle attr t).2
  = if (toggle attr t).1 then parse attr ++ [t] else set_remove (parse attr) t.
Proof.
  intros Ht. unfold toggle, contains.
  destruct (bool_decide_reflect (t ∈ parse attr)) as [Hin|Hin]; simpl.
  - apply parse_remove.
  - apply parse_serialize.
    + apply Forall_app. split; [apply parse_valid|]. constructor; [done|constructor].
    + apply NoDup_app. split; [apply parse_NoDup|]. split; [|apply NoDup_singleton].
      intros u Hu ->%list_elem_of_singleton. done.
Qed.

Lemma toggle_fst attr t : (toggle attr t).1 = negb (contains attr t).
Proof. unfold toggle. by destruct (contains attr t). Qed.

Lemma contains_elem attr t : contains attr t = true <-> t ∈ parse attr.
Proof. apply bool_decide_eq_true. Qed.

Lemma contains_add attr t u :
  valid_token t -> contains (add attr t) u = true <-> contains attr u = true \/ u = t.
Proof.
  intros Ht. rewrite !contains_elem, parse_add by done. apply set_append_elem.
Qed.

Lemma contains_add_other attr t u :
  valid_token t -> u <> t -> contains (add attr t) u = contains attr u.
Proof.
  intros Ht Hne. apply eq_true_iff_eq. rewrite contains_add by done. tauto.
Qed.

Lemma contains_remove attr t u :
  contains (remove attr t) u = true <-> contains attr u = true /\ u <> t.
Proof. rewrite !contains_elem, parse_remove. apply set_remove_elem. Qed.

Lemma contains_remove_other attr t u :
  u <> t -> contains (remove attr t) u = contains attr u.
Proof. intros Hne. apply eq_true_iff_eq. rewrite contains_remove. tauto. Qed.

Lemma contains_toggle attr t u :
  valid_token t ->
  contains (toggle attr t).2 u = true
  <-> if bool_decide (u = t) then contains attr t = false else contains attr u = true.
Proof.
  intros Ht. rewrite contains_elem, parse_toggle, toggle_fst by done.
  destruct (contains attr t) eqn:Hc; simpl.
  - rewrite set_remove_elem, <- contains_elem.
    destruct (bool_decide_reflect (u = t)) as [->|Hne]; [|tauto].
    split; [tauto|discriminate].
  - rewrite elem_of_app, list_elem_of_singleton, <- contains_elem.
    destruct (bool_decide_reflect (u = t)) as [->|Hne]; tauto.
Qed.

Lemma contains_toggle_other attr t u :
  valid_token t -> u <> t -> contains (toggle attr t).2 u = contains attr u.
Proof.
  intros Ht Hne. apply eq_true_iff_eq. rewrite contains_toggle by done.
  by rewrite bool_decide_eq_false_2.
Qed.

End TokenListFacts.

(** ** Invariants of programs

    [stable P m]: [m] keeps [P] true, whether it returns or throws. *)

Section Stability.

Context (P : world -> Prop).

Definition stable {A} (m : M A) : Prop := forall w, P w -> P (snd (m w)).

Lemma stable_ret {A} (a : A) : stable (mret a).
Proof. by intros w. Qed.

Lemma stable_bind {A C} (m : M A) (k : A -> M C) :
  stable m -> (forall a, stable (k a)) -> stable (m ≫= k).
Proof.
  intros Hm Hk w Hw. unfold mbind, M_bind. specialize (Hm w Hw).
  destruct (m w) as [[a|err] w']; simpl in *; [|done]. by apply Hk.
Qed.

Lemma stable_for_each {A} (l : list A) (body : A -> M unit) :
  (forall x, x ∈ l -> stable (body x)) -> stable (for_each l body).
Proof.
  induction l as [|x l IH]; intros Hb; simpl.
  - apply stable_ret.
  - apply stable_bind.
    + apply Hb. by left.
    + intros _. apply IH. intros y Hy. apply Hb. by right.
Qed.

Lemma stable_exec {A} (m : M A) w : stable m -> P w -> P (exec m w).
Proof. intros Hm. apply Hm. Qed.

Lemma stable_handle (m : M unit) w :
  stable m -> (forall x w', P w' -> P (set_uncaught x w')) -> P w -> P (handle m w).
Proof.
  intros Hm Hu Hw. unfold handle. specialize (Hm w Hw).
  destruct (m w) as [[a|err] w']; simpl in *; [done|]. by apply Hu.
Qed.

Lemma preserves_stable {A B} (f : world -> B) (m : M A) :
  (forall w w', f w = f w' -> P w -> P w') -> preserves f m -> stable m.
Proof. intros Hf Hm w Hw. apply (Hf w); [|done]. symmetry. apply Hm. Qed.

End Stability.

(** ** Facts about the theme controller *)

Section Theme.

Import TokenList.

(** The body's [class] attribute. *)
Definition body_class (w : world) : jsstring := str_prop w Body ClassName.

(** The attribute after one click on the toggle. *)
Definition toggled_class (cls : jsstring) : jsstring :=
  if (toggle cls theme_dark).1
  then remove (toggle cls theme_dark).2 theme_light
  else add (toggle cls theme_dark).2 theme_light.

Lemma theme_click_exec w :
  let isDark := (toggle (body_class w) theme_dark).1 in
  exec on_theme_click w
  = set_localStorage
      (<[site_theme := if isDark then theme_dark else theme_light]> (localStorage w))
      (set_props
         (<[(ThemeToggle, TextContent) := VStr (if isDark then glyph_sun else glyph_moon)]>
            (<[(ThemeToggle, AriaPressed) := VStr (string_of_bool isDark)]>
               (<[(Body, ClassName) := VStr (toggled_class (body_class w))]> (props w))))
         w).
Proof.
  unfold exec, on_theme_click, classList_toggle, classList_add, classList_remove,
    toggled_class, body_class.
  cbv [mbind M_bind get_str gets set_prop modify mret M_ret localStorage_setItem].
  destruct (toggle (str_prop w Body ClassName) theme_dark) as [isDark attr1].
  cbn [fst snd].
  destruct isDark; cbn [negb]; cbv beta iota;
    cbn [props set_props localStorage set_localStorage snd];
    rewrite !str_prop_insert_eq, insert_insert_eq; reflexivity.
Qed.

Lemma theme_click_total : total on_theme_click.
Proof. script_total. Qed.

Lemma step_theme_click e w : reachable e w -> step w ThemeClick = exec on_theme_click w.
Proof.
  intros Hw. simpl. unfold fire.
  rewrite (registrations_reachable e), theme_registered_once by done.
  simpl. by rewrite handle_total by apply theme_click_total.
Qed.

Lemma body_class_theme_click e w :
  reachable e w -> body_class (step w ThemeClick) = toggled_class (body_class w).
Proof.
  intros Hw. rewrite (step_theme_click e w Hw), theme_click_exec.
  unfold body_class at 1, str_prop. cbn [props set_props set_localStorage].
  by rewrite !lookup_insert_ne, lookup_insert_eq by done.
Qed.

Lemma storage_theme_click e w :
  reachable e w ->
  localStorage (step w ThemeClick) !! site_theme
  = Some (if contains (body_class w) theme_dark then theme_light else theme_dark).
Proof.
  intros Hw. rewrite (step_theme_click e w Hw), theme_click_exec.
  cbn [localStorage set_localStorage]. rewrite lookup_insert_eq, toggle_fst.
  by destruct (contains (body_class w) theme_dark).
Qed.

(** Membership in the class set after a click. *)
Lemma toggled_class_dark cls :
  contains (toggled_class cls) theme_dark = negb (contains cls theme_dark).
Proof.
  unfold toggled_class. rewrite toggle_fst.
  destruct (contains cls theme_dark) eqn:Hd; cbn [negb].
  - rewrite contains_add_other by (done || apply valid_token_lit_theme_light).
    apply not_true_is_false. rewrite contains_toggle by apply valid_token_lit_theme_dark.
    rewrite bool_decide_eq_true_2 by done. congruence.
  - rewrite contains_remove_other by done.
    apply contains_toggle; [apply valid_token_lit_theme_dark|].
    by rewrite bool_decide_eq_true_2.
Qed.

Lemma toggled_class_light cls :
  contains (toggled_class cls) theme_light = contains cls theme_dark.
Proof.
  unfold toggled_class. rewrite toggle_fst.
  destruct (contains cls theme_dark) eqn:Hd; cbn [negb].
  - apply contains_add; [apply valid_token_lit_theme_light|]. by right.
  - apply not_true_is_false. rewrite contains_remove. tauto.
Qed.

Lemma toggled_class_other cls u :
  u <> theme_dark -> u <> theme_light ->
  contains (toggled_class cls) u = contains cls u.
Proof.
  intros Hd Hl. unfold toggled_class.
  destruct ((toggle cls theme_dark).1).
  - rewrite contains_remove_other by done.
    by apply contains_toggle_other; [apply valid_token_lit_theme_dark|].
  - rewrite contains_add_other by (done || apply valid_token_lit_theme_light).
    by apply contains_toggle_other; [apply valid_token_lit_theme_dark|].
Qed.

(** A click keeps the other classes in their order. *)
Lemma toggled_class_order cls :
  filter (fun u => u <> theme_dark /\ u <> theme_light) (parse (toggled_class cls))
  = filter (fun u => u <> theme_dark /\ u <> theme_light) (parse cls).
Proof.
  unfold toggled_class.
  assert (Hrm : forall (ts : list jsstring) t,
    (t = theme_dark \/ t = theme_light) ->
    filter (fun u => u <> theme_dark /\ u <> theme_light) (set_remove ts t)
    = filter (fun u => u <> theme_dark /\ u <> theme_light) ts).
  { intros ts t Ht. unfold set_remove. rewrite list_filter_filter.
    apply list_filter_iff. intros u. destruct Ht as [-> | ->]; tauto. }
  assert (Hap : forall (ts : list jsstring) t,
    (t = theme_dark \/ t = theme_light) ->
    filter (fun u => u <> theme_dark /\ u <> theme_light) (ts ++ [t])
    = filter (fun u => u <> theme_dark /\ u <> theme_light) ts).
  { intros ts t Ht. rewrite filter_app, filter_cons, filter_nil.
    destruct (decide (t <> theme_dark /\ t <> theme_light)) as [[??]|_];
      [destruct Ht; done|by rewrite app_nil_r]. }
  pose proof (parse_toggle cls theme_dark valid_token_lit_theme_dark) as Ht.
  destruct ((toggle cls theme_dark).1).
  - rewrite parse_remove, Hrm, Ht, Hap by auto. done.
  - rewrite parse_add by apply valid_token_lit_theme_light.
    unfold set_append. destruct (decide (theme_light ∈ _)).
    + rewrite Ht, Hrm by auto. done.
    + rewrite Hap, Ht, Hrm by auto. done.
Qed.

End Theme.

(** ** Properties and classes across the script *)

Section PropsFrames.

Import TokenList.

Lemma reachable_load e : reachable e (load e).
Proof. by exists []. Qed.

Lemma reachable_step e w ev : reachable e w -> reachable e (step w ev).
Proof.
  intros [evs ->]. exists (evs ++ [ev]). unfold run. by rewrite fold_left_app.
Qed.

Lemma reachable_run e w evs : reachable e w -> reachable e (run w evs).
Proof.
  revert w. induction evs as [|ev evs IH]; intros w Hw; [done|].
  simpl. apply IH. by apply reachable_step.
Qed.

(** Writing one property leaves the others. *)
Lemma set_prop_other n p v k :
  k <> (n, p) -> preserves (fun w => props w !! k) (set_prop n p v).
Proof. intros Hk w. simpl. by rewrite lookup_insert_ne. Qed.

Lemma classList_add_other el t k :
  k <> (el, ClassName) -> preserves (fun w => props w !! k) (classList_add el t).
Proof. intros Hk w. simpl. by rewrite lookup_insert_ne. Qed.

Lemma str_prop_preserved {A} (m : M A) n p w :
  preserves (fun w => props w !! (n, p)) m -> str_prop (snd (m w)) n p = str_prop w n p.
Proof. intros Hm. unfold str_prop. by rewrite (Hm w). Qed.

(** A class, once on an element, survives every write that is not a
    removal of that class. *)
Definition has_class (n : node) (u : jsstring) (w : world) : Prop :=
  contains (str_prop w n ClassName) u = true.

Lemma has_class_set_prop n u n' p v :
  p <> ClassName -> stable (has_class n u) (set_prop n' p v).
Proof.
  intros Hp w Hw. unfold has_class in *.
  rewrite (str_prop_preserved (set_prop n' p v)); [done|].
  apply set_prop_other. congruence.
Qed.

Lemma has_class_add n u el t :
  valid_token t -> stable (has_class n u) (classList_add el t).
Proof.
  intros Ht w Hw. unfold has_class in *. destruct (decide (el = n)) as [->|Hne].
  - simpl. rewrite str_prop_insert_eq. apply contains_add; auto.
  - rewrite (str_prop_preserved (classList_add el t)); [done|].
    apply classList_add_other. congruence.
Qed.

Lemma has_class_remove n u el t :
  u <> t -> stable (has_class n u) (classList_remove el t).
Proof.
  intros Hu w Hw. unfold has_class in *. destruct (decide (el = n)) as [->|Hne].
  - simpl. rewrite str_prop_insert_eq. by rewrite contains_remove_other.
  - unfold str_prop in *. simpl. rewrite lookup_insert_ne by congruence. done.
Qed.

Lemma has_class_toggle n u el t :
  valid_token t -> u <> t -> stable (has_class n u) (classList_toggle el t).
Proof.
  intros Ht Hu w Hw. unfold has_class in *. unfold classList_toggle.
  cbv [mbind M_bind get_str gets set_prop modify mret M_ret].
  pose proof (contains_toggle_other (str_prop w el ClassName) t u Ht Hu) as Hc.
  destruct (toggle (str_prop w el ClassName) t) as [present attr']. cbn [snd] in *.
  destruct (decide (el = n)) as [->|Hne].
  - unfold str_prop at 1. cbn [props set_props]. rewrite lookup_insert_eq. congruence.
  - unfold str_prop in *. cbn [props set_props]. rewrite lookup_insert_ne by congruence. done.
Qed.

Lemma has_class_added el t w :
  valid_token t -> has_class el t (exec (classList_add el t) w).
Proof.
  intros Ht. unfold has_class, exec, classList_add.
  cbv [mbind M_bind get_str gets set_prop modify snd].
  unfold str_prop at 1. cbn [props set_props]. rewrite lookup_insert_eq.
  apply contains_add; auto.
Qed.

End PropsFrames.

(** Decompose a program to show that it keeps a class in place. *)
Ltac has_class_step :=
  lazymatch goal with
  | |- stable _ (mbind _ _) => apply stable_bind; [|intros ?]
  | |- stable _ (for_each _ _) => apply stable_for_each; intros ? ?
  | |- stable _ (mret _) => apply stable_ret
  | |- stable _ (if ?c then _ else _) => destruct c
  | |- stable _ (match ?x with _ => _ end) => destruct x
  | |- stable _ (classList_add _ _) => apply has_class_add; by split; [|repeat constructor]
  | |- stable _ (classList_remove _ _) => apply has_class_remove; done
  | |- stable _ (classList_toggle _ _) =>
      apply has_class_toggle; [by split; [|repeat constructor]|done]
  | |- stable _ (set_prop _ _ _) => apply has_class_set_prop; done
  | |- stable _ _ =>
      first [ by intros ? ?
            | intros ? ?; cbv [observe unobserve clearInterval modify snd];
              repeat case_match; done ]
  end.
Ltac has_class_stable :=
  unfold on_submit, on_theme_click, on_window_blur, reveal_callback, run_task,
    submit_done, ring_pulse, main, theme_init, reveal_init, tilt_init, cursor_init,
    reveal_above_fold, attachTilt, startRingPulse;
  repeat has_class_step.

(** ** The theme at start-up *)

Section ThemeInit.

Import TokenList.

Variable e : env.

(** The state in which the theme block starts. *)
Definition before_theme : world :=
  exec (set_prop YearEl TextContent (VStr (full_year e))) (fresh e).

Lemma theme_init_exec w s :
  localStorage w !! site_theme = Some s -> s <> [] ->
  exec theme_init w
  = set_props
      (<[(ThemeToggle, TextContent) :=
           VStr (if bool_decide (s = theme_dark) then glyph_sun else glyph_moon)]>
         (<[(ThemeToggle, AriaPressed) := VStr (string_of_bool (bool_decide (s = theme_dark)))]>
            (<[(Body, ClassName) := VStr s]> (props w))))
      w.
Proof.
  intros Hs Hne. unfold exec, theme_init.
  cbv [mbind M_bind localStorage_getItem gets]. rewrite Hs.
  destruct s as [|c s]; [done|]. reflexivity.
Qed.

(** Nothing after the theme block writes a property other than the
    classes and delays of the reveal candidates and the display of the
    cursor overlay. *)
Lemma props_after_theme k :
  (forall el, el ∈ reveal_els e -> k <> (el, ClassName) /\ k <> (el, StyleTransitionDelay)) ->
  k <> (Cursor, StyleDisplay) ->
  props (load e) !! k = props (exec theme_init before_theme) !! k.
Proof.
  intros Hk Hc. rewrite load_eq. fold before_theme.
  assert (Hloop1 : preserves (fun w => props w !! k) (reveal_above_fold e)).
  { unfold reveal_above_fold. apply preserves_for_each. intros el Hel.
    destruct (ltb _ _); [|apply preserves_ret].
    apply classList_add_other. by apply Hk. }
  assert (Hloop2 : preserves (fun w => props w !! k) (reveal_init e)).
  { unfold reveal_init. destruct (negb (prefersReduced e)).
    - apply preserves_bind; [by intros ?|intros _].
      apply preserves_for_each. intros el Hel.
      apply preserves_bind; [|intros _; frame].
      apply set_prop_other. by apply Hk.
    - apply preserves_for_each. intros el Hel. apply classList_add_other. by apply Hk. }
  assert (Hcur : preserves (fun w => props w !! k) (cursor_init e)).
  { unfold cursor_init, startRingPulse.
    destruct (has_cursor e && negb (isTouch e) && negb (prefersReduced e)); [frame|].
    destruct (has_cursor e); [by apply set_prop_other|apply preserves_ret]. }
  assert (Htilt : preserves (fun w => props w !! k) (tilt_init e)).
  { unfold tilt_init, attachTilt. frame. }
  etrans; [apply (preserves_exec (fun w => props w !! k) _ _ Hloop1)|].
  change (props (exec (addEventListener ?t ?y ?h) ?w') !! k) with (props w' !! k).
  etrans; [apply (preserves_exec (fun w => props w !! k) _ _ Hcur)|].
  etrans; [apply (preserves_exec (fun w => props w !! k) _ _ Htilt)|].
  etrans; [apply (preserves_exec (fun w => props w !! k) _ _ Hloop2)|].
  etrans; [apply (preserves_exec (fun w => props w !! k)
                    (for_each (anchor_els e) (fun a => addEventListener a Click (OnAnchorClick a))));
           frame|].
  done.
Qed.

Lemma localStorage_load : localStorage (load e) = stored e.
Proof.
  unfold load. rewrite handle_total by script_total.
  apply (preserves_exec localStorage (main e) (fresh e)), main_preserves_localStorage.
Qed.

Lemma localStorage_before_theme : localStorage before_theme = stored e.
Proof. done. Qed.

(** Every block after the theme block keeps a class the body has. *)
Lemma has_class_after_theme u :
  has_class Body u (exec theme_init before_theme) -> has_class Body u (load e).
Proof.
  intros H. rewrite load_eq. fold before_theme.
  do 10 (apply stable_exec; [has_class_stable|]). done.
Qed.

Lemma body_class_load s :
  stored e !! site_theme = Some s -> s <> [] -> Body ∉ reveal_els e ->
  body_class (load e) = s.
Proof.
  intros Hs Hne Hb. unfold body_class, str_prop. rewrite props_after_theme.
  - rewrite (theme_init_exec _ s) by done. cbn [props set_props].
    by rewrite !lookup_insert_ne, lookup_insert_eq by done.
  - intros el Hel. split; intros [= <-]; done.
  - done.
Qed.

End ThemeInit.

(** ** Facts about the reveal trigger *)

Section Reveal.

Import TokenList.

(** A loop establishes what the iteration for [x] establishes, provided
    the other iterations keep it. *)
Lemma for_each_establishes {A} (P : world -> Prop) (l : list A) (body : A -> M unit) x :
  x ∈ l -> (forall w, P (exec (body x) w)) ->
  (forall y, stable P (body y)) -> (forall y, total (body y)) ->
  forall w, P (exec (for_each l body) w).
Proof.
  intros Hx Hest Hst Htot. induction l as [|y l IH]; intros w.
  - by apply elem_of_nil in Hx.
  - simpl. rewrite exec_seq by done. apply elem_of_cons in Hx as [<-|Hx].
    + apply stable_exec; [|done]. by apply stable_for_each.
    + by apply IH.
Qed.

(** The targets of the observer after [observe] was called on each
    element of a list. *)
Definition observe_all (l : list node) (acc : list node) : list node :=
  fold_left (fun ts el => if decide (el ∈ ts) then ts else ts ++ [el]) l acc.

Lemma observe_all_elem l : forall acc el, el ∈ observe_all l acc <-> el ∈ acc \/ el ∈ l.
Proof.
  induction l as [|x l IH]; intros acc el; simpl.
  - rewrite elem_of_nil. tauto.
  - rewrite IH, elem_of_cons. destruct (decide (x ∈ acc)).
    + split; [tauto|]. intros [?|[->|?]]; auto.
    + rewrite elem_of_app, list_elem_of_singleton. tauto.
Qed.

(** An element is not among the observer's targets (or there is no
    observer). *)
Definition unobserved (el : node) (w : world) : Prop :=
  forall ts, observer w = Some ts -> el ∉ ts.

Lemma unobserved_unobserve el x : stable (unobserved el) (unobserve x).
Proof.
  intros w Hw ts. unfold unobserve, modify. simpl.
  destruct (observer w) as [ts0|] eqn:Ho; simpl; [|by rewrite Ho].
  intros [= <-]. rewrite list_elem_of_filter. intros [_ Hin]. by apply (Hw ts0).
Qed.

Lemma unobserved_after_unobserve el w : unobserved el (exec (unobserve el) w).
Proof.
  intros ts. unfold exec, unobserve, modify. simpl.
  destruct (observer w) as [ts0|] eqn:Ho; simpl; [|by rewrite Ho].
  intros [= <-]. rewrite list_elem_of_filter. tauto.
Qed.

Lemma unobserved_preserved {A} (m : M A) el :
  preserves observer m -> stable (unobserved el) m.
Proof. intros Hm w Hw ts. rewrite (Hm w). apply Hw. Qed.

Lemma reveal_callback_total entries : total (reveal_callback entries).
Proof. script_total. Qed.

(** The callback keeps revealed elements revealed and unobserved
    elements unobserved. *)
Lemma reveal_callback_has_class n u entries :
  stable (has_class n u) (reveal_callback entries).
Proof. has_class_stable. Qed.

Lemma reveal_callback_unobserved el entries :
  stable (unobserved el) (reveal_callback entries).
Proof.
  unfold reveal_callback. apply stable_for_each. intros x _.
  destruct (x.2); [|apply stable_ret].
  apply stable_bind; [|intros _; apply unobserved_unobserve].
  apply unobserved_preserved. unfold classList_add. frame.
Qed.

(** An intersecting entry reveals its target and stops its observation. *)
Lemma reveal_callback_reveals el entries w :
  (el, true) ∈ entries ->
  has_class el revealed (exec (reveal_callback entries) w)
  /\ unobserved el (exec (reveal_callback entries) w).
Proof.
  intros Hel. unfold reveal_callback.
  apply (for_each_establishes (fun w => has_class el revealed w /\ unobserved el w)
           entries _ (el, true) Hel).
  - intros w'. cbn [fst snd]. rewrite exec_seq by script_total. split.
    + apply stable_exec; [has_class_stable|].
      apply has_class_added, valid_token_lit_revealed.
    + apply unobserved_after_unobserve.
  - intros y w' [H1 H2]. split.
    + revert w' H1 H2. cbv beta. intros w' H1 _. revert w' H1.
      change (stable (has_class el revealed)
                (if y.2 then classList_add y.1 revealed ;; unobserve y.1 else mret ())).
      has_class_stable.
    + revert w' H1 H2. cbv beta. intros w' _ H2. revert w' H2.
      change (stable (unobserved el)
                (if y.2 then classList_add y.1 revealed ;; unobserve y.1 else mret ())).
      destruct (y.2); [|apply stable_ret].
      apply stable_bind; [|intros _; apply unobserved_unobserve].
      apply unobserved_preserved. unfold classList_add. frame.
  - intros y. destruct (y.2); script_total.
Qed.

End Reveal.

(** ** Invariants of the reactive system *)

Section StepInvariants.

Context (P : world -> Prop).

Hypothesis P_uncaught : forall x w, P w -> P (set_uncaught x w).
Hypothesis P_clock : forall t ts w, P w -> P (set_now t (set_timers ts w)).
Hypothesis P_event : forall b w, P w -> P (set_defaultPrevented b w).
Hypothesis P_theme : stable P on_theme_click.
Hypothesis P_submit : stable P on_submit.
Hypothesis P_blur : stable P on_window_blur.
Hypothesis P_reveal : forall entries, stable P (reveal_callback entries).
Hypothesis P_task : forall t, stable P (run_task t).
Hypothesis P_input : forall field text, stable P (set_prop field Value (VStr text)).

Lemma fire_stable target ty h body w : stable P body -> P w -> P (fire target ty h body w).
Proof.
  intros Hb Hw. unfold fire. generalize (registrations target ty h w) as n.
  induction n as [|n IH]; [done|]. simpl. by apply stable_handle.
Qed.

(** What every callback keeps, every event keeps. *)
Lemma step_stable w ev : P w -> P (step w ev).
Proof.
  intros Hw. destruct ev; simpl.
  - by apply fire_stable.
  - by apply P_input.
  - apply fire_stable; [done|]. by apply P_event.
  - by apply fire_stable.
  - done.
  - unfold deliver. destruct (observer w); [|done]. by apply stable_handle.
  - unfold tick.
    generalize (filter (fun x => is_due (now w + 1) x = true) (timers w)) as due.
    generalize (P_clock (now w + 1)
                  (flat_map (fun x => if is_due (now w + 1) x then after_firing x else [x])
                     (timers w)) w Hw).
    generalize (set_now (now w + 1)
                  (set_timers
                     (flat_map (fun x => if is_due (now w + 1) x then after_firing x else [x])
                        (timers w)) w)) as w0.
    intros w0 Hw0 due. revert w0 Hw0.
    induction due as [|x due IH]; intros w0 Hw0; [done|].
    simpl. apply IH. by apply stable_handle.
Qed.

Lemma run_stable evs : forall w, P w -> P (run w evs).
Proof.
  induction evs as [|ev evs IH]; intros w Hw; [done|].
  simpl. apply IH. by apply step_stable.
Qed.

End StepInvariants.

Section RevealInvariants.

(** Once revealed, always revealed. *)
Lemma revealed_forever el w evs :
  has_class el revealed w -> has_class el revealed (run w evs).
Proof.
  apply run_stable; try done; intros; has_class_stable.
Qed.

(** Once out of observation, never observed again. *)
Lemma unobserved_forever el w evs : unobserved el w -> unobserved el (run w evs).
Proof.
  apply run_stable; try done.
  - apply unobserved_preserved. script_frame.
  - apply unobserved_preserved. script_frame.
  - apply unobserved_preserved. script_frame.
  - intros entries. apply reveal_callback_unobserved.
  - intros t. apply unobserved_preserved, task_preserves_observer.
  - intros field text. by apply unobserved_preserved.
Qed.

(** Entries for targets that are not observed are never delivered. *)
Lemma deliver_unobserved changes w :
  Forall (fun c => unobserved c.1 w) changes -> step w (Intersection changes) = w.
Proof.
  intros Hall. simpl. unfold deliver. destruct (observer w) as [ts|] eqn:Ho; [|done].
  rewrite (filter_none _ changes); [done|].
  eapply Forall_impl; [exact Hall|]. intros c Hc. by apply Hc.
Qed.

(** The stagger delay of an element is never rewritten by an event. *)
Lemma delay_step el w ev :
  props (step w ev) !! (el, StyleTransitionDelay) = props w !! (el, StyleTransitionDelay).
Proof.
  pose (f := fun w => props w !! (el, StyleTransitionDelay)).
  assert (Hset : forall n p v, p <> StyleTransitionDelay -> preserves f (set_prop n p v)).
  { intros n p v Hp. apply set_prop_other. congruence. }
  destruct ev; simpl.
  - apply (fire_preserves f); [|done]. script_unfold.
    repeat first [ apply Hset; done | frame_step ].
  - apply (Hset field Value); done.
  - apply (fire_preserves f ContactForm SubmitEvent OnFormSubmit on_submit
             (set_defaultPrevented false w)); [|done].
    script_unfold. repeat first [ apply Hset; done | frame_step ].
  - apply (fire_preserves f); [|done]. script_frame.
  - done.
  - unfold deliver. destruct (observer w); [|done].
    apply (preserves_handle f); [|done]. script_unfold.
    repeat first [ apply Hset; done | frame_step ].
  - unfold tick.
    etrans; [apply (tasks_preserve f); [|done]|done].
    intros t. destruct t; script_unfold; repeat first [ apply Hset; done | frame_step ].
Qed.

Lemma delay_run el evs : forall w,
  props (run w evs) !! (el, StyleTransitionDelay) = props w !! (el, StyleTransitionDelay).
Proof.
  induction evs as [|ev evs IH]; intros w; [done|].
  simpl. fold (run (step w ev) evs). by rewrite IH, delay_step.
Qed.

End RevealInvariants.

(** ** The state after start-up *)

Section LoadState.

Variable e : env.

(** Peel the statements of [main] off a goal about [load e], given that
    each of them keeps the observation [f]. *)
Lemma load_preserved {B} (f : world -> B) :
  preserves f (main e) -> f (load e) = f (fresh e).
Proof.
  intros Hm. unfold load. rewrite handle_total by script_total. apply Hm.
Qed.

Lemma observer_reveal_init w :
  observer (exec (reveal_init e) w)
  = if prefersReduced e then observer w else Some (observe_all (reveal_els e) []).
Proof.
  unfold reveal_init. destruct (prefersReduced e); cbn [negb].
  - apply (preserves_exec observer). unfold classList_add. frame.
  - rewrite exec_seq by script_total.
    rewrite exec_for_each by (intros x; script_total).
    unfold exec at 2. cbn [new_observer modify snd].
    assert (Hgen : forall l acc w0, observer w0 = Some acc ->
      observer (fold_left
                  (fun w1 x => exec (set_prop x StyleTransitionDelay
                                       (VMillis (stagger_delay (rect_top e x))) ;; observe x) w1)
                  l w0) = Some (observe_all l acc)).
    { induction l as [|x l IH]; intros acc w0 Hw0; [done|].
      simpl. apply IH. rewrite exec_seq by script_total.
      unfold exec, observe, modify. simpl. rewrite Hw0. done. }
    apply Hgen. done.
Qed.

(** The observer exists exactly when motion is allowed, and then it
    observes the reveal candidates. *)
Lemma observer_load :
  observer (load e)
  = if prefersReduced e then None else Some (observe_all (reveal_els e) []).
Proof.
  rewrite load_eq.
  rewrite (preserves_exec observer (reveal_above_fold e)) by script_frame.
  repeat change (observer (exec (addEventListener ?t ?y ?h) ?w')) with (observer w').
  rewrite (preserves_exec observer (cursor_init e)) by script_frame.
  rewrite (preserves_exec observer (tilt_init e)) by script_frame.
  rewrite observer_reveal_init.
  rewrite (preserves_exec observer (for_each _ _)) by frame.
  repeat change (observer (exec (addEventListener ?t ?y ?h) ?w')) with (observer w').
  rewrite (preserves_exec observer theme_init) by script_frame.
  done.
Qed.

(** Each reveal candidate carries its stagger delay. *)
Lemma delay_load el :
  prefersReduced e = false -> el ∈ reveal_els e ->
  props (load e) !! (el, StyleTransitionDelay)
  = Some (VMillis (stagger_delay (rect_top e el))).
Proof.
  intros Hred Hel. rewrite load_eq.
  pose (f := fun w => props w !! (el, StyleTransitionDelay)).
  assert (Hset : forall n p v, p <> StyleTransitionDelay -> preserves f (set_prop n p v)).
  { intros n p v Hp. apply set_prop_other. congruence. }
  etrans; [apply (preserves_exec f (reveal_above_fold e)); script_unfold;
           repeat first [ apply Hset; done | frame_step ]|].
  repeat change (props (exec (addEventListener ?t ?y ?h) ?w') !! ?k) with (props w' !! k).
  etrans; [apply (preserves_exec f (cursor_init e)); script_unfold;
           repeat first [ apply Hset; done | frame_step ]|].
  etrans; [apply (preserves_exec f (tilt_init e)); script_frame|].
  unfold reveal_init. rewrite Hred. cbn [negb]. rewrite exec_seq by script_total.
  apply (for_each_establishes
           (fun w => props w !! (el, StyleTransitionDelay)
                     = Some (VMillis (stagger_delay (rect_top e el))))
           (reveal_els e) _ el Hel).
  - intros w. rewrite exec_seq by script_total.
    etrans; [apply (preserves_exec f (observe el)); frame|].
    unfold f. simpl. by rewrite lookup_insert_eq.
  - intros y w Hw. destruct (decide (y = el)) as [->|Hne].
    + change (f (exec (set_prop el StyleTransitionDelay
                         (VMillis (stagger_delay (rect_top e el))) ;; observe el) w)
              = Some (VMillis (stagger_delay (rect_top e el)))).
      rewrite exec_seq by script_total.
      etrans; [apply (preserves_exec f (observe el)); frame|].
      unfold f. simpl. by rewrite lookup_insert_eq.
    + rewrite <- Hw.
      apply (preserves_bind f); [apply set_prop_other; congruence|intros _; frame].
  - intros y. script_total.
Qed.

(** The timer table, the clock and the pulse counter after start-up. *)
Lemma timers_cursor_init w :
  timers (exec (cursor_init e) w)
  = (if cursor_enabled e
     then timers w ++ [Timer (next_timer_id w) (now w + 3200) (Some 3200%Z) RingPulse]
     else timers w)
  /\ ringAnim (exec (cursor_init e) w)
     = (if cursor_enabled e then Some (next_timer_id w) else ringAnim w).
Proof.
  unfold cursor_init, cursor_enabled.
  destruct (has_cursor e && negb (isTouch e) && negb (prefersReduced e)).
  - repeat (rewrite exec_seq by script_total).
    repeat change (timers (exec (addEventListener ?t ?y ?h) ?w')) with (timers w').
    repeat change (ringAnim (exec (addEventListener ?t ?y ?h) ?w')) with (ringAnim w').
    set (w2 := exec (for_each (input_els e) _) _).
    assert (H2 : timers w2 = timers w /\ next_timer_id w2 = next_timer_id w /\ now w2 = now w).
    { subst w2. repeat split; (etrans; [apply preserves_exec; frame|]);
        (etrans; [apply preserves_exec; frame|]); done. }
    destruct H2 as (Ht & Hi & Hn).
    unfold exec, startRingPulse, setInterval, add_timer.
    cbv [mbind M_bind modify]. cbn [snd timers ringAnim set_ringAnim set_next_timer_id set_timers].
    by rewrite Ht, Hi, Hn.
  - destruct (has_cursor e); done.
Qed.

Lemma timers_load :
  timers (load e)
  = if cursor_enabled e then [Timer 1 3200 (Some 3200%Z) RingPulse] else [].
Proof.
  rewrite load_eq.
  rewrite (preserves_exec timers (reveal_above_fold e)) by script_frame.
  repeat change (timers (exec (addEventListener ?t ?y ?h) ?w')) with (timers w').
  rewrite (proj1 (timers_cursor_init _)).
  rewrite !(preserves_exec timers (tilt_init e)) by script_frame.
  rewrite !(preserves_exec next_timer_id (tilt_init e)) by script_frame.
  rewrite !(preserves_exec now (tilt_init e)) by script_frame.
  rewrite !(preserves_exec timers (reveal_init e)) by script_frame.
  rewrite !(preserves_exec next_timer_id (reveal_init e)) by script_frame.
  rewrite !(preserves_exec now (reveal_init e)) by script_frame.
  rewrite !(preserves_exec timers (for_each _ _)) by frame.
  rewrite !(preserves_exec next_timer_id (for_each _ _)) by frame.
  rewrite !(preserves_exec now (for_each _ _)) by frame.
  repeat change (timers (exec (addEventListener ?t ?y ?h) ?w')) with (timers w').
  repeat change (next_timer_id (exec (addEventListener ?t ?y ?h) ?w')) with (next_timer_id w').
  repeat change (now (exec (addEventListener ?t ?y ?h) ?w')) with (now w').
  rewrite !(preserves_exec timers theme_init) by script_frame.
  rewrite !(preserves_exec next_timer_id theme_init) by script_frame.
  rewrite !(preserves_exec now theme_init) by script_frame.
  done.
Qed.

Lemma ringAnim_load : ringAnim (load e) = if cursor_enabled e then Some 1 else None.
Proof.
  rewrite load_eq.
  rewrite (preserves_exec ringAnim (reveal_above_fold e)) by script_frame.
  repeat change (ringAnim (exec (addEventListener ?t ?y ?h) ?w')) with (ringAnim w').
  rewrite (proj2 (timers_cursor_init _)).
  rewrite !(preserves_exec ringAnim (tilt_init e)) by script_frame.
  rewrite !(preserves_exec next_timer_id (tilt_init e)) by script_frame.
  rewrite !(preserves_exec ringAnim (reveal_init e)) by script_frame.
  rewrite !(preserves_exec next_timer_id (reveal_init e)) by script_frame.
  rewrite !(preserves_exec ringAnim (for_each _ _)) by frame.
  rewrite !(preserves_exec next_timer_id (for_each _ _)) by frame.
  repeat change (ringAnim (exec (addEventListener ?t ?y ?h) ?w')) with (ringAnim w').
  repeat change (next_timer_id (exec (addEventListener ?t ?y ?h) ?w')) with (next_timer_id w').
  rewrite !(preserves_exec ringAnim theme_init) by script_frame.
  rewrite !(preserves_exec next_timer_id theme_init) by script_frame.
  done.
Qed.

Lemma now_load : now (load e) = 0%Z.
Proof. apply (load_preserved now). script_frame. Qed.

Lemma ring_animations_load : ring_animations (load e) = 0.
Proof. apply (load_preserved ring_animations). script_frame. Qed.

Lemma location_load : location_href (load e) = document_url e.
Proof. apply (load_preserved location_href). script_frame. Qed.

End LoadState.

(** ** Reveal candidates at start-up *)

Section RevealLoad.

Import TokenList.

Variable e : env.

(** With motion allowed, nothing after the theme block touches the class
    of an element that lies at or beyond 90% of the viewport height. *)
Lemma class_load_far el :
  prefersReduced e = false ->
  ltb (rect_top e el) (mul (innerHeight e) lit_0_9) = false ->
  str_prop (load e) el ClassName = str_prop (exec theme_init (before_theme e)) el ClassName.
Proof.
  intros Hred Hfar. unfold str_prop.
  pose (f := fun w => props w !! (el, ClassName)).
  assert (Hset : forall n p v, p <> ClassName -> preserves f (set_prop n p v)).
  { intros n p v Hp. apply set_prop_other. congruence. }
  assert (Hf : f (load e) = f (exec theme_init (before_theme e)));
    [|unfold f in Hf; by rewrite Hf].
  rewrite load_eq. fold (before_theme e).
  etrans; [apply (preserves_exec f (reveal_above_fold e))|].
  { unfold reveal_above_fold. apply preserves_for_each. intros x _.
    destruct (ltb (rect_top e x) (mul (innerHeight e) lit_0_9)) eqn:Hx; [|apply preserves_ret].
    apply classList_add_other. intros [= ->]. congruence. }
  repeat change (f (exec (addEventListener ?t ?y ?h) ?w')) with (f w').
  etrans; [apply (preserves_exec f (cursor_init e)); script_unfold;
           repeat first [ apply Hset; done | frame_step ]|].
  etrans; [apply (preserves_exec f (tilt_init e)); script_frame|].
  etrans; [apply (preserves_exec f (reveal_init e))|].
  { unfold reveal_init. rewrite Hred. cbn [negb].
    repeat first [ apply Hset; done | frame_step ]. }
  etrans; [apply (preserves_exec f (for_each (anchor_els e) _)); frame|].
  done.
Qed.

(** The class of the body after the theme block. *)
Lemma theme_init_body_class w :
  body_class (exec theme_init w)
  = match localStorage w !! site_theme with
    | Some (c :: s) => c :: s
    | _ => body_class w
    end.
Proof.
  destruct (localStorage w !! site_theme) as [[|c s]|] eqn:Hs.
  - unfold exec, theme_init. cbv [mbind M_bind localStorage_getItem gets]. by rewrite Hs.
  - rewrite (theme_init_exec w (c :: s)) by done. unfold body_class, str_prop.
    cbn [props set_props]. by rewrite !lookup_insert_ne, lookup_insert_eq by done.
  - unfold exec, theme_init. cbv [mbind M_bind localStorage_getItem gets]. by rewrite Hs.
Qed.

Lemma theme_init_other_class w el :
  el <> Body -> str_prop (exec theme_init w) el ClassName = str_prop w el ClassName.
Proof.
  intros Hel. apply (str_prop_preserved theme_init). unfold theme_init.
  repeat first [ apply set_prop_other; congruence | frame_step ].
Qed.

Lemma before_theme_class el :
  str_prop (before_theme e) el ClassName = str_prop (fresh e) el ClassName.
Proof.
  apply (str_prop_preserved (set_prop YearEl TextContent (VStr (full_year e)))).
  by apply set_prop_other.
Qed.

(** Start-up marks no far element revealed, unless a stored theme string
    itself carries the token and the element is the body. *)
Lemma far_not_revealed el :
  prefersReduced e = false ->
  ltb (rect_top e el) (mul (innerHeight e) lit_0_9) = false ->
  (el = Body -> forall s, stored e !! site_theme = Some s -> revealed ∉ parse s) ->
  has_class el revealed (load e) -> has_class el revealed (fresh e).
Proof.
  intros Hred Hfar Hbody. unfold has_class. rewrite (class_load_far el Hred Hfar).
  destruct (decide (el = Body)) as [->|Hne].
  - fold (body_class (exec theme_init (before_theme e))).
    rewrite theme_init_body_class. rewrite localStorage_before_theme.
    unfold body_class. rewrite before_theme_class.
    destruct (stored e !! site_theme) as [s|] eqn:Hs; [|done].
    destruct s as [|c s]; [done|].
    intros Hc%contains_elem. exfalso. by apply (Hbody eq_refl (c :: s)).
  - by rewrite theme_init_other_class, before_theme_class.
Qed.

(** Under reduced motion every candidate is revealed by the script. *)
Lemma reduced_all_revealed el :
  prefersReduced e = true -> el ∈ reveal_els e -> has_class el revealed (load e).
Proof.
  intros Hred Hel. rewrite load_eq.
  do 6 (apply stable_exec; [has_class_stable|]).
  unfold reveal_init. rewrite Hred. cbn [negb].
  apply (for_each_establishes (has_class el revealed) (reveal_els e) _ el Hel).
  - intros w. apply has_class_added, valid_token_lit_revealed.
  - intros y. has_class_stable.
  - intros y. script_total.
Qed.

Lemma reduced_cursor_hidden :
  prefersReduced e = true -> has_cursor e = true ->
  props (load e) !! (Cursor, StyleDisplay) = Some (VStr (lit "none")).
Proof.
  intros Hred Hcur. rewrite load_eq.
  pose (f := fun w => props w !! (Cursor, StyleDisplay)).
  etrans; [apply (preserves_exec f (reveal_above_fold e))|].
  { unfold reveal_above_fold. apply preserves_for_each. intros x _.
    destruct (ltb _ _); [|apply preserves_ret]. by apply classList_add_other. }
  repeat change (f (exec (addEventListener ?t ?y ?h) ?w')) with (f w').
  unfold cursor_init. rewrite Hred, Hcur. rewrite andb_false_r.
  unfold f. simpl. by rewrite lookup_insert_eq.
Qed.

End RevealLoad.

(** ** Facts about comparisons of Numbers *)

Section NumberOrder.

Lemma SFcompare_swap (x y : number) c :
  SFcompare x y = Some c -> SFcompare y x = Some (CompOpp c).
Proof.
  destruct x as [sx|sx| |sx mx ex], y as [sy|sy| |sy my ey]; simpl;
    try discriminate; intros [= <-]; try (by destruct sx); try (by destruct sy);
    try (by destruct sx, sy).
  destruct sx, sy; try done; f_equal.
  - rewrite (Z.compare_antisym ex ey).
    destruct (ex ?= ey)%Z eqn:E; simpl; try done.
    rewrite (Pos.compare_cont_antisym _ _ Eq). simpl. by rewrite CompOpp_involutive.
  - rewrite (Z.compare_antisym ex ey).
    destruct (ex ?= ey)%Z eqn:E; simpl; try done.
    by rewrite (Pos.compare_cont_antisym _ _ Eq).
Qed.

(** [y >= x] excludes [y < x]. *)
Lemma leb_not_ltb (x y : number) : SFleb x y = true -> ltb y x = false.
Proof.
  unfold SFleb, ltb, SFltb. destruct (SFcompare x y) as [c|] eqn:E; [|done].
  rewrite (SFcompare_swap _ _ _ E). by destruct c.
Qed.

End NumberOrder.

(** ** Facts about the idle pulse of the cursor ring *)

Section Pulse.

Definition is_pulse (x : timer) : bool :=
  match timer_task x with RingPulse => true | SubmitDone _ _ _ => false end.

(** The interval timers of the pulse among all timers. *)
Definition pulse_timers (w : world) : list timer :=
  filter (fun x => is_pulse x = true) (timers w).

Definition is_tick (ev : event) : bool := match ev with Tick => true | _ => false end.
Definition is_blur (ev : event) : bool := match ev with WindowBlur => true | _ => false end.

(** The milliseconds that pass during a sequence of events. *)
Definition elapsed (evs : list event) : nat := length (filter (fun ev => is_tick ev = true) evs).

Lemma filter_flat_map_comm {A} (P : A -> Prop) `{forall x, Decision (P x)}
    (g : A -> list A) (l : list A) :
  (forall x y, y ∈ g x -> (P y <-> P x)) ->
  filter P (flat_map g l) = flat_map g (filter P l).
Proof.
  intros Hg. induction l as [|x l IH]; simpl; [done|].
  rewrite filter_app, IH, filter_cons. destruct (decide (P x)) as [Hx|Hx]; simpl.
  - f_equal. apply filter_all. apply Forall_forall. intros y Hy. by apply (Hg x).
  - rewrite filter_none; [done|]. apply Forall_forall. intros y Hy. by rewrite (Hg x).
Qed.

Lemma pulse_timers_tick w :
  pulse_timers (tick w) = reschedule (now w + 1) (pulse_timers w).
Proof.
  unfold pulse_timers. rewrite tick_timers. unfold reschedule.
  apply filter_flat_map_comm. intros x y Hy.
  destruct (is_due (now w + 1) x).
  - unfold after_firing in Hy. destruct (timer_period x); [|by apply elem_of_nil in Hy].
    apply list_elem_of_singleton in Hy as ->. done.
  - apply list_elem_of_singleton in Hy as ->. done.
Qed.

Lemma fire_all_pulses due : forall w,
  ring_animations (fire_all due w)
  = ring_animations w + N.of_nat (length (filter (fun x => is_pulse x = true) due)).
Proof.
  induction due as [|[id d p t] due IH]; intros w; simpl; [by rewrite N.add_0_r|].
  change (fold_left _ due ?w') with (fire_all due w'). rewrite IH.
  destruct t as [n m k|]; cbn [timer_task run_task].
  - rewrite filter_cons_False by done. f_equal.
    apply (preserves_handle ring_animations); [script_frame|done].
  - rewrite filter_cons_True by done.
    unfold handle, ring_pulse, modify.
    cbn [ring_animations set_ring_animations length]. rewrite Nat2N.inj_succ. lia.
Qed.

Lemma ring_animations_tick w :
  ring_animations (tick w)
  = ring_animations w
    + N.of_nat (length (filter (fun x => is_due (now w + 1) x = true) (pulse_timers w))).
Proof.
  rewrite tick_unfold, fire_all_pulses. cbn [ring_animations set_now set_timers].
  unfold pulse_timers. by rewrite filter_comm.
Qed.

(** Events other than a tick or a blur leave the pulse alone. *)
Lemma pulse_timers_setTimeout n m k d :
  preserves pulse_timers (setTimeout (SubmitDone n m k) d).
Proof.
  intros w. unfold pulse_timers. simpl. rewrite filter_app.
  rewrite (filter_none _ [_]); [by rewrite app_nil_r|]. by repeat constructor.
Qed.

Lemma pulse_quiet_step w ev :
  is_tick ev = false -> is_blur ev = false ->
  pulse_timers (step w ev) = pulse_timers w
  /\ ring_animations (step w ev) = ring_animations w
  /\ now (step w ev) = now w.
Proof.
  intros Ht Hb. destruct ev; try done; simpl.
  - repeat split; (apply fire_preserves; [script_frame|done]).
  - repeat split;
      (etrans; [apply (fire_preserves _ ContactForm SubmitEvent OnFormSubmit on_submit
                         (set_defaultPrevented false w)); [|done]|done]);
      unfold on_submit; repeat first [ apply pulse_timers_setTimeout | frame_step ].
  - unfold deliver. destruct (observer w); [|done].
    repeat split; (apply preserves_handle; [script_frame|done]).
Qed.

Lemma now_step w ev : now (step w ev) = (now w + if is_tick ev then 1 else 0)%Z.
Proof.
  destruct ev; simpl; rewrite ?Z.add_0_r.
  - apply fire_preserves; [script_frame|done].
  - done.
  - by rewrite fire_preserves; [|script_frame|].
  - apply fire_preserves; [script_frame|done].
  - done.
  - unfold deliver. destruct (observer w); [|done].
    apply preserves_handle; [script_frame|done].
  - apply tick_now.
Qed.

Lemma now_run evs : forall w, now (run w evs) = (now w + Z.of_nat (elapsed evs))%Z.
Proof.
  induction evs as [|ev evs IH]; intros w; simpl; [unfold elapsed; simpl; lia|].
  fold (run (step w ev) evs). rewrite IH, now_step. unfold elapsed.
  rewrite filter_cons. destruct ev; simpl; lia.
Qed.

(** While the interval is running: one pulse timer, due within the next
    3200 ms, and as many pulses played as periods have gone by. *)
Definition pulsing (w : world) : Prop :=
  exists due,
    pulse_timers w = [Timer 1 due (Some 3200%Z) RingPulse]
    /\ ringAnim w = Some 1
    /\ (now w < due <= now w + 3200)%Z
    /\ (Z.of_N (ring_animations w) * 3200 + 3200 = due)%Z.

Lemma pulsing_tick w : pulsing w -> pulsing (tick w).
Proof.
  intros (due & Hp & Hr & Hd & Hc).
  assert (Hra : ringAnim (tick w) = ringAnim w).
  { rewrite tick_unfold. unfold fire_all.
    by rewrite tasks_preserve; [|apply task_preserves_ringAnim|]. }
  destruct (decide (due = now w + 1)%Z) as [->|Hne].
  - exists (now w + 1 + 3200)%Z.
    rewrite pulse_timers_tick, ring_animations_tick, tick_now, Hra, Hp.
    unfold reschedule, is_due. simpl. rewrite filter_cons. simpl.
    rewrite Z.leb_refl. simpl. destruct (decide (true = true)); [|done].
    simpl. repeat split; try done; lia.
  - exists due.
    rewrite pulse_timers_tick, ring_animations_tick, tick_now, Hra, Hp.
    unfold reschedule, is_due. simpl. rewrite filter_cons. simpl.
    destruct (Z.leb_spec due (now w + 1)); [lia|]. simpl.
    destruct (decide (false = true)); [done|]. simpl.
    repeat split; try done; lia.
Qed.

Lemma pulsing_ringAnim_step w ev :
  is_blur ev = false -> ringAnim (step w ev) = ringAnim w.
Proof.
  intros Hb. destruct ev; try done; simpl.
  - apply fire_preserves; [script_frame|done].
  - by rewrite fire_preserves; [|script_frame|].
  - unfold deliver. destruct (observer w); [|done].
    apply preserves_handle; [script_frame|done].
  - rewrite tick_unfold. unfold fire_all.
    by rewrite tasks_preserve; [|apply task_preserves_ringAnim|].
Qed.

Lemma pulsing_step w ev : is_blur ev = false -> pulsing w -> pulsing (step w ev).
Proof.
  intros Hb Hw. destruct (is_tick ev) eqn:Ht.
  - destruct ev; try done. by apply pulsing_tick.
  - destruct Hw as (due & Hp & Hr & Hd & Hc).
    destruct (pulse_quiet_step w ev Ht Hb) as (Hp' & Ha' & Hn').
    exists due. by rewrite Hp', Ha', Hn', pulsing_ringAnim_step.
Qed.

Lemma pulsing_run evs : forall w,
  Forall (fun ev => is_blur ev = false) evs -> pulsing w -> pulsing (run w evs).
Proof.
  induction evs as [|ev evs IH]; intros w Hevs Hw; [done|].
  apply Forall_cons in Hevs as [Hev Hevs]. simpl. apply IH; [done|].
  by apply pulsing_step.
Qed.

Lemma pulsing_count w : pulsing w -> Z.of_N (ring_animations w) = (now w / 3200)%Z.
Proof.
  intros (due & _ & _ & Hd & Hc).
  apply Z.div_unique with (now w - Z.of_N (ring_animations w) * 3200)%Z; lia.
Qed.

Lemma pulsing_load e : cursor_enabled e = true -> pulsing (load e).
Proof.
  intros He. exists 3200%Z. unfold pulse_timers.
  rewrite timers_load, ringAnim_load, now_load, ring_animations_load, He.
  repeat split; done.
Qed.

(** Once the interval is cleared: no pulse timer, and none comes back. *)
Definition silent (w : world) : Prop := pulse_timers w = [].

Lemma silent_step w ev : silent w -> silent (step w ev) /\ ring_animations (step w ev) = ring_animations w.
Proof.
  intros Hw. unfold silent in *. destruct (is_tick ev) eqn:Ht; [|destruct (is_blur ev) eqn:Hb].
  - destruct ev; try done. simpl.
    rewrite pulse_timers_tick, ring_animations_tick, Hw. split; [done|]. simpl. lia.
  - destruct ev; try done. simpl. split.
    + apply (fire_stable (fun w => pulse_timers w = [])); [done| |done].
      intros w' Hw'. unfold on_window_blur, clearInterval.
      cbv [mbind M_bind gets modify]. simpl.
      destruct (ringAnim w'); [|done]. unfold pulse_timers in *. simpl.
      by rewrite filter_comm, Hw'.
    + apply fire_preserves; [script_frame|done].
  - destruct (pulse_quiet_step w ev Ht Hb) as (Hp' & Ha' & _). by rewrite Hp', Ha'.
Qed.

Lemma silent_run evs : forall w,
  silent w -> ring_animations (run w evs) = ring_animations w.
Proof.
  induction evs as [|ev evs IH]; intros w Hw; [done|].
  destruct (silent_step w ev Hw) as [Hs Ha]. simpl.
  fold (run (step w ev) evs). by rewrite IH.
Qed.

(** A blur of the window clears the pulse timer, whatever was running. *)
Lemma blur_silences e w :
  cursor_enabled e = true -> reachable e w ->
  (pulsing w \/ silent w) -> silent (step w WindowBlur).
Proof.
  intros He Hw Hstate. simpl. unfold fire.
  rewrite (registrations_reachable e), blur_registered, He by done. simpl.
  rewrite handle_total by script_total. unfold silent, pulse_timers.
  unfold exec, on_window_blur, clearInterval. cbv [mbind M_bind gets modify]. simpl.
  destruct Hstate as [(due & Hp & Hr & _)|Hs].
  - rewrite Hr. simpl. rewrite filter_comm. fold (pulse_timers w). rewrite Hp.
    rewrite filter_cons. simpl. by destruct (decide (1 <> 1)).
  - destruct (ringAnim w); [|done]. simpl.
    rewrite filter_comm. fold (pulse_timers w). by rewrite Hs.
Qed.

End Pulse.

(** ** Facts about binary64 values *)

Section NumberFacts.

Local Open Scope Z_scope.

(** The number of binary digits of a positive integer. *)
Lemma digits2_bounds (p : positive) :
  2 ^ (Z.pos (digits2_pos p) - 1) <= Z.pos p < 2 ^ Z.pos (digits2_pos p).
Proof.
  induction p as [p IH|p IH|]; simpl digits2_pos.
  - rewrite Pos2Z.inj_succ, (Pos2Z.inj_xI p).
    replace (Z.succ (Z.pos (digits2_pos p)) - 1) with (Z.succ (Z.pos (digits2_pos p) - 1)) by lia.
    rewrite !Z.pow_succ_r by lia.
    revert IH. generalize (2 ^ (Z.pos (digits2_pos p) - 1)) (2 ^ Z.pos (digits2_pos p)). lia.
  - rewrite Pos2Z.inj_succ, (Pos2Z.inj_xO p).
    replace (Z.succ (Z.pos (digits2_pos p)) - 1) with (Z.succ (Z.pos (digits2_pos p) - 1)) by lia.
    rewrite !Z.pow_succ_r by lia.
    revert IH. generalize (2 ^ (Z.pos (digits2_pos p) - 1)) (2 ^ Z.pos (digits2_pos p)). lia.
  - simpl. lia.
Qed.

(** The digit count is determined by the bracketing powers of two. *)
Lemma digits2_unique (p : positive) (d : Z) :
  2 ^ (d - 1) <= Z.pos p < 2 ^ d -> Z.pos (digits2_pos p) = d.
Proof.
  intros [Hlo Hhi]. pose proof (digits2_bounds p) as [Hlo' Hhi'].
  destruct (Z.lt_trichotomy (Z.pos (digits2_pos p)) d) as [H|[H|H]]; [|done|].
  - assert (0 <= d - 1) by lia.
    assert (2 ^ Z.pos (digits2_pos p) <= 2 ^ (d - 1)) by (apply Z.pow_le_mono_r; lia).
    lia.
  - assert (d <= 0 \/ 0 < d) as [Hd|Hd] by lia.
    + assert (2 ^ d <= 1); [|lia].
      destruct (Z.eq_dec d 0) as [->|]; [simpl; lia|].
      rewrite Z.pow_neg_r by lia. lia.
    + assert (2 ^ d <= 2 ^ (Z.pos (digits2_pos p) - 1)) by (apply Z.pow_le_mono_r; lia).
      lia.
Qed.

Lemma digits2_shift (p : positive) (k : Z) :
  0 <= k -> forall q, Z.pos q = Z.pos p * 2 ^ k ->
  Z.pos (digits2_pos q) = Z.pos (digits2_pos p) + k.
Proof.
  intros Hk q Hq. apply digits2_unique. rewrite Hq.
  pose proof (digits2_bounds p) as [Hlo Hhi].
  replace (Z.pos (digits2_pos p) + k - 1) with ((Z.pos (digits2_pos p) - 1) + k) by lia.
  rewrite !Z.pow_add_r by lia.
  assert (0 < 2 ^ k) by (apply Z.pow_pos_nonneg; lia). nia.
Qed.

Lemma iter_xO_value (p k : positive) : Z.pos (Pos.iter xO p k) = Z.pos p * 2 ^ Z.pos k.
Proof.
  induction k as [|k IH] using Pos.peano_ind.
  - simpl. lia.
  - rewrite Pos.iter_succ, Pos2Z.inj_xO, IH, Pos2Z.inj_succ, Z.pow_succ_r by lia. lia.
Qed.

(** An integer with at most 53 digits is a Number, and this is its
    representation: the significand shifted up to 53 digits. *)
Definition normal_form (p : positive) : positive * Z :=
  shl_align p 0 (Z.pos (digits2_pos p) - 53).

Lemma normal_form_spec (p : positive) :
  Z.pos (digits2_pos p) <= 53 ->
  let '(m, e) := normal_form p in
  e = Z.pos (digits2_pos p) - 53
  /\ Z.pos m = Z.pos p * 2 ^ (- e)
  /\ Z.pos (digits2_pos m) = 53.
Proof.
  intros Hd. unfold normal_form, shl_align.
  destruct (Z.pos (digits2_pos p) - 53 - 0) as [|d|d] eqn:E; [|lia|].
  - split; [lia|]. replace (- 0) with 0 by lia. split; [simpl; lia|lia].
  - change (PosDef.Pos.iter xO p d) with (Pos.iter xO p d).
    split; [done|]. pose proof (iter_xO_value p d) as Hv.
    replace (- (Z.pos (digits2_pos p) - 53)) with (Z.pos d) by lia.
    split; [done|]. rewrite (digits2_shift p (Z.pos d)) by (done || lia). lia.
Qed.

Lemma binary_round_small (s : bool) (p : positive) :
  Z.pos (digits2_pos p) <= 53 ->
  binary_round prec emax s p 0 = S754_finite s (normal_form p).1 (normal_form p).2.
Proof.
  intros Hd. unfold binary_round.
  replace (fexp prec emax (Z.pos (digits2_pos p) + 0)) with (Z.pos (digits2_pos p) - 53)
    by (unfold fexp, emin, prec, emax; lia).
  fold (normal_form p). pose proof (normal_form_spec p Hd) as Hn.
  destruct (normal_form p) as [m e]. destruct Hn as (He & Hm & Hdm). cbn [fst snd].
  unfold binary_round_aux.
  assert (Hsh : shr_fexp prec emax (Z.pos m) e loc_Exact
                = ({| shr_m := Z.pos m; shr_r := false; shr_s := false |}, e)).
  { unfold shr_fexp. cbn [Zdigits2]. rewrite Hdm.
    replace (fexp prec emax (53 + e) - e) with 0 by (unfold fexp, emin, prec, emax; lia).
    reflexivity. }
  rewrite Hsh. cbn [shr_m loc_of_shr_record round_nearest_even]. rewrite Hsh. cbn [shr_m].
  destruct (Z.leb_spec e (emax - prec)) as [_|H]; [done|]. unfold emax, prec in H. lia.
Qed.

(** *** The clamp of the stagger delay, exactly *)

Definition signed (s : bool) (m : positive) : Z := if s then Z.neg m else Z.pos m.

(** The rational a finite Number stands for: [(-1)^s * m * 2^e]. *)
Definition exact_value (s : bool) (m : positive) (e : Z) : QArith_base.Q :=
  match e with
  | Z.neg k => QArith_base.Qmake (signed s m) (2 ^ k)%positive
  | _ => QArith_base.inject_Z (signed s m * 2 ^ e)
  end.

(** Rounding to the nearest integer, halves upwards. *)
Definition round_half_up (q : QArith_base.Q) : Z :=
  Qround.Qfloor (QArith_base.Qplus q (QArith_base.Qmake 1 2)).

(** [min(300, max(0, round(x)))] in exact arithmetic, for a Number [x]:
    the specification's formula, with the infinities clamped and NaN
    propagated. *)
Definition clamped_round (x : number) : number :=
  match x with
  | S754_nan => S754_nan
  | S754_zero _ => of_Z 0
  | S754_infinity s => of_Z (if s then 0 else 300)
  | S754_finite s m e => of_Z (Z.min 300 (Z.max 0 (round_half_up (exact_value s m e))))
  end.

Lemma round_half_up_neg_exp s m k :
  round_half_up (exact_value s m (Z.neg k))
  = (2 * signed s m + 2 ^ Z.pos k) / (2 * 2 ^ Z.pos k).
Proof.
  unfold round_half_up, exact_value, Qround.Qfloor, QArith_base.Qplus. simpl QArith_base.Qnum.
  simpl QArith_base.Qden. rewrite Pos2Z.inj_mul, Pos2Z.inj_pow. f_equal; lia.
Qed.

Lemma round_half_up_nonneg_exp s m e :
  0 <= e -> round_half_up (exact_value s m e) = signed s m * 2 ^ e.
Proof.
  intros He. unfold round_half_up, exact_value.
  assert (Hv : forall z, Qround.Qfloor
                 (QArith_base.Qplus (QArith_base.inject_Z z) (QArith_base.Qmake 1 2)) = z).
  { intros z. unfold Qround.Qfloor, QArith_base.Qplus, QArith_base.inject_Z. simpl.
    symmetry. apply Z.div_unique with 1; lia. }
  destruct e; try lia; apply Hv.
Qed.

(** Comparing an integer below 2^53 with 300 the way binary64 does. *)
Lemma ltb_small_300 (p : positive) :
  Z.pos (digits2_pos p) <= 53 ->
  ltb (S754_finite false (normal_form p).1 (normal_form p).2) lit_300 = (Z.pos p <? 300).
Proof.
  intros Hd. pose proof (normal_form_spec p Hd) as Hn.
  destruct (normal_form p) as [m e]. destruct Hn as (He & Hm & Hdm). cbn [fst snd].
  pose proof (digits2_bounds p) as [Hlo Hhi].
  unfold ltb, SFltb, lit_300. cbn [SFcompare].
  destruct (Z.compare_spec e (-44)) as [E|E|E].
  - rewrite Pos.compare_cont_spec. cbn [Pos.switch_Eq].
    rewrite Pos2Z.inj_compare, Hm, E. change (2 ^ (- -44)) with 17592186044416.
    destruct (Z.ltb_spec (Z.pos p) 300); destruct (Z.compare_spec (Z.pos p * 17592186044416) 5277655813324800);
      try done; lia.
  - assert (Z.pos (digits2_pos p) <= 8) by lia.
    assert (2 ^ Z.pos (digits2_pos p) <= 2 ^ 8) by (apply Z.pow_le_mono_r; lia).
    change (2 ^ 8) with 256 in *. destruct (Z.ltb_spec (Z.pos p) 300); [done|lia].
  - assert (9 <= Z.pos (digits2_pos p) - 1) by lia.
    assert (2 ^ 9 <= 2 ^ (Z.pos (digits2_pos p) - 1)) by (apply Z.pow_le_mono_r; lia).
    change (2 ^ 9) with 512 in *. destruct (Z.ltb_spec (Z.pos p) 300); [lia|done].
Qed.

(** The clamp applied to an integer below 2^53 in absolute exact_value. *)
Lemma clamp_of_integer (n : Z) (s : bool) :
  - 2 ^ 53 < n < 2 ^ 53 ->
  Math_min [lit_300; Math_max [lit_0; binary_normalize prec emax n 0 s]]
  = of_Z (Z.min 300 (Z.max 0 n)).
Proof.
  intros Hn. destruct n as [|p|p]; cbn [binary_normalize].
  - by destruct s.
  - assert (Hd : Z.pos (digits2_pos p) <= 53).
    { pose proof (digits2_bounds p) as [Hlo _].
      destruct (Z.le_gt_cases (Z.pos (digits2_pos p)) 53) as [|Hgt]; [done|].
      assert (2 ^ 53 <= 2 ^ (Z.pos (digits2_pos p) - 1)) by (apply Z.pow_le_mono_r; lia).
      lia. }
    rewrite (binary_round_small false p Hd).
    pose proof (ltb_small_300 p Hd) as Hlt.
    set (r := S754_finite false (normal_form p).1 (normal_form p).2) in *.
    assert (Hmax : Math_max [lit_0; r] = r) by reflexivity.
    rewrite Hmax.
    assert (Hmin : Math_min [lit_300; r] = if ltb r lit_300 then r else lit_300) by reflexivity.
    rewrite Hmin, Hlt. destruct (Z.ltb_spec (Z.pos p) 300) as [H|H].
    + rewrite Z.max_r, Z.min_r by lia. unfold of_Z. cbn [binary_normalize].
      by rewrite (binary_round_small false p Hd).
    + rewrite Z.max_r, Z.min_l by lia. reflexivity.
  - assert (Hd : Z.pos (digits2_pos p) <= 53).
    { pose proof (digits2_bounds p) as [Hlo _].
      destruct (Z.le_gt_cases (Z.pos (digits2_pos p)) 53) as [|Hgt]; [done|].
      assert (2 ^ 53 <= 2 ^ (Z.pos (digits2_pos p) - 1)) by (apply Z.pow_le_mono_r; lia).
      lia. }
    rewrite (binary_round_small true p Hd). reflexivity.
Qed.

(** What validity says about a finite Number. *)
Lemma valid_finite (s : bool) (m : positive) (e : Z) :
  valid_binary prec emax (S754_finite s m e) = true ->
  Z.pos (digits2_pos m) <= 53
  /\ (-1074 < e -> Z.pos (digits2_pos m) = 53)
  /\ -1074 <= e.
Proof.
  unfold valid_binary, bounded, canonical_mantissa, fexp, emin, prec, emax.
  intros [Hc _]%andb_true_iff. apply Z.eqb_eq in Hc. lia.
Qed.

(** Rounding a Number with a negative exponent goes through the integer
    nearest to it, also when the Number is integral already. *)
Lemma Math_round_neg_exp (s : bool) (m k : positive) :
  valid_binary prec emax (S754_finite s m (Z.neg k)) = true ->
  Math_round (S754_finite s m (Z.neg k))
  = binary_normalize prec emax
      ((2 * signed s m + 2 ^ Z.pos k) / (2 * 2 ^ Z.pos k)) 0 s
  /\ - 2 ^ 53 < (2 * signed s m + 2 ^ Z.pos k) / (2 * 2 ^ Z.pos k) < 2 ^ 53.
Proof.
  intros Hv. destruct (valid_finite _ _ _ Hv) as (Hd & Hnorm & Hemin).
  pose proof (digits2_bounds m) as [Hlo Hhi].
  assert (Hm53 : Z.pos m < 2 ^ 53).
  { assert (2 ^ Z.pos (digits2_pos m) <= 2 ^ 53) by (apply Z.pow_le_mono_r; lia). lia. }
  set (d := 2 ^ Z.pos k). assert (Hd2 : 2 <= d).
  { subst d. change 2 with (2 ^ 1) at 1. apply Z.pow_le_mono_r; lia. }
  set (v := signed s m). assert (Hvb : - 2 ^ 53 < v < 2 ^ 53).
  { subst v. unfold signed. destruct s; lia. }
  set (n := (2 * v + d) / (2 * d)).
  assert (Hn : - 2 ^ 53 < n < 2 ^ 53).
  { subst n. split.
    - apply Z.lt_le_trans with (- 2 ^ 53 + 1); [lia|].
      apply Z.div_le_lower_bound; nia.
    - apply Z.div_lt_upper_bound; nia. }
  split; [|done]. unfold Math_round. cbn [Z.leb Z.compare]. cbv zeta.
  change (- Z.neg k) with (Z.pos k). change (if s then Z.neg m else Z.pos m) with v.
  fold d. fold n.
  destruct (Z.eqb_spec (v mod d) 0) as [Hint|_]; [|done].
  (* the Number is integral: then it is the normal form of its exact_value *)
  assert (Hq : v = d * (v / d)) by (apply Z.div_exact; lia).
  assert (Hnq : n = v / d).
  { subst n. rewrite Hq at 1.
    replace (2 * (d * (v / d)) + d) with (d + (v / d) * (2 * d)) by lia.
    rewrite Z.div_add by lia. rewrite (Z.div_small d (2 * d)) by lia. lia. }
  assert (Hk : Z.pos (digits2_pos m) = 53).
  { apply Hnorm. destruct (Z.eq_dec (Z.neg k) (-1074)) as [Hk|]; [|lia]. exfalso.
    assert (2 ^ 53 <= d) by (subst d; apply Z.pow_le_mono_r; lia).
    assert (v / d = 0 \/ v / d <> 0) as [H0|H0] by lia.
    - rewrite H0 in Hq. subst v. unfold signed in Hq. destruct s; lia.
    - assert (d <= Z.abs v) by nia. lia. }
  assert (Hmq : exists p, Z.pos m = Z.pos p * d /\ n = signed s p).
  { subst v. unfold signed in *. destruct s.
    - destruct (Z.neg m / d) as [|q|q] eqn:Eq; try lia.
      exists q. split; [lia|]. rewrite Hnq. done.
    - destruct (Z.pos m / d) as [|q|q] eqn:Eq; try lia.
      exists q. split; [lia|]. rewrite Hnq. done. }
  destruct Hmq as (p & Hmp & Hnp). rewrite Hnp.
  assert (Hdp : Z.pos (digits2_pos p) = 53 - Z.pos k).
  { pose proof (digits2_shift p (Z.pos k) ltac:(lia) m Hmp). lia. }
  assert (Hbr : binary_round prec emax s p 0 = S754_finite s m (Z.neg k)).
  { rewrite binary_round_small by lia.
    pose proof (normal_form_spec p ltac:(lia)) as Hnf.
    destruct (normal_form p) as [m' e']. destruct Hnf as (He' & Hm' & _). cbn [fst snd].
    assert (e' = Z.neg k) as -> by lia.
    assert (m' = m) as ->; [|done].
    apply Pos2Z.inj. rewrite Hm', Hmp. done. }
  unfold signed. destruct s; cbn [binary_normalize]; by rewrite Hbr.
Qed.

(** The clamp of the script agrees with the exact formula on every
    well-formed Number. *)
Lemma clamp_exact (x : number) :
  valid_binary prec emax x = true ->
  Math_min [lit_300; Math_max [lit_0; Math_round x]] = clamped_round x.
Proof.
  intros Hv. destruct x as [s|s| |s m e]; try (by destruct s); try done.
  destruct (valid_finite _ _ _ Hv) as (Hd & Hnorm & Hemin).
  destruct e as [|k|k].
  - (* exponent 0: the Number is an integer of 53 digits *)
    unfold clamped_round. rewrite round_half_up_nonneg_exp by lia.
    pose proof (digits2_bounds m) as [Hlo _]. rewrite Hnorm in Hlo by lia.
    change (2 ^ (53 - 1)) with 4503599627370496 in Hlo.
    destruct s; unfold signed; rewrite Z.mul_1_r.
    + rewrite Z.max_l, Z.min_r by lia. reflexivity.
    + rewrite Z.max_r, Z.min_l by lia. reflexivity.
  - unfold clamped_round. rewrite round_half_up_nonneg_exp by lia.
    pose proof (digits2_bounds m) as [Hlo _]. rewrite Hnorm in Hlo by lia.
    change (2 ^ (53 - 1)) with 4503599627370496 in Hlo.
    assert (0 < 2 ^ Z.pos k) by (apply Z.pow_pos_nonneg; lia).
    destruct s; unfold signed.
    + rewrite Z.max_l, Z.min_r by nia. reflexivity.
    + rewrite Z.max_r, Z.min_l by nia. reflexivity.
  - destruct (Math_round_neg_exp s m k Hv) as [-> Hn].
    unfold clamped_round. rewrite round_half_up_neg_exp.
    by apply clamp_of_integer.
Qed.

End NumberFacts.

(** ** Multiplication returns well-formed Numbers *)

Section MulValid.

Local Open Scope Z_scope.

Lemma shr_1_half (r : shr_record) :
  0 <= shr_m r -> shr_m (shr_1 r) = shr_m r / 2 /\ 0 <= shr_m (shr_1 r).
Proof.
  destruct r as [m rb sb]. cbn [shr_m]. intros Hm.
  destruct m as [|[p|p|]|p]; cbn [shr_1 shr_m]; try lia.
  - split; [reflexivity|lia].
  - split; [|lia]. rewrite (Pos2Z.inj_xI p). apply Z.div_unique with 1; lia.
  - split; [|lia]. rewrite (Pos2Z.inj_xO p). apply Z.div_unique with 0; lia.
  - split; [reflexivity|lia].
Qed.

Lemma iter_shr_1 (k : positive) : forall r,
  0 <= shr_m r ->
  shr_m (SpecFloat.iter_pos shr_1 k r) = shr_m r / 2 ^ Z.pos k /\ 0 <= shr_m (SpecFloat.iter_pos shr_1 k r).
Proof.
  induction k as [k IH|k IH|]; intros r Hr; cbn [SpecFloat.iter_pos].
  - destruct (shr_1_half r Hr) as [H1 H1'].
    destruct (IH _ H1') as [H2 H2']. destruct (IH _ H2') as [H3 H3'].
    split; [|done]. rewrite H3, H2, H1.
    rewrite !Z.div_div by (try apply Z.pow_pos_nonneg; lia).
    f_equal. rewrite (Pos2Z.inj_xI k).
    replace (2 * Z.pos k + 1) with (1 + Z.pos k + Z.pos k) by lia.
    rewrite !Z.pow_add_r by lia. simpl (2 ^ 1). lia.
  - destruct (IH _ Hr) as [H2 H2']. destruct (IH _ H2') as [H3 H3'].
    split; [|done]. rewrite H3, H2.
    rewrite !Z.div_div by (try apply Z.pow_pos_nonneg; lia).
    f_equal. rewrite (Pos2Z.inj_xO k).
    replace (2 * Z.pos k) with (Z.pos k + Z.pos k) by lia.
    rewrite !Z.pow_add_r by lia. lia.
  - destruct (shr_1_half r Hr) as [H1 H1']. split; [|done]. by rewrite H1.
Qed.

Lemma round_nearest_even_range (m : Z) (l : location) :
  round_nearest_even m l = m \/ round_nearest_even m l = m + 1.
Proof.
  unfold round_nearest_even. destruct l as [|[]]; auto.
  destruct (IntDef.Z.even m); auto.
Qed.

(** The digits of a quotient by a power of two. *)
Lemma quotient_bounds (p : positive) (k : Z) :
  0 < k -> k < Z.pos (digits2_pos p) ->
  2 ^ (Z.pos (digits2_pos p) - k - 1) <= Z.pos p / 2 ^ k < 2 ^ (Z.pos (digits2_pos p) - k).
Proof.
  intros Hk Hlt. pose proof (digits2_bounds p) as [Hlo Hhi].
  assert (Hpk : 0 < 2 ^ k) by (apply Z.pow_pos_nonneg; lia).
  split.
  - apply Z.div_le_lower_bound; [done|].
    rewrite <- Z.pow_add_r by lia.
    replace (k + (Z.pos (digits2_pos p) - k - 1)) with (Z.pos (digits2_pos p) - 1) by lia.
    done.
  - apply Z.div_lt_upper_bound; [done|].
    rewrite <- Z.pow_add_r by lia.
    replace (k + (Z.pos (digits2_pos p) - k)) with (Z.pos (digits2_pos p)) by lia.
    done.
Qed.

Lemma quotient_zero (p : positive) (k : Z) :
  Z.pos (digits2_pos p) <= k -> Z.pos p / 2 ^ k = 0.
Proof.
  intros Hk. pose proof (digits2_bounds p) as [_ Hhi].
  apply Z.div_small. split; [lia|].
  apply Z.lt_le_trans with (2 ^ Z.pos (digits2_pos p)); [done|].
  apply Z.pow_le_mono_r; lia.
Qed.

Definition fexp64 (z : Z) : Z := fexp prec emax z.

Lemma fexp64_eq z : fexp64 z = Z.max (z - 53) (-1074).
Proof. reflexivity. Qed.

(** The last step of rounding: a significand that is in place, or a
    power of two one digit too long, ends up canonical. *)
Lemma final_shift_canonical (s : bool) (p : positive) (e : Z) :
  fexp64 (Z.pos (digits2_pos p) + e) = e
  \/ (fexp64 (Z.pos (digits2_pos p) + e) = e + 1
      /\ Z.pos p = 2 ^ (Z.pos (digits2_pos p) - 1) /\ 2 <= Z.pos (digits2_pos p)) ->
  valid_binary prec emax
    (let '(mrs, e') := shr_fexp prec emax (Z.pos p) e loc_Exact in
     match shr_m mrs with
     | 0 => S754_zero s
     | Z.pos m => if e' <=? emax - prec then S754_finite s m e' else S754_infinity s
     | Z.neg _ => S754_nan
     end) = true.
Proof.
  intros H. unfold shr_fexp. cbn [Zdigits2 shr_record_of_loc].
  fold (fexp64 (Z.pos (digits2_pos p) + e)).
  destruct H as [H|(H & Hp & Hd)]; rewrite H.
  - rewrite Z.sub_diag. cbn [shr shr_m].
    destruct (Z.leb_spec e (emax - prec)) as [He|He]; [|done].
    cbn [valid_binary]. unfold bounded, canonical_mantissa.
    fold (fexp64 (Z.pos (digits2_pos p) + e)).
    apply andb_true_iff. split; [by apply Z.eqb_eq | by apply Z.leb_le].
  - replace (e + 1 - e) with 1 by lia. cbn [shr SpecFloat.iter_pos].
    set (r := {| shr_m := Z.pos p; shr_r := false; shr_s := false |}).
    assert (Hq : shr_m (shr_1 r) = Z.pos p / 2) by (by apply (shr_1_half r)).
    rewrite Hp in Hq.
    replace (Z.pos (digits2_pos p) - 1) with (1 + (Z.pos (digits2_pos p) - 2)) in Hq by lia.
    rewrite Z.pow_add_r in Hq by lia. change (2 ^ 1) with 2 in Hq.
    rewrite Z.mul_comm, Z.div_mul in Hq by lia.
    assert (Hpos : 0 < 2 ^ (Z.pos (digits2_pos p) - 2)) by (apply Z.pow_pos_nonneg; lia).
    destruct (shr_m (shr_1 r)) as [|m|m]; [lia| |lia].
    destruct (Z.leb_spec (e + 1) (emax - prec)) as [He|He]; [|done].
    cbn [valid_binary]. unfold bounded, canonical_mantissa.
    apply andb_true_iff. split; [|by apply Z.leb_le]. apply Z.eqb_eq.
    assert (Hdm : Z.pos (digits2_pos m) = Z.pos (digits2_pos p) - 1).
    { apply digits2_unique. rewrite Hq.
      replace (Z.pos (digits2_pos p) - 1 - 1) with (Z.pos (digits2_pos p) - 2) by lia.
      split; [lia|]. apply Z.pow_lt_mono_r; lia. }
    rewrite Hdm. replace (Z.pos (digits2_pos p) - 1 + (e + 1)) with (Z.pos (digits2_pos p) + e) by lia.
    exact H.
Qed.

(** Rounding a significand whose exponent is not above the canonical one
    yields a well-formed Number. *)
Lemma binary_round_aux_valid (s : bool) (mx : positive) (ex : Z) :
  ex <= fexp64 (Z.pos (digits2_pos mx) + ex) ->
  valid_binary prec emax (binary_round_aux prec emax s (Z.pos mx) ex loc_Exact) = true.
Proof.
  intros Hle. unfold binary_round_aux.
  unfold shr_fexp at 1. cbn [Zdigits2 shr_record_of_loc].
  fold (fexp64 (Z.pos (digits2_pos mx) + ex)).
  pose proof (fexp64_eq (Z.pos (digits2_pos mx) + ex)) as HF.
  set (F := fexp64 (Z.pos (digits2_pos mx) + ex)) in *.
  destruct (F - ex) as [|k|k] eqn:Ek; [| |lia].
  - cbn [shr loc_of_shr_record shr_m shr_r shr_s round_nearest_even].
    apply final_shift_canonical. left. fold F. lia.
  - cbn [shr].
    set (r := {| shr_m := Z.pos mx; shr_r := false; shr_s := false |}).
    assert (Hq : shr_m (SpecFloat.iter_pos shr_1 k r) = Z.pos mx / 2 ^ Z.pos k)
      by (by apply (iter_shr_1 k r)).
    set (r' := SpecFloat.iter_pos shr_1 k r) in *.
    destruct (round_nearest_even_range (shr_m r') (loc_of_shr_record r')) as [Hm|Hm];
      rewrite Hm; clear Hm.
    all: assert (He' : ex + Z.pos k = F) by lia; rewrite He'.
    all: destruct (Z.lt_ge_cases (Z.pos k) (Z.pos (digits2_pos mx))) as [Hk|Hk].
    all: try (pose proof (quotient_bounds mx (Z.pos k) ltac:(lia) Hk) as [Hlo Hhi];
              rewrite <- Hq in Hlo, Hhi;
              assert (Hpos : 0 < 2 ^ (Z.pos (digits2_pos mx) - Z.pos k - 1))
                by (apply Z.pow_pos_nonneg; lia)).
    all: try (pose proof (quotient_zero mx (Z.pos k) Hk) as Hz; rewrite <- Hq in Hz; rewrite Hz).
    + destruct (shr_m r') as [|p1|p1] eqn:Ep; [lia| |lia].
      apply final_shift_canonical. left.
      replace (Z.pos (digits2_pos p1)) with (Z.pos (digits2_pos mx) - Z.pos k).
      * replace (Z.pos (digits2_pos mx) - Z.pos k + F) with (Z.pos (digits2_pos mx) + ex) by lia.
        done.
      * symmetry. apply digits2_unique. lia.
    + unfold shr_fexp. cbn [Zdigits2 shr_record_of_loc Z.add].
      change (fexp prec emax (0 + F)) with (fexp64 F). rewrite (fexp64_eq F).
      destruct (Z.max (F - 53) (-1074) - F) as [|j|j] eqn:Ej; [done|lia|done].
    + destruct (shr_m r' + 1) as [|p1|p1] eqn:Ep; [lia| |lia].
      apply final_shift_canonical.
      destruct (Z.eq_dec (Z.pos p1) (2 ^ (Z.pos (digits2_pos mx) - Z.pos k))) as [Htop|Htop].
      * assert (Hd1 : Z.pos (digits2_pos p1) = Z.pos (digits2_pos mx) - Z.pos k + 1).
        { apply digits2_unique. rewrite Htop.
          replace (Z.pos (digits2_pos mx) - Z.pos k + 1 - 1)
            with (Z.pos (digits2_pos mx) - Z.pos k) by lia.
          split; [lia|]. apply Z.pow_lt_mono_r; lia. }
        rewrite Hd1, fexp64_eq.
        replace (Z.pos (digits2_pos mx) - Z.pos k + 1 - 1)
          with (Z.pos (digits2_pos mx) - Z.pos k) by lia.
        lia.
      * left.
        replace (Z.pos (digits2_pos p1)) with (Z.pos (digits2_pos mx) - Z.pos k).
        -- replace (Z.pos (digits2_pos mx) - Z.pos k + F) with (Z.pos (digits2_pos mx) + ex) by lia.
           done.
        -- symmetry. apply digits2_unique. lia.
    + change (0 + 1) with (Z.pos 1). apply final_shift_canonical. left.
      cbn [digits2_pos]. rewrite fexp64_eq. lia.
Qed.

Lemma digits2_lower (p : positive) (j : Z) :
  2 ^ j <= Z.pos p -> j + 1 <= Z.pos (digits2_pos p).
Proof.
  intros Hj. pose proof (digits2_bounds p) as [_ Hhi].
  destruct (Z.le_gt_cases (j + 1) (Z.pos (digits2_pos p))) as [|Hgt]; [done|].
  assert (2 ^ Z.pos (digits2_pos p) <= 2 ^ j) by (apply Z.pow_le_mono_r; lia). lia.
Qed.

(** [a * b] on well-formed Numbers is a well-formed Number. *)
Lemma mul_valid (x y : number) :
  valid_binary prec emax x = true -> valid_binary prec emax y = true ->
  valid_binary prec emax (mul x y) = true.
Proof.
  intros Hx Hy. unfold mul.
  destruct x as [sx|sx| |sx mx ex], y as [sy|sy| |sy my ey]; try reflexivity.
  cbn [SFmul]. apply binary_round_aux_valid.
  apply valid_finite in Hx as (Hdx & Hnx & Hex), Hy as (Hdy & Hny & Hey).
  pose proof (digits2_bounds mx) as [Hlx _]. pose proof (digits2_bounds my) as [Hly _].
  assert (HD : Z.pos (digits2_pos mx) + Z.pos (digits2_pos my) - 2 + 1
               <= Z.pos (digits2_pos (mx * my))).
  { apply digits2_lower. rewrite Pos2Z.inj_mul.
    replace (Z.pos (digits2_pos mx) + Z.pos (digits2_pos my) - 2)
      with ((Z.pos (digits2_pos mx) - 1) + (Z.pos (digits2_pos my) - 1)) by lia.
    rewrite Z.pow_add_r by lia.
    assert (0 < 2 ^ (Z.pos (digits2_pos mx) - 1)) by (apply Z.pow_pos_nonneg; lia).
    assert (0 < 2 ^ (Z.pos (digits2_pos my) - 1)) by (apply Z.pow_pos_nonneg; lia).
    nia. }
  rewrite fexp64_eq. lia.
Qed.

End MulValid.

(** ** The stagger delay of whole-pixel distances *)

Section WholePixels.

Local Open Scope Z_scope.

(** The formula of the specification in exact decimal arithmetic, for a
    distance of [n] whole pixels: [min(300, max(0, round(n * 12/100)))]. *)
Definition decimal_delay (n : Z) : Z :=
  Z.min 300 (Z.max 0 (round_half_up (QArith_base.Qmult (QArith_base.inject_Z n) (QArith_base.Qmake 12 100)))).

Definition number_eqb (x y : number) : bool :=
  match x, y with
  | S754_zero s, S754_zero s' => Bool.eqb s s'
  | S754_infinity s, S754_infinity s' => Bool.eqb s s'
  | S754_nan, S754_nan => true
  | S754_finite s m e, S754_finite s' m' e' => Bool.eqb s s' && Pos.eqb m m' && Z.eqb e e'
  | _, _ => false
  end.

Lemma number_eqb_eq (x y : number) : number_eqb x y = true -> x = y.
Proof.
  destruct x as [s|s| |s m e], y as [s'|s'| |s' m' e']; simpl; try done.
  - by intros ->%Bool.eqb_prop.
  - by intros ->%Bool.eqb_prop.
  - intros [[->%Bool.eqb_prop ->%Pos.eqb_eq]%andb_true_iff ->%Z.eqb_eq]%andb_true_iff.
    reflexivity.
Qed.

(** The distances of [-4096] to [4096] whole pixels. *)
Definition whole_pixels : list Z := map (fun i => Z.of_nat i - 4096) (seq 0 (Z.to_nat 8193)).

Lemma whole_pixels_spec (n : Z) : -4096 <= n <= 4096 -> In n whole_pixels.
Proof.
  intros Hn. unfold whole_pixels. apply in_map_iff.
  exists (Z.to_nat (n + 4096)). split; [lia|].
  apply in_seq. lia.
Qed.

(** On whole pixels the binary64 computation of the script and the
    decimal formula agree. *)
Lemma stagger_delay_whole_pixels (n : Z) :
  -4096 <= n <= 4096 -> stagger_delay (of_Z n) = of_Z (decimal_delay n).
Proof.
  intros Hn. apply number_eqb_eq.
  assert (Hall : forallb (fun n => number_eqb (stagger_delay (of_Z n)) (of_Z (decimal_delay n)))
                   whole_pixels = true) by (vm_compute; reflexivity).
  rewrite forallb_forall in Hall. apply Hall. by apply whole_pixels_spec.
Qed.

(** The product is the binary64 one: [70.83333333333333 * 0.12] is the
    Number [8.5], which rounds to [9], although the distance is just below
    [8.5 / 0.12]. *)
Example stagger_delay_binary64 :
  let d := S754_finite false 4984452712584533 (-46) in
  mul d lit_0_12 = S754_finite false 4785074604081152 (-49)
  /\ stagger_delay d = of_Z 9.
Proof. vm_compute. split; reflexivity. Qed.

End WholePixels.

(** * The other listeners of the script

    The listeners of the navigation toggle, of the internal links, of the
    reset button, of the keyboard, of the tilt cards and of the cursor
    overlay, and the page as it reacts to their events as well. *)

(** What these listeners read from the document and from the host. *)
Record site : Type := Site {
  site_env : env;
  href : node -> jsstring;                  (* this.getAttribute('href') of a link *)
  getElementById : jsstring -> option node; (* document.getElementById *)
  default_value : node -> jsstring;         (* the value a control of the form is reset to *)
  more_controls : list node;                (* controls of the form besides the three fields *)
  offsetWidth : node -> number;             (* el.offsetWidth when attachTilt ran *)
  offsetHeight : node -> number;            (* el.offsetHeight when attachTilt ran *)
  Number_toString : number -> jsstring;     (* the text of a Number in a template literal *)
}.

Module Listeners.

Definition glyph_menu : jsstring := [0x2630].    (* U+2630 *)
Definition glyph_close : jsstring := [0x2715].   (* U+2715 *)

(** *** Mobile navigation (lines 39-49) *)

Definition on_nav_click : M unit :=
  attr ← get_str MobileNavToggle AriaExpanded;
  let expanded := bool_decide (attr = lit "true") in
  set_prop MobileNavToggle AriaExpanded (VStr (string_of_bool (negb expanded))) ;;
  display ← get_str Nav StyleDisplay;
  if bool_decide (display = lit "block") then
    set_prop Nav StyleDisplay (VStr []) ;;
    set_prop MobileNavToggle TextContent (VStr glyph_menu)
  else
    set_prop Nav StyleDisplay (VStr (lit "block")) ;;
    set_prop MobileNavToggle TextContent (VStr glyph_close).

(** [mobileNavToggle.click()]: a click is dispatched at the toggle, which
    calls the listener of line 39 once per registration.  An exception of
    a listener is reported, not passed to the caller. *)
Definition click_nav_toggle : M unit :=
  modify (fire MobileNavToggle Click OnNavClick on_nav_click).

(** [if (mobileNavToggle.getAttribute('aria-expanded') === 'true') mobileNavToggle.click()] *)
Definition close_nav_if_open : M unit :=
  attr ← get_str MobileNavToggle AriaExpanded;
  if bool_decide (attr = lit "true") then click_nav_toggle else mret ().

(** *** Internal links (lines 54-68)

    The result is the element the listener scrolls into view, if any;
    scrolling changes nothing that the state records. *)
Definition on_anchor_click (s : site) (a : node) : M (option node) :=
  let targetId := drop 1 (href s a) in
  match targetId with
  | [] => mret None
  | _ :: _ =>
      match getElementById s targetId with
      | None => mret None
      | Some target =>
          preventDefault ;;
          close_nav_if_open ;;
          mret (Some target)
      end
  end.

(** *** Reset (lines 219-223) *)

(** [form.reset()]: every control goes back to its default value. *)
Definition form_reset (s : site) : M unit :=
  for_each (FieldName :: FieldEmail :: FieldMessage :: more_controls s) (fun c =>
    set_prop c Value (VStr (default_value s c))).

Definition on_reset_click (s : site) : M unit :=
  form_reset s ;;
  set_prop FormFeedback TextContent (VStr []) ;;
  focus FieldName.

(** *** Escape closes the navigation (lines 228-232) *)

Definition on_keydown (key : jsstring) : M unit :=
  if bool_decide (key = lit "Escape") then close_nav_if_open else mret ().

(** *** Tilt (lines 104-114) *)

Definition number_sub (x y : number) : number := SFsub prec emax x y.
Definition number_div (x y : number) : number := SFdiv prec emax x y.
Definition lit_0_5 : number := S754_finite false 4503599627370496 (-53).
Definition lit_8 : number := of_Z 8.

(** [rotX] and [rotY] of the [mousemove] listener, from the pointer
    position, the element's rectangle and its size at attachment. *)
Definition tilt_angles (width height clientX clientY rleft rtop : number) : number * number :=
  let x := number_sub clientX rleft in
  let y := number_sub clientY rtop in
  let rotY := mul (number_sub (number_div x width) lit_0_5) lit_8 in
  let rotX := mul (number_sub (number_div y height) lit_0_5) (SFopp lit_8) in
  (rotX, rotY).

Definition tilt_transform (s : site) (rot : number * number) : jsstring :=
  lit "perspective(800px) rotateX(" ++ Number_toString s rot.1
  ++ lit "deg) rotateY(" ++ Number_toString s rot.2 ++ lit "deg) translateZ(6px)".

Definition on_tilt_move (s : site) (el : node) (clientX clientY rleft rtop : number) : M unit :=
  let rot := tilt_angles (offsetWidth s el) (offsetHeight s el) clientX clientY rleft rtop in
  set_prop el StyleTransform (VStr (tilt_transform s rot)).

Definition on_tilt_leave (el : node) : M unit :=
  set_prop el StyleTransform (VStr []).

(** *** Cursor overlay (lines 128-153) *)

Definition on_cursor_move (s : site) (clientX clientY : number) : M unit :=
  set_prop Cursor StyleTransform
    (VStr (lit "translate3d(" ++ Number_toString s clientX ++ lit "px, "
           ++ Number_toString s clientY ++ lit "px, 0)")).

Definition on_cursor_enter : M unit :=
  set_prop CursorDot StyleTransform (VStr (lit "translate(-50%,-50%) scale(0.6)")) ;;
  set_prop CursorRing StyleTransform (VStr (lit "translate(-50%,-50%) scale(1.6)")) ;;
  set_prop CursorRing StyleOpacity (VStr (lit "1")).

Definition on_cursor_leave : M unit :=
  set_prop CursorDot StyleTransform (VStr (lit "translate(-50%,-50%) scale(1)")) ;;
  set_prop CursorRing StyleTransform (VStr (lit "translate(-50%,-50%) scale(1)")) ;;
  set_prop CursorRing StyleOpacity (VStr (lit "0.9")).

Definition on_input_focus : M unit := set_prop Cursor StyleOpacity (VStr (lit "0")).
Definition on_input_blur : M unit := set_prop Cursor StyleOpacity (VStr (lit "1")).

End Listeners.

Import Listeners.

(** ** The page with all its listeners *)

Module FullPage.

Inductive ui_event : Type :=
| Basic (ev : event)                           (* the events of [Page] *)
| NavClick                                     (* click on #mobileNavToggle *)
| AnchorClick (a : node)                       (* click on an internal link *)
| KeyDownEvent (key : jsstring)                (* a key goes down *)
| ResetClick                                   (* click on #resetBtn *)
| TiltMove (el : node) (clientX clientY rleft rtop : number)  (* mousemove over a card *)
| TiltLeave (el : node)                        (* mouseleave of a card *)
| CursorMove (clientX clientY : number)        (* mousemove in the document *)
| CursorEnter (n : node)                       (* pointerenter of an interactive element *)
| CursorLeave (n : node)                       (* pointerleave of an interactive element *)
| InputFocus (inp : node)                      (* a control gains focus *)
| InputBlur (inp : node).                      (* a control loses focus *)

Definition ui_step (s : site) (w : world) (ev : ui_event) : world :=
  match ev with
  | Basic ev => step w ev
  | NavClick => fire MobileNavToggle Click OnNavClick on_nav_click w
  | AnchorClick a =>
      fire a Click (OnAnchorClick a) (on_anchor_click s a ;; mret ())
        (set_defaultPrevented false w)
  | KeyDownEvent key => fire Document KeyDown OnKeyDown (on_keydown key) w
  | ResetClick => fire ResetBtn Click OnResetClick (on_reset_click s) w
  | TiltMove el clientX clientY rleft rtop =>
      fire el MouseMove (OnTiltMove el) (on_tilt_move s el clientX clientY rleft rtop) w
  | TiltLeave el => fire el MouseLeave (OnTiltLeave el) (on_tilt_leave el) w
  | CursorMove clientX clientY =>
      fire Document MouseMove OnCursorMove (on_cursor_move s clientX clientY) w
  | CursorEnter n => fire n PointerEnter OnCursorEnter on_cursor_enter w
  | CursorLeave n => fire n PointerLeave OnCursorLeave on_cursor_leave w
  | InputFocus inp => fire inp FocusEvent OnInputFocus on_input_focus w
  | InputBlur inp => fire inp BlurEvent OnInputBlur on_input_blur w
  end.

Definition ui_run (s : site) (w : world) (evs : list ui_event) : world :=
  fold_left (ui_step s) evs w.

(** The states of the page under all its events. *)
Definition ui_reachable (s : site) (w : world) : Prop :=
  exists evs, w = ui_run s (load (site_env s)) evs.

End FullPage.

Import FullPage.
(** ** Facts about the page with all its listeners *)

Section FullPageFacts.

Variable s : site.

Lemma ui_run_app w evs1 evs2 :
  ui_run s w (evs1 ++ evs2) = ui_run s (ui_run s w evs1) evs2.
Proof. apply fold_left_app. Qed.

Lemma ui_run_basic evs : forall w, ui_run s w (map Basic evs) = run w evs.
Proof. induction evs as [|ev evs IH]; intros w; [done|]. simpl. apply IH. Qed.

Lemma ui_reachable_load : ui_reachable s (load (site_env s)).
Proof. by exists []. Qed.

Lemma ui_reachable_step w ev : ui_reachable s w -> ui_reachable s (ui_step s w ev).
Proof. intros [evs ->]. exists (evs ++ [ev]). by rewrite ui_run_app. Qed.

Lemma ui_reachable_run w evs : ui_reachable s w -> ui_reachable s (ui_run s w evs).
Proof. intros [evs0 ->]. exists (evs0 ++ evs). by rewrite ui_run_app. Qed.

Lemma reachable_ui w : reachable (site_env s) w -> ui_reachable s w.
Proof. intros [evs ->]. exists (map Basic evs). by rewrite ui_run_basic. Qed.

(** An observation of the state that reads neither the properties of the
    document, nor the focus, nor the event being dispatched, nor the
    reported exceptions. *)
Definition dom_blind {B} (f : world -> B) : Prop :=
  (forall x w, f (set_props x w) = f w)
  /\ (forall x w, f (set_activeElement x w) = f w)
  /\ (forall x w, f (set_defaultPrevented x w) = f w)
  /\ (forall x w, f (set_uncaught x w) = f w).

Lemma preserves_nav_click {B} (f : world -> B) :
  (forall x w, f (set_props x w) = f w) -> preserves f on_nav_click.
Proof.
  intros Hp. unfold on_nav_click.
  repeat first [ apply preserves_modify; intros ?; by rewrite Hp | frame_step ].
Qed.

Lemma preserves_click_nav_toggle {B} (f : world -> B) :
  (forall x w, f (set_props x w) = f w) -> (forall x w, f (set_uncaught x w) = f w) ->
  preserves f click_nav_toggle.
Proof.
  intros Hp Hu w. unfold click_nav_toggle. cbn [modify snd].
  apply fire_preserves; [by apply preserves_nav_click|done].
Qed.

Lemma preserves_close_nav {B} (f : world -> B) :
  (forall x w, f (set_props x w) = f w) -> (forall x w, f (set_uncaught x w) = f w) ->
  preserves f close_nav_if_open.
Proof.
  intros Hp Hu. unfold close_nav_if_open.
  apply preserves_bind; [by intros ?|]. intros attr.
  destruct (bool_decide _); [by apply preserves_click_nav_toggle|apply preserves_ret].
Qed.

(** The other listeners change only what [dom_blind] observations do
    not read. *)
Lemma ui_step_dom_blind {B} (f : world -> B) w ev :
  dom_blind f -> (forall bev, ev <> Basic bev) -> f (ui_step s w ev) = f w.
Proof.
  intros (Hp & Ha & Hd & Hu) Hev.
  assert (Hset : forall n p v, preserves f (set_prop n p v)).
  { intros n p v w'. apply Hp. }
  destruct ev; cbn [ui_step]; try (by destruct (Hev ev)).
  - apply fire_preserves; [by apply preserves_nav_click|done].
  - rewrite fire_preserves; [apply Hd| |done].
    unfold on_anchor_click.
    apply preserves_bind; [|intros ?; apply preserves_ret].
    destruct (drop 1 (href s a)); [apply preserves_ret|].
    destruct (getElementById s _); [|apply preserves_ret].
    apply preserves_bind; [intros ?; apply Hd|intros _].
    apply preserves_bind; [by apply preserves_close_nav|intros _; apply preserves_ret].
  - apply fire_preserves; [|done]. unfold on_keydown.
    destruct (bool_decide _); [by apply preserves_close_nav|apply preserves_ret].
  - apply fire_preserves; [|done]. unfold on_reset_click, form_reset.
    apply preserves_bind; [apply preserves_for_each; intros; apply Hset|intros _].
    apply preserves_bind; [apply Hset|intros _]. intros ?. apply Ha.
  - apply fire_preserves; [apply Hset|done].
  - apply fire_preserves; [apply Hset|done].
  - apply fire_preserves; [apply Hset|done].
  - apply fire_preserves; [|done]. unfold on_cursor_enter.
    repeat (apply preserves_bind; [apply Hset|intros _]). apply Hset.
  - apply fire_preserves; [|done]. unfold on_cursor_leave.
    repeat (apply preserves_bind; [apply Hset|intros _]). apply Hset.
  - apply fire_preserves; [apply Hset|done].
  - apply fire_preserves; [apply Hset|done].
Qed.

(** No listener attaches or removes a listener. *)
Lemma listeners_ui_step w ev : listeners (ui_step s w ev) = listeners w.
Proof.
  destruct ev; try (by apply ui_step_dom_blind).
  apply listeners_step.
Qed.

Lemma listeners_ui_run evs : forall w, listeners (ui_run s w evs) = listeners w.
Proof.
  induction evs as [|ev evs IH]; intros w; [done|].
  simpl. fold (ui_run s (ui_step s w ev) evs). by rewrite IH, listeners_ui_step.
Qed.

Lemma registrations_ui_reachable w target ty h :
  ui_reachable s w ->
  registrations target ty h w = registrations target ty h (load (site_env s)).
Proof. intros [evs ->]. unfold registrations. by rewrite listeners_ui_run. Qed.

End FullPageFacts.

(** ** How often each listener is registered *)

Section ListenerCounts.

Lemma length_filter_flat_map {A L} (P : L -> Prop) `{forall y, Decision (P y)}
    (Q : A -> Prop) `{forall x, Decision (Q x)} (g : A -> list L) (l : list A) :
  (forall x, length (filter P (g x)) = if decide (Q x) then 1%nat else 0%nat) ->
  length (filter P (flat_map g l)) = length (filter Q l).
Proof.
  intros Hg. induction l as [|x l IH]; [done|].
  cbn [flat_map]. rewrite filter_app, length_app, IH, Hg, filter_cons.
  by destruct (decide (Q x)).
Qed.

(** The number of times [x] occurs in [l]. *)
Definition occurrences (x : node) (l : list node) : nat :=
  length (filter (fun y => y = x) l).

Lemma occurrences_pos x l : x ∈ l <-> (0 < occurrences x l)%nat.
Proof.
  unfold occurrences. induction l as [|y l IH].
  - rewrite elem_of_nil. simpl. lia.
  - rewrite elem_of_cons, filter_cons. destruct (decide (y = x)) as [->|Hne]; simpl.
    + split; [lia|auto].
    + rewrite <- IH. split; [intros [?|?]; [congruence|done]|auto].
Qed.

Lemma occurrences_zero x l : x ∉ l <-> occurrences x l = 0%nat.
Proof. rewrite occurrences_pos. lia. Qed.

Variable e : env.

Ltac drop_foreign :=
  repeat rewrite filter_app;
  repeat (rewrite (filter_none _ (flat_map _ _))
            by (apply Forall_flat_map; intros ?; repeat constructor; congruence)).

Ltac count_listeners :=
  unfold registrations; rewrite listeners_load;
  unfold anchor_listeners, tilt_listeners, cursor_listeners;
  drop_foreign;
  destruct (tilt_enabled e), (cursor_enabled e); drop_foreign;
  rewrite ?length_app; try reflexivity.

Ltac drop_all_foreign :=
  repeat rewrite filter_app;
  repeat match goal with
  | |- context [filter ?P ?l] =>
      lazymatch l with [] => fail | _ => idtac end;
      rewrite (filter_none P l)
        by first [ apply Forall_flat_map; intros ?; repeat constructor; congruence
                 | repeat constructor; congruence ]
  end.

Ltac count_matching :=
  unfold registrations; rewrite listeners_load;
  unfold anchor_listeners, tilt_listeners, cursor_listeners;
  destruct (tilt_enabled e), (cursor_enabled e);
  drop_all_foreign; rewrite ?length_app; cbn [length Nat.add]; rewrite ?Nat.add_0_r;
  try reflexivity;
  unfold occurrences;
  (erewrite length_filter_flat_map;
   [reflexivity
   |intros x; simpl; rewrite !filter_cons, filter_nil;
    repeat (case_decide; simplify_eq; try done)]).

Lemma nav_registered_once :
  registrations MobileNavToggle Click OnNavClick (load e) = 1%nat.
Proof. count_listeners. Qed.

Lemma keydown_registered_once :
  registrations Document KeyDown OnKeyDown (load e) = 1%nat.
Proof. count_listeners. Qed.

Lemma reset_registered_once :
  registrations ResetBtn Click OnResetClick (load e) = 1%nat.
Proof. count_listeners. Qed.

Lemma anchor_registered a :
  registrations a Click (OnAnchorClick a) (load e) = occurrences a (anchor_els e).
Proof. count_matching. Qed.

Lemma tilt_move_registered el :
  registrations el MouseMove (OnTiltMove el) (load e)
  = if tilt_enabled e then occurrences el (tilt_els e) else 0%nat.
Proof. count_matching. Qed.

Lemma tilt_leave_registered el :
  registrations el MouseLeave (OnTiltLeave el) (load e)
  = if tilt_enabled e then occurrences el (tilt_els e) else 0%nat.
Proof. count_matching. Qed.

Lemma cursor_move_registered :
  registrations Document MouseMove OnCursorMove (load e)
  = if cursor_enabled e then 1%nat else 0%nat.
Proof. count_listeners. Qed.

Lemma cursor_enter_registered n :
  registrations n PointerEnter OnCursorEnter (load e)
  = if cursor_enabled e then occurrences n (interactive_els e) else 0%nat.
Proof. count_matching. Qed.

Lemma cursor_leave_registered n :
  registrations n PointerLeave OnCursorLeave (load e)
  = if cursor_enabled e then occurrences n (interactive_els e) else 0%nat.
Proof. count_matching. Qed.

Lemma input_focus_registered inp :
  registrations inp FocusEvent OnInputFocus (load e)
  = if cursor_enabled e then occurrences inp (input_els e) else 0%nat.
Proof. count_matching. Qed.

Lemma input_blur_registered inp :
  registrations inp BlurEvent OnInputBlur (load e)
  = if cursor_enabled e then occurrences inp (input_els e) else 0%nat.
Proof. count_matching. Qed.

End ListenerCounts.

(** ** Which properties the events write *)

Section WrittenProperties.

(** The properties written by the events of [Page]. *)
Definition basic_written (k : node * prop) : Prop :=
  k.2 = ClassName \/ k.2 = Value
  \/ k ∈ [(ThemeToggle, AriaPressed); (ThemeToggle, TextContent);
          (FormFeedback, TextContent); (SubmitBtn, Disabled); (SubmitBtn, TextContent)].

Ltac written_frame f Hset :=
  script_unfold;
  repeat first
    [ apply Hset; first [ by left | by right; left
                        | right; right; set_solver ]
    | frame_step ].

Lemma step_props_frame k w ev :
  ~ basic_written k -> props (step w ev) !! k = props w !! k.
Proof.
  intros Hk. pose (f := fun w => props w !! k).
  assert (Hset : forall n p v, basic_written (n, p) -> preserves f (set_prop n p v)).
  { intros n p v Hw. apply set_prop_other. by intros ->. }
  destruct ev; simpl.
  - apply (fire_preserves f); [|done]. written_frame f Hset.
  - apply (Hset field Value). by right; left.
  - apply (fire_preserves f ContactForm SubmitEvent OnFormSubmit on_submit
             (set_defaultPrevented false w)); [|done].
    written_frame f Hset.
  - apply (fire_preserves f); [|done]. script_frame.
  - done.
  - unfold deliver. destruct (observer w); [|done].
    apply (preserves_handle f); [|done]. written_frame f Hset.
  - unfold tick.
    etrans; [apply (tasks_preserve f); [|done]|done].
    intros t. destruct t; written_frame f Hset.
Qed.

Lemma run_props_frame k evs : forall w,
  ~ basic_written k -> props (run w evs) !! k = props w !! k.
Proof.
  induction evs as [|ev evs IH]; intros w Hk; [done|].
  simpl. fold (run (step w ev) evs). by rewrite IH, step_props_frame.
Qed.

(** The properties written by the start-up code. *)
Definition load_written (e : env) (k : node * prop) : Prop :=
  (exists el, el ∈ reveal_els e /\ (k = (el, ClassName) \/ k = (el, StyleTransitionDelay)))
  \/ k ∈ [(YearEl, TextContent); (Body, ClassName); (ThemeToggle, AriaPressed);
          (ThemeToggle, TextContent); (Cursor, StyleDisplay)].

Lemma load_props_frame e k :
  ~ load_written e k -> props (load e) !! k = markup e !! k.
Proof.
  intros Hk. pose (f := fun w => props w !! k).
  assert (Hset : forall n p v, load_written e (n, p) -> preserves f (set_prop n p v)).
  { intros n p v Hw. apply set_prop_other. by intros ->. }
  change (f (load e) = f (fresh e)). apply load_preserved.
  script_unfold.
  repeat first
    [ apply Hset; first [ right; set_solver | left; eexists; split; [eassumption|]; by auto ]
    | frame_step ].
Qed.

End WrittenProperties.

(** ** Invariants of the page with all its listeners *)

Section UiInvariants.

Context (s : site) (P : world -> Prop).

Hypothesis P_basic : forall w ev, P w -> P (step w ev).
Hypothesis P_uncaught : forall x w, P w -> P (set_uncaught x w).
Hypothesis P_event : forall b w, P w -> P (set_defaultPrevented b w).
Hypothesis P_nav : stable P on_nav_click.
Hypothesis P_reset : stable P (on_reset_click s).
Hypothesis P_style : forall n p v,
  p = StyleTransform \/ p = StyleOpacity -> stable P (set_prop n p (VStr v)).

Lemma ui_fire_stable target ty h body w :
  stable P body -> P w -> P (fire target ty h body w).
Proof. by apply fire_stable. Qed.

Lemma stable_close_nav : stable P close_nav_if_open.
Proof.
  unfold close_nav_if_open. apply stable_bind; [by intros ? ?|intros attr].
  destruct (bool_decide _); [|apply stable_ret].
  intros w Hw. unfold click_nav_toggle. cbn [modify snd]. by apply ui_fire_stable.
Qed.

(** What the other listeners keep, their events keep. *)
Lemma ui_other_stable w ev :
  (forall bev, ev <> Basic bev) -> P w -> P (ui_step s w ev).
Proof.
  intros Hev Hw. destruct ev; cbn [ui_step].
  - by destruct (Hev ev).
  - by apply ui_fire_stable.
  - apply ui_fire_stable; [|by apply P_event]. unfold on_anchor_click.
    apply stable_bind; [|intros ?; apply stable_ret].
    destruct (drop 1 (href s a)); [apply stable_ret|].
    destruct (getElementById s _); [|apply stable_ret].
    apply stable_bind; [intros ? ?; by apply P_event|intros _].
    apply stable_bind; [apply stable_close_nav|intros _; apply stable_ret].
  - apply ui_fire_stable; [|done]. unfold on_keydown.
    destruct (bool_decide _); [apply stable_close_nav|apply stable_ret].
  - by apply ui_fire_stable.
  - apply ui_fire_stable; [|done]. apply P_style. by left.
  - apply ui_fire_stable; [|done]. apply P_style. by left.
  - apply ui_fire_stable; [|done]. apply P_style. by left.
  - apply ui_fire_stable; [|done]. unfold on_cursor_enter.
    repeat (apply stable_bind; [apply P_style; auto|intros _]). apply P_style; auto.
  - apply ui_fire_stable; [|done]. unfold on_cursor_leave.
    repeat (apply stable_bind; [apply P_style; auto|intros _]). apply P_style; auto.
  - apply ui_fire_stable; [|done]. apply P_style. by right.
  - apply ui_fire_stable; [|done]. apply P_style. by right.
Qed.

Lemma ui_step_stable w ev : P w -> P (ui_step s w ev).
Proof.
  intros Hw. destruct ev as [ev| | | | | | | | | | |];
    [by apply P_basic|by apply ui_other_stable..].
Qed.

Lemma ui_run_stable evs : forall w, P w -> P (ui_run s w evs).
Proof.
  induction evs as [|ev evs IH]; intros w Hw; [done|].
  simpl. apply IH. by apply ui_step_stable.
Qed.

End UiInvariants.

Section EventFrames.

Variable s : site.

(** The properties written by any event of the page. *)
Definition event_written (k : node * prop) : Prop :=
  basic_written k \/ k.2 = StyleTransform \/ k.2 = StyleOpacity
  \/ k ∈ [(MobileNavToggle, AriaExpanded); (MobileNavToggle, TextContent);
          (Nav, StyleDisplay)].

Lemma ui_step_props_frame k w ev :
  ~ event_written k -> props (ui_step s w ev) !! k = props w !! k.
Proof.
  intros Hk. pose (f := fun w => props w !! k).
  assert (Hset : forall n p v, event_written (n, p) -> preserves f (set_prop n p v)).
  { intros n p v Hw. apply set_prop_other. by intros ->. }
  assert (Hst : forall {A} (m : M A), preserves f m ->
                  stable (fun w' => props w' !! k = props w !! k) m).
  { intros A m Hm w' Hw'. rewrite <- Hw'. apply Hm. }
  apply (ui_step_stable s (fun w' => props w' !! k = props w !! k)); try done.
  - intros w' ev' <-. apply step_props_frame. intros Hb. apply Hk. by left.
  - apply Hst. unfold on_nav_click.
    repeat first [ apply Hset; right; right; right; set_solver | frame_step ].
  - apply Hst. unfold on_reset_click, form_reset.
    repeat first [ apply Hset; left; first [ by right; left | right; right; set_solver ]
                 | frame_step ].
  - intros n p v Hp. apply Hst, Hset. right. tauto.
Qed.

Lemma ui_run_props_frame k evs : forall w,
  ~ event_written k -> props (ui_run s w evs) !! k = props w !! k.
Proof.
  induction evs as [|ev evs IH]; intros w Hk; [done|].
  simpl. fold (ui_run s (ui_step s w ev) evs). by rewrite IH, ui_step_props_frame.
Qed.

End EventFrames.

(** Case analysis on membership in a list that is written out. *)
Ltac elem_cases H :=
  repeat (apply elem_of_cons in H; destruct H as [H|H]);
  [..|by apply elem_of_nil in H].

(** A key is none of the written ones. *)
Ltac not_written :=
  let H := fresh "Hw" in
  intros H;
  first [ destruct H as [[H|[H|H]]|[H|[H|H]]] | destruct H as [H|[H|H]] ];
  try discriminate H; elem_cases H; discriminate H.

(** ** Facts about the navigation toggle *)

Section NavFacts.

(** The two flags of the navigation: the [aria-expanded] attribute of
    the toggle, and the inline [display] of the panel. *)
Definition nav_expanded (w : world) : bool :=
  bool_decide (str_prop w MobileNavToggle AriaExpanded = lit "true").

Definition nav_shown (w : world) : bool :=
  bool_decide (str_prop w Nav StyleDisplay = lit "block").

(** The state one run of the listener of the toggle leaves. *)
Definition nav_toggled (w : world) : world :=
  set_props
    (<[(MobileNavToggle, TextContent) := VStr (if nav_shown w then glyph_menu else glyph_close)]>
       (<[(Nav, StyleDisplay) := VStr (if nav_shown w then [] else lit "block")]>
          (<[(MobileNavToggle, AriaExpanded) :=
               VStr (string_of_bool (negb (nav_expanded w)))]> (props w))))
    w.

Lemma nav_click_total : total on_nav_click.
Proof. unfold on_nav_click. repeat total_step. Qed.

Lemma nav_click_exec w : exec on_nav_click w = nav_toggled w.
Proof.
  unfold exec, on_nav_click, nav_toggled, nav_shown, nav_expanded.
  unfold mbind, M_bind, set_prop, get_str, gets, modify. simpl.
  rewrite (str_prop_insert_ne w) by done.
  by destruct (bool_decide (str_prop w Nav StyleDisplay = lit "block")).
Qed.

Lemma nav_toggled_expanded w : nav_expanded (nav_toggled w) = negb (nav_expanded w).
Proof.
  unfold nav_expanded at 1, nav_toggled, str_prop. cbn [props set_props].
  rewrite !lookup_insert_ne, lookup_insert_eq by done.
  by destruct (nav_expanded w).
Qed.

Lemma nav_toggled_shown w : nav_shown (nav_toggled w) = negb (nav_shown w).
Proof.
  unfold nav_shown at 1, nav_toggled, str_prop. cbn [props set_props].
  rewrite lookup_insert_ne, lookup_insert_eq by done.
  by destruct (nav_shown w).
Qed.

Variable s : site.

Lemma fire_nav_click w :
  listeners w = listeners (load (site_env s)) ->
  fire MobileNavToggle Click OnNavClick on_nav_click w = nav_toggled w.
Proof.
  intros Hl. unfold fire, registrations. rewrite Hl.
  fold (registrations MobileNavToggle Click OnNavClick (load (site_env s))).
  rewrite nav_registered_once.
  simpl. rewrite handle_total by apply nav_click_total. apply nav_click_exec.
Qed.

Lemma ui_step_nav_click w : ui_reachable s w -> ui_step s w NavClick = nav_toggled w.
Proof.
  intros [evs ->]. apply fire_nav_click, listeners_ui_run.
Qed.

Lemma close_nav_exec w :
  listeners w = listeners (load (site_env s)) ->
  close_nav_if_open w = (Ok (), if nav_expanded w then nav_toggled w else w).
Proof.
  intros Hw. unfold close_nav_if_open, mbind, M_bind, get_str, gets.
  fold (nav_expanded w). destruct (nav_expanded w); [|done].
  unfold click_nav_toggle, modify. f_equal.
  by apply fire_nav_click.
Qed.

(** The two flags depend only on two properties. *)
Lemma nav_flags_frame w w' :
  props w' !! (MobileNavToggle, AriaExpanded) = props w !! (MobileNavToggle, AriaExpanded) ->
  props w' !! (Nav, StyleDisplay) = props w !! (Nav, StyleDisplay) ->
  nav_expanded w' = nav_expanded w /\ nav_shown w' = nav_shown w.
Proof.
  intros H1 H2. unfold nav_expanded, nav_shown, str_prop. by rewrite H1, H2.
Qed.

End NavFacts.

(** ** Facts about the keyboard, link and reset listeners *)

Section LinkFacts.

Variable s : site.

Lemma loaded_listeners w : ui_reachable s w -> listeners w = listeners (load (site_env s)).
Proof. intros [evs ->]. apply listeners_ui_run. Qed.

(** A listener that runs at least once and whose second run changes
    nothing more. *)
Lemma iter_idempotent {A} (f : A -> A) (n : nat) (x : A) :
  (0 < n)%nat -> f (f x) = f x -> Nat.iter n f x = f x.
Proof.
  intros Hn Hf. destruct n as [|n]; [lia|]. clear Hn.
  induction n as [|n IH]; [done|].
  change (Nat.iter (S (S n)) f x) with (f (Nat.iter (S n) f x)). by rewrite IH.
Qed.

Lemma keydown_exec key w :
  listeners w = listeners (load (site_env s)) ->
  on_keydown key w
  = (Ok (), if bool_decide (key = lit "Escape") && nav_expanded w then nav_toggled w else w).
Proof.
  intros Hw. unfold on_keydown. destruct (bool_decide (key = lit "Escape")); [|done].
  by rewrite (close_nav_exec s).
Qed.

Lemma ui_step_keydown key w :
  ui_reachable s w ->
  ui_step s w (KeyDownEvent key)
  = if bool_decide (key = lit "Escape") && nav_expanded w then nav_toggled w else w.
Proof.
  intros Hw. cbn [ui_step]. unfold fire.
  rewrite (registrations_ui_reachable s) by done. rewrite keydown_registered_once.
  cbn [Nat.iter nat_rect]. unfold handle. by rewrite keydown_exec by by apply loaded_listeners.
Qed.

(** The state the listener of a link leaves when it finds its target. *)
Definition scrolled_to (w : world) : world :=
  if nav_expanded w
  then nav_toggled (set_defaultPrevented true w)
  else set_defaultPrevented true w.

Lemma anchor_click_exec a w :
  listeners w = listeners (load (site_env s)) ->
  on_anchor_click s a w
  = match drop 1 (href s a) with
    | [] => (Ok None, w)
    | c :: id =>
        match getElementById s (c :: id) with
        | Some target => (Ok (Some target), scrolled_to w)
        | None => (Ok None, w)
        end
    end.
Proof.
  intros Hw. unfold on_anchor_click. destruct (drop 1 (href s a)) as [|c id]; [done|].
  destruct (getElementById s (c :: id)) as [target|]; [|done].
  unfold mbind, M_bind, preventDefault, modify.
  rewrite (close_nav_exec s) by done.
  unfold scrolled_to.
  change (nav_expanded (set_defaultPrevented true w)) with (nav_expanded w).
  by destruct (nav_expanded w).
Qed.

Lemma scrolled_to_closed w : nav_expanded (scrolled_to w) = false.
Proof.
  unfold scrolled_to. destruct (nav_expanded w) eqn:E.
  - rewrite nav_toggled_expanded.
    change (nav_expanded (set_defaultPrevented true w)) with (nav_expanded w).
    by rewrite E.
  - exact E.
Qed.

Lemma scrolled_to_twice w : scrolled_to (scrolled_to w) = scrolled_to w.
Proof.
  unfold scrolled_to at 1. rewrite scrolled_to_closed.
  unfold scrolled_to. by destruct (nav_expanded w).
Qed.

Lemma scrolled_to_listeners w : listeners (scrolled_to w) = listeners w.
Proof. unfold scrolled_to. by destruct (nav_expanded w). Qed.

End LinkFacts.

(** ** Facts about the reset listener *)

Section ResetFacts.

Variable s : site.

(** The controls [form.reset()] goes through. *)
Definition controls : list node :=
  FieldName :: FieldEmail :: FieldMessage :: more_controls s.

Lemma reset_total : total (on_reset_click s).
Proof. unfold on_reset_click, form_reset. repeat total_step. Qed.

Lemma form_reset_value c w :
  c ∈ controls -> str_prop (exec (form_reset s) w) c Value = default_value s c.
Proof.
  intros Hc. unfold form_reset. fold controls.
  apply (for_each_establishes (fun w => str_prop w c Value = default_value s c)
           controls _ c Hc).
  - intros w0. unfold exec, set_prop, modify. cbn [snd]. apply str_prop_insert_eq.
  - intros y w0 Hw0. cbn [snd set_prop modify].
    destruct (decide (y = c)) as [->|Hne]; [apply str_prop_insert_eq|].
    rewrite str_prop_insert_ne by congruence. exact Hw0.
  - intros y. repeat total_step.
Qed.

Lemma form_reset_frame {B} (f : world -> B) :
  (forall n v, preserves f (set_prop n Value v)) -> preserves f (form_reset s).
Proof. intros Hset. unfold form_reset. apply preserves_for_each. intros; apply Hset. Qed.

Lemma ui_step_reset w :
  ui_reachable s w -> ui_step s w ResetClick = exec (on_reset_click s) w.
Proof.
  intros Hw. cbn [ui_step]. unfold fire.
  rewrite (registrations_ui_reachable s) by done. rewrite reset_registered_once.
  cbn [Nat.iter nat_rect]. apply handle_total, reset_total.
Qed.

End ResetFacts.

(** ** Invariants that do not read the document *)

Section BlindInvariants.

Variable s : site.

(** An invariant of the events of [Page] that looks only at a part of the
    state the other listeners leave alone holds under all events. *)
Lemma ui_run_blind_invariant {B} (f : world -> B) (Q : B -> Prop) :
  dom_blind f ->
  (forall w ev, Q (f w) -> Q (f (step w ev))) ->
  forall evs w, Q (f w) -> Q (f (ui_run s w evs)).
Proof.
  intros Hf Hstep evs. induction evs as [|ev evs IH]; intros w Hw; [done|].
  simpl. apply IH. destruct ev; try (rewrite ui_step_dom_blind; done).
  by apply Hstep.
Qed.

Lemma ui_run_blind {B} (f : world -> B) :
  dom_blind f ->
  forall evs w, Forall (fun ev => forall bev, ev <> Basic bev) evs -> f (ui_run s w evs) = f w.
Proof.
  intros Hf evs. induction evs as [|ev evs IH]; intros w Hevs; [done|].
  apply Forall_cons in Hevs as [Hev Hevs]. simpl.
  fold (ui_run s (ui_step s w ev) evs). rewrite IH by done. by apply ui_step_dom_blind.
Qed.

End BlindInvariants.

(** ** Facts about the theme toggle and its controls *)

Section ThemeControls.

Import TokenList.

(** The toggle's [aria-pressed], its glyph and the stored preference all
    say whether the body carries ["theme-dark"], and ["theme-light"] is on
    the body exactly when ["theme-dark"] is not. *)
Definition theme_controls_agree (w : world) : Prop :=
  let dark := contains (body_class w) theme_dark in
  props w !! (ThemeToggle, AriaPressed) = Some (VStr (string_of_bool dark))
  /\ props w !! (ThemeToggle, TextContent)
     = Some (VStr (if dark then glyph_sun else glyph_moon))
  /\ localStorage w !! site_theme = Some (if dark then theme_dark else theme_light)
  /\ contains (body_class w) theme_light = negb dark.

(** What [theme_controls_agree] reads. *)
Definition theme_view (w : world) :=
  (props w !! (ThemeToggle, AriaPressed), props w !! (ThemeToggle, TextContent),
   localStorage w !! site_theme,
   contains (body_class w) theme_dark,
   contains (body_class w) theme_light).

Lemma theme_view_agree w w' :
  theme_view w' = theme_view w -> theme_controls_agree w -> theme_controls_agree w'.
Proof.
  unfold theme_view, theme_controls_agree. intros [= H1 H2 H3 H4 H5].
  by rewrite H1, H2, H3, H4, H5.
Qed.

Lemma theme_view_set_prop n p v :
  (n, p) <> (ThemeToggle, AriaPressed) -> (n, p) <> (ThemeToggle, TextContent) ->
  (n, p) <> (Body, ClassName) ->
  preserves theme_view (set_prop n p v).
Proof.
  intros H1 H2 H3 w. unfold theme_view, body_class, str_prop. cbn [snd set_prop modify].
  cbn [props localStorage set_props]. by rewrite !lookup_insert_ne.
Qed.

Lemma theme_view_add el u :
  valid_token u -> u <> theme_dark -> u <> theme_light ->
  preserves theme_view (classList_add el u).
Proof.
  intros Hu Hd Hl w. unfold theme_view, body_class, classList_add.
  unfold mbind, M_bind, get_str, gets, set_prop, modify. cbn [snd].
  unfold str_prop. cbn [props localStorage set_props].
  rewrite !(lookup_insert_ne _ (el, ClassName) (ThemeToggle, _)) by done.
  destruct (decide (el = Body)) as [->|Hne].
  - rewrite lookup_insert_eq.
    fold (str_prop w Body ClassName).
    by rewrite !contains_add_other.
  - by rewrite lookup_insert_ne by congruence.
Qed.

Lemma theme_click_agrees w : theme_controls_agree (exec on_theme_click w).
Proof.
  rewrite theme_click_exec. cbn zeta. rewrite toggle_fst.
  unfold theme_controls_agree, body_class, str_prop.
  cbn [props localStorage set_props set_localStorage].
  rewrite !lookup_insert_eq.
  rewrite (lookup_insert_ne _ (ThemeToggle, TextContent) (ThemeToggle, AriaPressed)) by done.
  rewrite !(lookup_insert_ne _ (ThemeToggle, _) (Body, ClassName)) by done.
  rewrite !lookup_insert_eq.
  fold (str_prop w Body ClassName). fold (body_class w).
  rewrite toggled_class_dark, toggled_class_light.
  by destruct (contains (body_class w) theme_dark).
Qed.

End ThemeControls.

(** ** A send under way *)

Section Pending.

Variable s : site.

Definition is_ui_tick (ev : ui_event) : bool :=
  match ev with Basic Tick => true | _ => false end.

(** The milliseconds that pass during a list of events. *)
Definition ui_elapsed (evs : list ui_event) : nat :=
  length (filter (fun ev => is_ui_tick ev = true) evs).

Lemma now_ui_step w ev :
  now (ui_step s w ev) = (now w + if is_ui_tick ev then 1 else 0)%Z.
Proof.
  destruct ev as [ev| | | | | | | | | | |];
    try (rewrite ui_step_dom_blind by done; cbn; lia).
  cbn [ui_step]. rewrite now_step. by destruct ev.
Qed.

Lemma now_ui_run evs : forall w,
  now (ui_run s w evs) = (now w + Z.of_nat (ui_elapsed evs))%Z.
Proof.
  induction evs as [|ev evs IH]; intros w; [cbn; lia|].
  cbn [ui_run fold_left]. fold (ui_run s (ui_step s w ev) evs).
  rewrite IH, now_ui_step. unfold ui_elapsed. rewrite filter_cons.
  destruct (is_ui_tick ev); cbn [decide_rel]; case_decide; try done;
    cbn [length]; lia.
Qed.

(** The handle kept in [ringAnim] is one that was handed out. *)
Definition handle_known (w : world) : Prop :=
  forall i, ringAnim w = Some i -> i < next_timer_id w.

Lemma handle_known_frame {A} (m : M A) :
  preserves ringAnim m -> preserves next_timer_id m -> stable handle_known m.
Proof. intros H1 H2 w Hw i. rewrite H1, H2. apply Hw. Qed.

Lemma handle_known_load e : handle_known (load e).
Proof.
  unfold load. apply stable_handle; [| |by intros i].
  - unfold main. repeat (apply stable_bind; [|intros ?]).
    all: try solve [apply handle_known_frame; script_frame].
    unfold cursor_init.
    destruct (has_cursor e && negb (isTouch e) && negb (prefersReduced e));
      [|apply handle_known_frame; script_frame].
    do 3 (apply stable_bind; [apply handle_known_frame; script_frame|intros ?]).
    apply stable_bind; [|intros ?; apply handle_known_frame; script_frame].
    unfold startRingPulse. intros w _ i.
    unfold mbind, M_bind, setInterval, add_timer, modify. cbn. intros [= <-]. lia.
  - intros x w Hw. exact Hw.
Qed.

Lemma handle_known_reachable w : ui_reachable s w -> handle_known w.
Proof.
  intros [evs ->].
  refine (ui_run_blind_invariant s (fun w => (ringAnim w, next_timer_id w))
            (fun p => forall i, p.1 = Some i -> i < p.2) _ _ evs _ _);
    [done| |apply handle_known_load].
  intros w ev. apply (step_stable handle_known); try done.
  - apply handle_known_frame; script_frame.
  - intros w0 Hw0 i. change (snd (on_submit w0)) with (exec on_submit w0).
    rewrite on_submit_result. unfold submit_result.
    repeat case_match; cbn; intros Hi; apply Hw0 in Hi; lia.
  - apply handle_known_frame; script_frame.
  - intros entries. apply handle_known_frame; script_frame.
  - intros t. apply handle_known_frame; destruct t; script_frame.
  - intros field text. by apply handle_known_frame.
Qed.

(** The timer [x] is the last one of the table and is not the interval
    that a blur of the window clears. *)
Definition pending (x : timer) (w : world) : Prop :=
  (exists ts, timers w = ts ++ [x]) /\ (forall i, ringAnim w = Some i -> i <> timer_id x).

Lemma pending_frame x {A} (m : M A) :
  preserves timers m -> preserves ringAnim m -> stable (pending x) m.
Proof. intros H1 H2 w Hw. unfold pending. by rewrite H1, H2. Qed.

Lemma pending_blur x : stable (pending x) on_window_blur.
Proof.
  intros w [[ts Hts] Hid]. unfold on_window_blur, mbind, M_bind, gets, clearInterval, modify.
  cbn [snd]. destruct (ringAnim w) as [i|] eqn:Hr; [|by split; [exists ts|rewrite Hr]].
  split; [|by cbn; rewrite Hr].
  cbn. rewrite Hts, filter_app, filter_cons, filter_nil.
  rewrite decide_True by (intros He; by apply (Hid i)).
  by eexists.
Qed.

Lemma pending_tick x w :
  pending x w -> (now w + 1 < timer_due x)%Z -> pending x (tick w).
Proof.
  intros [[ts Hts] Hid] Hdue. split.
  - rewrite tick_timers, Hts, reschedule_app. eexists. f_equal.
    unfold reschedule. cbn [flat_map]. unfold is_due.
    destruct (Z.leb_spec (timer_due x) (now w + 1)); [lia|done].
  - assert (Hr : ringAnim (tick w) = ringAnim w); [|by rewrite Hr].
    unfold tick. rewrite (tasks_preserve ringAnim); [done| |done].
    apply task_preserves_ringAnim.
Qed.

Lemma pending_step x w ev :
  pending x w -> ev <> Basic Submit ->
  (is_ui_tick ev = true -> (now w + 1 < timer_due x)%Z) ->
  pending x (ui_step s w ev).
Proof.
  intros Hw Hev Hdue.
  destruct ev as [ev| | | | | | | | | | |];
    try (destruct Hw as [[ts Hts] Hid]; split;
         [exists ts; by rewrite ui_step_dom_blind|by rewrite ui_step_dom_blind]).
  cbn [ui_step]. destruct ev as [|field text| | | |changes|]; cbn [step]; try done.
  - apply fire_stable; [done| |done]. apply pending_frame; script_frame.
  - apply fire_stable; [done|apply pending_blur|done].
  - unfold deliver. destruct (observer w); [|done].
    apply stable_handle; [|done|done]. apply pending_frame; script_frame.
  - apply pending_tick; [done|by apply Hdue].
Qed.

Lemma pending_run x evs : forall w,
  pending x w -> Forall (fun ev => ev <> Basic Submit) evs ->
  (now w + Z.of_nat (ui_elapsed evs) < timer_due x)%Z ->
  pending x (ui_run s w evs).
Proof.
  induction evs as [|ev evs IH]; intros w Hw Hevs Hdue; [done|].
  apply Forall_cons in Hevs as [Hev Hevs].
  cbn [ui_run fold_left]. fold (ui_run s (ui_step s w ev) evs).
  assert (Hel : ui_elapsed (ev :: evs)
                = ((if is_ui_tick ev then 1 else 0) + ui_elapsed evs)%nat).
  { unfold ui_elapsed. rewrite filter_cons.
    destruct (is_ui_tick ev); case_decide; try done. }
  rewrite Hel in Hdue.
  apply IH; [|done|].
  - apply pending_step; [done|done|]. intros Ht. rewrite Ht in Hdue. lia.
  - rewrite now_ui_step. destruct (is_ui_tick ev); lia.
Qed.

Lemma ui_step_submit w :
  ui_reachable s w -> ui_step s w (Basic Submit) = submit_result w.
Proof.
  intros Hw. cbn [ui_step step]. unfold fire.
  change (registrations ?t ?y ?h (set_defaultPrevented false w))
    with (registrations t y h w).
  rewrite (registrations_ui_reachable s) by done. rewrite form_registered_once.
  cbn [Nat.iter nat_rect]. rewrite handle_total by script_total.
  by rewrite on_submit_result.
Qed.

End Pending.

(** ** Facts about [trim] *)

Section TrimFacts.

Definition all_white_space (s : jsstring) : Prop :=
  Forall (fun c => is_white_space c = true) s.

Lemma trimStart_split s :
  exists ws, s = ws ++ trimStart s /\ all_white_space ws.
Proof.
  induction s as [|c s (ws & Hs & Hws)]; [exists []; split; [done|constructor]|].
  simpl. destruct (is_white_space c) eqn:Hc.
  - exists (c :: ws). split; [simpl; by rewrite <- Hs|by constructor].
  - exists []. split; [done|constructor].
Qed.

Lemma trimEnd_split s :
  exists ws, s = trimEnd s ++ ws /\ all_white_space ws.
Proof.
  destruct (trimStart_split (rev s)) as (ws & Hs & Hws).
  exists (rev ws). split.
  - unfold trimEnd. rewrite <- rev_app_distr, <- Hs. by rewrite rev_involutive.
  - unfold all_white_space. by apply Forall_rev.
Qed.

Lemma trimStart_head s c rest :
  trimStart s = c :: rest -> is_white_space c = false.
Proof.
  induction s as [|d s IH]; [done|]. simpl.
  destruct (is_white_space d) eqn:Hd; [done|]. by intros [= <- <-].
Qed.

Lemma trimStart_white s : all_white_space s -> trimStart s = [].
Proof.
  induction 1 as [|c s Hc _ IH]; [done|]. simpl. by rewrite Hc.
Qed.

(** A string of white space only trims to the empty string. *)
Lemma trim_white s : all_white_space s -> trim s = [].
Proof. intros Hs. unfold trim. by rewrite trimStart_white. Qed.

Lemma white_space_not_surrogate c :
  is_white_space c = true ->
  is_trailing_surrogate c = false /\ is_leading_surrogate c = false.
Proof.
  unfold is_white_space, is_trailing_surrogate, is_leading_surrogate, in_range.
  intros Hc.
  repeat rewrite orb_true_iff in Hc. repeat rewrite andb_true_iff in Hc.
  rewrite ?N.leb_le, ?N.eqb_eq in Hc.
  split; apply andb_false_iff; rewrite !N.leb_gt; lia.
Qed.

Lemma well_formed_drop_white ws s :
  all_white_space ws -> well_formed (ws ++ s) = well_formed s.
Proof.
  induction 1 as [|c ws Hc _ IH]; [done|]. simpl.
  by destruct (white_space_not_surrogate c Hc) as [-> ->].
Qed.

Lemma well_formed_cut_white s : forall ws,
  all_white_space ws -> well_formed (s ++ ws) = true -> well_formed s = true.
Proof.
  induction s as [|c rest IH1 IH2] using list_pair_ind; intros ws Hws; [done|].
  simpl. destruct (is_trailing_surrogate c); [done|].
  destruct (is_leading_surrogate c); [|by apply IH1].
  destruct rest as [|d rest']; simpl.
  - destruct Hws as [|d ws Hd _]; [done|].
    destruct (white_space_not_surrogate d Hd) as [-> _]. done.
  - intros [-> Hr]%andb_true_iff. simpl. by apply (IH2 d rest' eq_refl ws).
Qed.

(** Trimming keeps a string free of unpaired surrogates. *)
Lemma well_formed_trim s : well_formed s = true -> well_formed (trim s) = true.
Proof.
  intros Hs. unfold trim.
  destruct (trimStart_split s) as (ws1 & H1 & Hws1).
  rewrite H1, well_formed_drop_white in Hs by done.
  destruct (trimEnd_split (trimStart s)) as (ws2 & H2 & Hws2).
  rewrite H2 in Hs. by apply (well_formed_cut_white _ ws2).
Qed.

End TrimFacts.

(** ** Text without unpaired surrogates *)

Section WellFormedText.

Variable s : site.

(** The three text controls of the form. *)
Definition fields : list node := [FieldName; FieldEmail; FieldMessage].

(** The three controls hold well-formed text, and so does every send
    that is under way. *)
Definition text_well_formed (w : world) : Prop :=
  (forall f, f ∈ fields -> well_formed (str_prop w f Value) = true)
  /\ (forall x name email message,
        x ∈ timers w -> timer_task x = SubmitDone name email message ->
        well_formed name = true /\ well_formed email = true /\ well_formed message = true).

(** What [text_well_formed] reads, and the reported exceptions. *)
Definition text_view (w : world) :=
  (props w !! (FieldName, Value), props w !! (FieldEmail, Value),
   props w !! (FieldMessage, Value), timers w, uncaught w).

Definition calm (u : list error) (w : world) : Prop :=
  text_well_formed w /\ uncaught w = u.

Lemma text_view_calm u w w' : text_view w' = text_view w -> calm u w -> calm u w'.
Proof.
  unfold text_view, calm, text_well_formed, str_prop.
  intros [= H1 H2 H3 H4 H5] [[Hf Ht] Hu]. rewrite H4, H5. split; [split|]; try done.
  intros f Hf'. specialize (Hf f Hf'). unfold fields in Hf'.
  elem_cases Hf'; subst f; by rewrite ?H1, ?H2, ?H3.
Qed.

Lemma text_view_set_prop n p v : p <> Value -> preserves text_view (set_prop n p v).
Proof.
  intros Hp w. unfold text_view. cbn [snd set_prop modify props timers uncaught set_props].
  rewrite !lookup_insert_ne; [done|..]; congruence.
Qed.

Lemma calm_frame u {A} (m : M A) : preserves text_view m -> stable (calm u) m.
Proof. intros Hm w Hw. by apply (text_view_calm u w), Hw. Qed.

(** A listener that always returns runs as many times as it is
    registered and keeps what each run keeps. *)
Lemma fire_calm (P : world -> Prop) target ty h body w :
  total body -> stable P body -> P w -> P (fire target ty h body w).
Proof.
  intros Ht Hs Hw. unfold fire. generalize (registrations target ty h w) as n.
  induction n as [|n IH]; [done|].
  rewrite Nat.iter_succ, handle_total by done. by apply Hs.
Qed.

Lemma calm_input u field text w :
  (field ∈ fields -> well_formed text = true) ->
  calm u w -> calm u (exec (set_prop field Value (VStr text)) w).
Proof.
  intros Hwf [[Hf Ht] Hu]. split; [split|]; try done.
  intros f Hin. unfold exec, set_prop, modify. cbn [snd].
  destruct (decide (f = field)) as [->|Hne].
  - rewrite str_prop_insert_eq. by apply Hwf.
  - rewrite str_prop_insert_ne by congruence. by apply Hf.
Qed.

Lemma calm_submit u : stable (calm u) on_submit.
Proof.
  intros w [[Hf Ht] Hu]. change (snd (on_submit w)) with (exec on_submit w).
  rewrite on_submit_result. unfold submit_result.
  assert (Hrej : forall msg f, calm u (rejected msg f w)).
  { intros msg f. apply (text_view_calm u w); [|done].
    unfold text_view, rejected. cbn [props timers uncaught set_props set_activeElement
                                     set_defaultPrevented].
    by rewrite !lookup_insert_ne. }
  repeat case_match; try apply Hrej.
  split; [split|]; [| |done].
  - intros f Hin. unfold accepted, str_prop.
    cbn [props set_props set_next_timer_id set_timers set_defaultPrevented].
    unfold fields in Hin. elem_cases Hin; subst f; rewrite !lookup_insert_ne by done.
    + apply (Hf FieldName). by left.
    + apply (Hf FieldEmail). by right; left.
    + apply (Hf FieldMessage). by right; right; left.
  - intros x name email message. unfold accepted.
    cbn [timers set_next_timer_id set_timers]. intros [Hx|Hx]%elem_of_app.
    + by apply Ht.
    + apply list_elem_of_singleton in Hx as ->. cbn [timer_task]. intros [= <- <- <-].
      unfold field_value.
      repeat split; apply well_formed_trim, Hf; unfold fields;
        repeat first [ by left | right ].
Qed.

Lemma calm_task u x w :
  (forall name email message, timer_task x = SubmitDone name email message ->
     well_formed name = true /\ well_formed email = true /\ well_formed message = true) ->
  calm u w -> calm u (handle (run_task (timer_task x)) w).
Proof.
  intros Hx Hw. destruct (timer_task x) as [name email message|]; cbn [run_task].
  - destruct (Hx name email message eq_refl) as (Hn & He & Hm).
    apply encode_well_formed in Hn as [n' Hn], He as [e' He], Hm as [m' Hm].
    rewrite (submit_done_ok _ _ _ _ _ _ w Hn He Hm).
    apply (text_view_calm u w); [|done].
    unfold text_view, submit_done_props.
    cbn [props timers uncaught set_props set_location_href].
    by rewrite !lookup_insert_ne.
  - rewrite handle_total by script_total. by apply (calm_frame u ring_pulse).
Qed.

Lemma calm_tick u w : calm u w -> calm u (tick w).
Proof.
  intros [[Hf Ht] Hu]. rewrite tick_unfold.
  set (t := (now w + 1)%Z).
  assert (Hdue : forall x, x ∈ filter (fun x => is_due t x = true) (timers w) ->
            forall name email message, timer_task x = SubmitDone name email message ->
            well_formed name = true /\ well_formed email = true /\ well_formed message = true).
  { intros x [_ Hx]%list_elem_of_filter. intros name email message. by apply Ht. }
  assert (H0 : calm u (set_now t (set_timers (reschedule t (timers w)) w))).
  { split; [split|]; [done| |done].
    intros y name email message. cbn [timers set_now set_timers]. unfold reschedule.
    rewrite list_elem_of_In, in_flat_map. intros (x & Hx%list_elem_of_In & Hy).
    destruct (is_due t x).
    - unfold after_firing in Hy. destruct (timer_period x); [|done].
      destruct Hy as [<-|[]]. cbn [timer_task]. by apply Ht.
    - destruct Hy as [<-|[]]. by apply Ht. }
  revert H0 Hdue.
  generalize (set_now t (set_timers (reschedule t (timers w)) w)) as w0.
  generalize (filter (fun x => is_due t x = true) (timers w)) as due.
  induction due as [|x due IH]; intros w0 H0 Hdue; [done|].
  cbn [fire_all fold_left]. apply IH.
  - apply calm_task; [|done]. apply Hdue. by left.
  - intros y Hy. apply Hdue. by right.
Qed.

End WellFormedText.

Section NoException.

Variable s : site.

(** The text an event types into one of the three controls has no
    unpaired surrogate. *)
Definition input_well_formed (ev : ui_event) : Prop :=
  match ev with
  | Basic (Input field text) => field ∈ fields -> well_formed text = true
  | _ => True
  end.

Hypothesis defaults_well_formed :
  forall f, f ∈ fields -> well_formed (default_value s f) = true.

Lemma calm_close_nav u : total close_nav_if_open /\ stable (calm u) close_nav_if_open.
Proof.
  split.
  - unfold close_nav_if_open, click_nav_toggle. repeat total_step.
  - unfold close_nav_if_open. apply stable_bind; [by intros ? ?|intros attr].
    destruct (bool_decide _); [|apply stable_ret].
    intros w Hw. unfold click_nav_toggle. cbn [modify snd].
    apply fire_calm; [apply nav_click_total| |done].
    apply calm_frame. unfold on_nav_click.
    repeat first [ apply text_view_set_prop; done | frame_step ].
Qed.

Lemma calm_blur u : stable (calm u) on_window_blur.
Proof.
  intros w [[Hf Ht] Hu]. unfold on_window_blur, mbind, M_bind, gets, clearInterval, modify.
  cbn [snd]. destruct (ringAnim w); [|done].
  split; [split|]; [done| |done].
  intros x name email message. cbn [timers set_timers].
  intros [_ Hx]%list_elem_of_filter. by apply Ht.
Qed.

Lemma calm_ui_step u w ev :
  input_well_formed ev -> calm u w -> calm u (ui_step s w ev).
Proof.
  intros Hev Hw.
  assert (Hstyle : forall n p v, p <> Value -> stable (calm u) (set_prop n p v)).
  { intros n p v Hp. by apply calm_frame, text_view_set_prop. }
  destruct ev as [ev|
                  |a|key| |el clientX clientY rleft rtop|el|clientX clientY|n|n|inp|inp];
    cbn [ui_step].
  - destruct ev as [|field text| | | |changes|]; cbn [step].
    + apply fire_calm; [apply theme_click_total| |done].
      apply calm_frame. script_unfold.
      repeat first [ apply text_view_set_prop; done | frame_step ].
    + by apply calm_input.
    + apply fire_calm; [script_total|apply calm_submit|].
      by apply (text_view_calm u w).
    + apply fire_calm; [script_total|apply calm_blur|done].
    + done.
    + unfold deliver. destruct (observer w); [|done].
      rewrite handle_total by apply reveal_callback_total.
      apply (calm_frame u (reveal_callback _)); [|done]. script_unfold.
      repeat first [ apply text_view_set_prop; done | frame_step ].
    + by apply calm_tick.
  - apply fire_calm; [apply nav_click_total| |done].
    apply calm_frame. unfold on_nav_click.
    repeat first [ apply text_view_set_prop; done | frame_step ].
  - destruct (calm_close_nav u) as [Hct Hcs].
    apply fire_calm; [| |by apply (text_view_calm u w)]; unfold on_anchor_click.
    + repeat first [ apply Hct | total_step ].
    + apply stable_bind; [|intros ?; apply stable_ret].
      destruct (drop 1 (href s a)); [apply stable_ret|].
      destruct (getElementById s _); [|apply stable_ret].
      apply stable_bind; [intros w0 Hw0; by apply (text_view_calm u w0)|intros _].
      apply stable_bind; [apply Hcs|intros _; apply stable_ret].
  - destruct (calm_close_nav u) as [Hct Hcs].
    apply fire_calm; [| |done]; unfold on_keydown;
      destruct (bool_decide _); first [ apply Hct | apply Hcs | apply total_ret
                                      | apply stable_ret ].
  - apply fire_calm; [apply reset_total| |done].
    unfold on_reset_click, form_reset.
    apply stable_bind; [|intros _].
    { apply stable_for_each. intros c _ w0 Hw0.
      apply (calm_input u c (default_value s c) w0); [|done].
      apply defaults_well_formed. }
    apply stable_bind; [by apply Hstyle|intros _].
    intros w0 Hw0. by apply (text_view_calm u w0).
  - apply fire_calm; [repeat total_step|by apply Hstyle|done].
  - apply fire_calm; [repeat total_step|by apply Hstyle|done].
  - apply fire_calm; [repeat total_step|by apply Hstyle|done].
  - apply fire_calm; [unfold on_cursor_enter; repeat total_step| |done].
    unfold on_cursor_enter.
    repeat (apply stable_bind; [by apply Hstyle|intros _]). by apply Hstyle.
  - apply fire_calm; [unfold on_cursor_leave; repeat total_step| |done].
    unfold on_cursor_leave.
    repeat (apply stable_bind; [by apply Hstyle|intros _]). by apply Hstyle.
  - apply fire_calm; [repeat total_step|by apply Hstyle|done].
  - apply fire_calm; [repeat total_step|by apply Hstyle|done].
Qed.

Lemma calm_ui_run u evs : forall w,
  Forall input_well_formed evs -> calm u w -> calm u (ui_run s w evs).
Proof.
  induction evs as [|ev evs IH]; intros w Hevs Hw; [done|].
  apply Forall_cons in Hevs as [Hev Hevs].
  cbn [ui_run fold_left]. apply IH; [done|]. by apply calm_ui_step.
Qed.

Lemma calm_load :
  (forall f, f ∈ fields -> well_formed (str_prop (fresh (site_env s)) f Value) = true) ->
  calm [] (load (site_env s)).
Proof.
  intros Hm. split; [split|].
  - intros f Hf. unfold str_prop. rewrite load_props_frame; [by apply Hm|].
    unfold load_written. unfold fields in Hf.
    intros [(el & _ & [?|?])|Hl]; [elem_cases Hf; congruence..|].
    elem_cases Hf; subst f; elem_cases Hl; discriminate Hl.
  - intros x name email message. rewrite timers_load.
    destruct (cursor_enabled _); [|by intros ?%elem_of_nil].
    by intros ->%list_elem_of_singleton.
  - unfold load. rewrite handle_total by script_total.
    apply (preserves_exec uncaught). script_frame.
Qed.

End NoException.

(** ** Invariants under guarded intersection entries *)

Section GuardedInvariants.

Context (P : world -> Prop) (ok : node * bool -> Prop).

Hypothesis P_uncaught : forall x w, P w -> P (set_uncaught x w).
Hypothesis P_clock : forall t ts w, P w -> P (set_now t (set_timers ts w)).
Hypothesis P_event : forall b w, P w -> P (set_defaultPrevented b w).
Hypothesis P_theme : stable P on_theme_click.
Hypothesis P_submit : stable P on_submit.
Hypothesis P_blur : stable P on_window_blur.
Hypothesis P_reveal : forall entries, Forall ok entries -> stable P (reveal_callback entries).
Hypothesis P_task : forall t, stable P (run_task t).
Hypothesis P_input : forall field text, stable P (set_prop field Value (VStr text)).

(** The entries an event delivers all satisfy [ok]. *)
Definition guarded (ev : event) : Prop :=
  match ev with
  | Intersection changes => Forall ok changes
  | _ => True
  end.

Lemma tick_stable w : P w -> P (tick w).
Proof.
  intros Hw. rewrite tick_unfold.
  generalize (filter (fun x => is_due (now w + 1) x = true) (timers w)) as due.
  generalize (P_clock (now w + 1) (reschedule (now w + 1) (timers w)) w Hw).
  generalize (set_now (now w + 1) (set_timers (reschedule (now w + 1) (timers w)) w)) as w0.
  intros w0 Hw0 due. revert w0 Hw0.
  induction due as [|x due IH]; intros w0 Hw0; [done|].
  cbn [fire_all fold_left]. apply IH. by apply stable_handle.
Qed.

Lemma guarded_step_stable w ev : guarded ev -> P w -> P (step w ev).
Proof.
  intros Hev Hw. destruct ev as [|field text| | | |changes|]; cbn [step].
  - by apply fire_stable.
  - by apply P_input.
  - apply fire_stable; [done|done|]. by apply P_event.
  - by apply fire_stable.
  - done.
  - unfold deliver. destruct (observer w) as [ts|]; [|done].
    apply stable_handle; [|done|done]. apply P_reveal.
    apply Forall_forall. intros c [_ Hc]%list_elem_of_filter.
    revert c Hc. by apply Forall_forall.
  - by apply tick_stable.
Qed.

End GuardedInvariants.

(** ** Elements that are not revealed *)

Section NotRevealed.

Import TokenList.

(** The element [n] does not carry the class [u]. *)
Definition lacks_class (n : node) (u : jsstring) (w : world) : Prop :=
  contains (str_prop w n ClassName) u = false.

Lemma lacks_class_set_prop n u n' p v :
  p <> ClassName -> stable (lacks_class n u) (set_prop n' p v).
Proof.
  intros Hp w Hw. unfold lacks_class in *. cbn [snd set_prop modify].
  rewrite str_prop_insert_ne; [done|congruence].
Qed.

Lemma lacks_class_add n u el t :
  valid_token t -> (el, t) <> (n, u) -> stable (lacks_class n u) (classList_add el t).
Proof.
  intros Ht Hne w Hw. unfold lacks_class in *.
  unfold classList_add, mbind, M_bind, get_str, gets, set_prop, modify. cbn [snd].
  destruct (decide (el = n)) as [->|Hel].
  - rewrite str_prop_insert_eq, contains_add_other; [done|done|congruence].
  - rewrite str_prop_insert_ne; [done|congruence].
Qed.

Lemma lacks_class_remove n u el t : stable (lacks_class n u) (classList_remove el t).
Proof.
  intros w Hw. unfold lacks_class in *.
  unfold classList_remove, mbind, M_bind, get_str, gets, set_prop, modify. cbn [snd].
  destruct (decide (el = n)) as [->|Hel].
  - rewrite str_prop_insert_eq.
    destruct (contains (remove (str_prop w n ClassName) t) u) eqn:E; [|done].
    apply contains_remove in E as [E _]. congruence.
  - rewrite str_prop_insert_ne; [done|congruence].
Qed.

Lemma lacks_class_toggle n u el t :
  valid_token t -> u <> t -> stable (lacks_class n u) (classList_toggle el t).
Proof.
  intros Ht Hne w Hw. unfold lacks_class in *.
  unfold classList_toggle, mbind, M_bind, get_str, gets.
  pose proof (contains_toggle_other (str_prop w el ClassName) t u Ht Hne) as Hc.
  destruct (toggle (str_prop w el ClassName) t) as [present attr'].
  cbn [snd] in Hc. unfold set_prop, modify, mret, M_ret. cbn [snd].
  destruct (decide (el = n)) as [->|Hel].
  - rewrite str_prop_insert_eq. congruence.
  - rewrite str_prop_insert_ne; [done|congruence].
Qed.

End NotRevealed.

Ltac lacks_class_step :=
  lazymatch goal with
  | |- stable _ (mbind _ _) => apply stable_bind; [|intros ?]
  | |- stable _ (for_each _ _) => apply stable_for_each; intros ? ?
  | |- stable _ (mret _) => apply stable_ret
  | |- stable _ (if ?c then _ else _) => destruct c
  | |- stable _ (match ?x with _ => _ end) => destruct x
  | |- stable _ (classList_add _ _) =>
      apply lacks_class_add;
        [by split; [|repeat constructor]
        |let H := fresh in
         intros H; apply (f_equal snd) in H; vm_compute in H; discriminate H]
  | |- stable _ (classList_remove _ _) => apply lacks_class_remove
  | |- stable _ (classList_toggle _ _) =>
      apply lacks_class_toggle; [by split; [|repeat constructor]|done]
  | |- stable _ (set_prop _ _ _) => apply lacks_class_set_prop; done
  | |- stable _ _ =>
      first [ by intros ? ?
            | intros ? ?; cbv [observe unobserve clearInterval modify snd];
              repeat case_match; done ]
  end.

Ltac lacks_class_stable :=
  unfold on_submit, on_theme_click, on_window_blur, run_task,
    submit_done, ring_pulse, startRingPulse;
  repeat lacks_class_step.

(** ** Pointer effects that are switched off *)

Section PointerOff.

Variable s : site.

Lemma cursor_hidden_when_disabled :
  cursor_enabled (site_env s) = false -> has_cursor (site_env s) = true ->
  props (load (site_env s)) !! (Cursor, StyleDisplay) = Some (VStr (lit "none")).
Proof.
  intros Hoff Hcur. rewrite load_eq.
  pose (f := fun w => props w !! (Cursor, StyleDisplay)).
  etrans; [apply (preserves_exec f (reveal_above_fold (site_env s)))|].
  { unfold reveal_above_fold. apply preserves_for_each. intros x _.
    destruct (ltb _ _); [|apply preserves_ret]. by apply classList_add_other. }
  repeat change (f (exec (addEventListener ?t ?y ?h) ?w')) with (f w').
  unfold cursor_init. fold (cursor_enabled (site_env s)). rewrite Hoff, Hcur.
  unfold f. simpl. by rewrite lookup_insert_eq.
Qed.

(** The events of the pointer, of the focus of the controls and of the
    focus of the window: the ones the tilt and cursor listeners are for. *)
Definition pointer_event (ev : ui_event) : Prop :=
  match ev with
  | TiltMove _ _ _ _ _ | TiltLeave _ | CursorMove _ _ | CursorEnter _ | CursorLeave _
  | InputFocus _ | InputBlur _ | Basic WindowBlur => True
  | _ => False
  end.

Lemma pointer_event_ignored w ev :
  tilt_enabled (site_env s) = false -> cursor_enabled (site_env s) = false ->
  ui_reachable s w -> pointer_event ev -> ui_step s w ev = w.
Proof.
  intros Ht Hc Hw Hev.
  destruct ev as [[]| | | | | | | | | | |]; try done; cbn [ui_step step]; unfold fire;
    rewrite (registrations_ui_reachable s) by done.
  - by rewrite blur_registered, Hc.
  - by rewrite tilt_move_registered, Ht.
  - by rewrite tilt_leave_registered, Ht.
  - by rewrite cursor_move_registered, Hc.
  - by rewrite cursor_enter_registered, Hc.
  - by rewrite cursor_leave_registered, Hc.
  - by rewrite input_focus_registered, Hc.
  - by rewrite input_blur_registered, Hc.
Qed.

End PointerOff.

(** ** What each event writes *)

Section WrittenBy.

Variable s : site.

Definition nav_keys : list (node * prop) :=
  [(MobileNavToggle, AriaExpanded); (Nav, StyleDisplay); (MobileNavToggle, TextContent)].

Definition hover_keys : list (node * prop) :=
  [(CursorDot, StyleTransform); (CursorRing, StyleTransform); (CursorRing, StyleOpacity)].

(** The properties an event may write. *)
Definition written_by (ev : ui_event) (k : node * prop) : Prop :=
  match ev with
  | Basic _ => basic_written k
  | NavClick | AnchorClick _ | KeyDownEvent _ => k ∈ nav_keys
  | ResetClick => k.2 = Value \/ k = (FormFeedback, TextContent)
  | TiltMove el _ _ _ _ | TiltLeave el => k = (el, StyleTransform)
  | CursorMove _ _ => k = (Cursor, StyleTransform)
  | CursorEnter _ | CursorLeave _ => k ∈ hover_keys
  | InputFocus _ | InputBlur _ => k = (Cursor, StyleOpacity)
  end.

Lemma nav_click_key_frame k :
  k ∉ nav_keys -> preserves (fun w => props w !! k) on_nav_click.
Proof.
  intros Hk. unfold on_nav_click.
  repeat first
    [ apply set_prop_other; intros ->; apply Hk; unfold nav_keys;
      repeat first [ by left | right ]
    | frame_step ].
Qed.

Lemma close_nav_key_frame k :
  k ∉ nav_keys -> preserves (fun w => props w !! k) close_nav_if_open.
Proof.
  intros Hk. unfold close_nav_if_open.
  apply preserves_bind; [by intros ?|]. intros attr.
  destruct (bool_decide _); [|apply preserves_ret].
  intros w. unfold click_nav_toggle. cbn [modify snd].
  apply (fire_preserves (fun w => props w !! k)); [by apply nav_click_key_frame|done].
Qed.

Lemma ui_step_written k w ev :
  ~ written_by ev k -> props (ui_step s w ev) !! k = props w !! k.
Proof.
  intros Hk. pose (f := fun w => props w !! k).
  assert (Hset : forall n p v, k <> (n, p) -> preserves f (set_prop n p v)).
  { intros n p v Hne. by apply set_prop_other. }
  destruct ev as [ev|
                  |a|key| |el clientX clientY rleft rtop|el|clientX clientY|n|n|inp|inp];
    cbn [ui_step written_by] in *.
  - by apply step_props_frame.
  - apply (fire_preserves f); [by apply nav_click_key_frame|done].
  - apply (fire_preserves f a Click (OnAnchorClick a) _ (set_defaultPrevented false w));
      [|done]. unfold on_anchor_click.
    apply preserves_bind; [|intros ?; apply preserves_ret].
    destruct (drop 1 (href s a)); [apply preserves_ret|].
    destruct (getElementById s _); [|apply preserves_ret].
    apply preserves_bind; [by intros ?|intros _].
    apply preserves_bind; [by apply close_nav_key_frame|intros _; apply preserves_ret].
  - apply (fire_preserves f); [|done]. unfold on_keydown.
    destruct (bool_decide _); [by apply close_nav_key_frame|apply preserves_ret].
  - apply (fire_preserves f); [|done]. unfold on_reset_click, form_reset.
    apply preserves_bind; [apply preserves_for_each; intros c _|intros _].
    { apply Hset. intros ->. apply Hk. by left. }
    apply preserves_bind; [apply Hset; intros ->; apply Hk; by right|intros _].
    by intros ?.
  - apply (fire_preserves f); [by apply Hset|done].
  - apply (fire_preserves f); [by apply Hset|done].
  - apply (fire_preserves f); [by apply Hset|done].
  - apply (fire_preserves f); [|done]. unfold on_cursor_enter.
    repeat first
      [ apply Hset; intros ->; apply Hk; unfold hover_keys; repeat first [ by left | right ]
      | frame_step ].
  - apply (fire_preserves f); [|done]. unfold on_cursor_leave.
    repeat first
      [ apply Hset; intros ->; apply Hk; unfold hover_keys; repeat first [ by left | right ]
      | frame_step ].
  - apply (fire_preserves f); [by apply Hset|done].
  - apply (fire_preserves f); [by apply Hset|done].
Qed.

Lemma ui_run_written k evs : forall w,
  Forall (fun ev => ~ written_by ev k) evs ->
  props (ui_run s w evs) !! k = props w !! k.
Proof.
  induction evs as [|ev evs IH]; intros w Hevs; [done|].
  apply Forall_cons in Hevs as [Hev Hevs].
  cbn [ui_run fold_left]. fold (ui_run s (ui_step s w ev) evs).
  by rewrite IH, ui_step_written.
Qed.

(** The listeners of the overlay, run once or more. *)
Lemma fire_set_prop target ty h n p v w :
  (0 < registrations target ty h w)%nat ->
  fire target ty h (set_prop n p v) w = exec (set_prop n p v) w.
Proof.
  intros Hn. unfold fire. rewrite iter_idempotent; [|done|].
  - by rewrite handle_total by repeat total_step.
  - rewrite !handle_total by repeat total_step.
    unfold exec, set_prop, modify. cbn [snd props set_props].
    by rewrite insert_insert_eq.
Qed.

End WrittenBy.

(** ** Facts about the cursor overlay *)

Section CursorFacts.

(** The state of the overlay's parts over an interactive element, and
    away from one. *)
Definition hovering (w : world) : world :=
  set_props
    (<[(CursorRing, StyleOpacity) := VStr (lit "1")]>
       (<[(CursorRing, StyleTransform) := VStr (lit "translate(-50%,-50%) scale(1.6)")]>
          (<[(CursorDot, StyleTransform) := VStr (lit "translate(-50%,-50%) scale(0.6)")]>
             (props w))))
    w.

Definition resting (w : world) : world :=
  set_props
    (<[(CursorRing, StyleOpacity) := VStr (lit "0.9")]>
       (<[(CursorRing, StyleTransform) := VStr (lit "translate(-50%,-50%) scale(1)")]>
          (<[(CursorDot, StyleTransform) := VStr (lit "translate(-50%,-50%) scale(1)")]>
             (props w))))
    w.

Lemma cursor_enter_total : total on_cursor_enter.
Proof. unfold on_cursor_enter. repeat total_step. Qed.

Lemma cursor_leave_total : total on_cursor_leave.
Proof. unfold on_cursor_leave. repeat total_step. Qed.

Lemma cursor_enter_exec w : exec on_cursor_enter w = hovering w.
Proof. reflexivity. Qed.

Lemma cursor_leave_exec w : exec on_cursor_leave w = resting w.
Proof. reflexivity. Qed.

Lemma insert3_twice (m : gmap (node * prop) value) k1 k2 k3 a b c a' b' c' :
  <[k3 := c]> (<[k2 := b]> (<[k1 := a]> (<[k3 := c']> (<[k2 := b']> (<[k1 := a']> m)))))
  = <[k3 := c]> (<[k2 := b]> (<[k1 := a]> m)).
Proof.
  apply map_eq. intros i. rewrite !lookup_insert. by repeat case_decide.
Qed.

Lemma hovering_twice w : hovering (hovering w) = hovering w.
Proof. unfold hovering. cbn [props set_props]. by rewrite insert3_twice. Qed.

Lemma resting_twice w : resting (resting w) = resting w.
Proof. unfold resting. cbn [props set_props]. by rewrite insert3_twice. Qed.

Lemma resting_hovering w : resting (hovering w) = resting w.
Proof. unfold resting, hovering. cbn [props set_props]. by rewrite insert3_twice. Qed.

Variable s : site.

Lemma ui_step_cursor_enter w n :
  ui_reachable s w -> cursor_enabled (site_env s) = true -> n ∈ interactive_els (site_env s) ->
  ui_step s w (CursorEnter n) = hovering w.
Proof.
  intros Hw Hc Hn. cbn [ui_step]. unfold fire.
  rewrite (registrations_ui_reachable s) by done. rewrite cursor_enter_registered, Hc.
  rewrite iter_idempotent.
  - by rewrite handle_total by apply cursor_enter_total.
  - by apply occurrences_pos.
  - rewrite !handle_total by apply cursor_enter_total. apply hovering_twice.
Qed.

Lemma ui_step_cursor_leave w n :
  ui_reachable s w -> cursor_enabled (site_env s) = true -> n ∈ interactive_els (site_env s) ->
  ui_step s w (CursorLeave n) = resting w.
Proof.
  intros Hw Hc Hn. cbn [ui_step]. unfold fire.
  rewrite (registrations_ui_reachable s) by done. rewrite cursor_leave_registered, Hc.
  rewrite iter_idempotent.
  - by rewrite handle_total by apply cursor_leave_total.
  - by apply occurrences_pos.
  - rewrite !handle_total by apply cursor_leave_total. apply resting_twice.
Qed.

Lemma ui_step_cursor_elsewhere w n :
  ui_reachable s w -> n ∉ interactive_els (site_env s) ->
  ui_step s w (CursorEnter n) = w /\ ui_step s w (CursorLeave n) = w.
Proof.
  intros Hw Hn. apply occurrences_zero in Hn.
  split; cbn [ui_step]; unfold fire; rewrite (registrations_ui_reachable s) by done.
  - rewrite cursor_enter_registered, Hn. by destruct (cursor_enabled _).
  - rewrite cursor_leave_registered, Hn. by destruct (cursor_enabled _).
Qed.

End CursorFacts.

(** ** Facts about the tilt angles *)

Section TiltFacts.

Local Open Scope Z_scope.

(** Zero or a finite Number. *)
Definition is_finite (x : number) : bool :=
  match x with
  | S754_zero _ | S754_finite _ _ _ => true
  | _ => false
  end.

(** A finite Number other than zero. *)
Definition is_finite_nonzero (x : number) : bool :=
  match x with
  | S754_finite _ _ _ => true
  | _ => false
  end.

(** [x - x] is [+0]. *)
Lemma number_sub_self (x : number) :
  is_finite x = true -> number_sub x x = S754_zero false.
Proof.
  destruct x as [s|s| |s m e]; try done; intros _.
  - by destruct s.
  - unfold number_sub, SFsub. cbn zeta. by rewrite Z.sub_diag.
Qed.

Lemma div_eucl_multiple (m : positive) (k : Z) :
  Z.div_eucl (Z.pos m * k) (Z.pos m) = (k, 0).
Proof.
  pose proof (Z.div_mul k (Z.pos m) ltac:(done)) as Hq.
  pose proof (Z.mod_mul k (Z.pos m) ltac:(done)) as Hr.
  rewrite (Z.mul_comm k) in Hq, Hr. unfold Z.div, Z.modulo in Hq, Hr.
  destruct (Z.div_eucl (Z.pos m * k) (Z.pos m)) as [q r]. by subst.
Qed.

(** [x / x] is [1]. *)
Lemma number_div_self (x : number) :
  is_finite_nonzero x = true -> number_div x x = of_Z 1.
Proof.
  destruct x as [s|s| |s m e]; try done; intros _.
  unfold number_div, SFdiv, SFdiv_core_binary. cbn zeta.
  rewrite !Z.sub_diag.
  change (Z.min (fexp prec emax 0) 0) with (-53).
  change (0 - -53) with 53. cbv iota.
  rewrite Z.shiftl_mul_pow2 by done. rewrite div_eucl_multiple.
  replace (new_location (Z.pos m) 0) with loc_Exact.
  - by destruct s.
  - unfold new_location, new_location_even, new_location_odd.
    by destruct (Z.even (Z.pos m)).
Qed.

Lemma tilt_angles_top_left width height x y :
  is_finite_nonzero width = true -> is_finite_nonzero height = true ->
  is_finite x = true -> is_finite y = true ->
  tilt_angles width height x y x y = (of_Z 4, of_Z (-4)).
Proof.
  intros Hw Hh Hx Hy. unfold tilt_angles. rewrite !number_sub_self by done.
  destruct width as [| | |sw mw ew]; try done.
  by destruct height as [| | |sh mh eh].
Qed.

Lemma tilt_angles_bottom_right width height clientX clientY rleft rtop :
  is_finite_nonzero width = true -> is_finite_nonzero height = true ->
  number_sub clientX rleft = width -> number_sub clientY rtop = height ->
  tilt_angles width height clientX clientY rleft rtop = (of_Z (-4), of_Z 4).
Proof.
  intros Hw Hh Hx Hy. unfold tilt_angles. rewrite Hx, Hy.
  by rewrite !number_div_self by done.
Qed.

Lemma tilt_angles_zero_width sw height clientX clientY rleft rtop :
  is_finite (tilt_angles (S754_zero sw) height clientX clientY rleft rtop).2 = false.
Proof.
  unfold tilt_angles. cbn [snd]. generalize (number_sub clientX rleft) as x.
  intros [sx|sx| |sx mx ex]; by destruct sw.
Qed.

Lemma tilt_angles_zero_height width sh clientX clientY rleft rtop :
  is_finite (tilt_angles width (S754_zero sh) clientX clientY rleft rtop).1 = false.
Proof.
  unfold tilt_angles. cbn [fst]. generalize (number_sub clientY rtop) as y.
  intros [sy|sy| |sy my ey]; by destruct sh.
Qed.

End TiltFacts.

(** ** The pulse under all events *)

Section PulseBound.

Local Open Scope Z_scope.

(** The pulse is running on schedule, or it has been cleared and no more
    pulses have played than the time allowed. *)
Definition pulse_bounded (w : world) : Prop :=
  pulsing w \/ (silent w /\ Z.of_N (ring_animations w) <= now w / 3200).

Lemma pulse_bounded_blur : stable pulse_bounded on_window_blur.
Proof.
  intros w Hw.
  assert (Hc : ring_animations (snd (on_window_blur w)) = ring_animations w
               /\ now (snd (on_window_blur w)) = now w).
  { unfold on_window_blur, mbind, M_bind, gets, clearInterval, modify. cbn [snd].
    by destruct (ringAnim w). }
  destruct Hc as [Hc Hn]. right. unfold silent. rewrite Hc, Hn. split.
  - unfold pulse_timers, on_window_blur, mbind, M_bind, gets, clearInterval, modify.
    cbn [snd].
    destruct Hw as [(due & Hp & Hr & _)|[Hs _]].
    + rewrite Hr. cbn [timers set_timers]. rewrite filter_comm. fold (pulse_timers w).
      rewrite Hp, filter_cons. cbn [timer_id]. by rewrite decide_False by (by intros ?).
    + destruct (ringAnim w); [|done]. cbn [timers set_timers].
      rewrite filter_comm. fold (pulse_timers w). by rewrite Hs.
  - destruct Hw as [Hp|[_ Hb]]; [|done]. by rewrite (pulsing_count w Hp).
Qed.

Lemma pulse_bounded_step w ev : pulse_bounded w -> pulse_bounded (step w ev).
Proof.
  intros Hw. destruct (is_blur ev) eqn:Hb.
  - destruct ev; try done. cbn [step].
    apply fire_calm; [script_total|apply pulse_bounded_blur|done].
  - destruct Hw as [Hp|[Hs Hbound]]; [left; by apply pulsing_step|right].
    destruct (silent_step w ev Hs) as [Hs' Hc']. split; [done|].
    rewrite Hc', now_step.
    etrans; [exact Hbound|]. apply Z.div_le_mono; [done|]. destruct (is_tick ev); lia.
Qed.

Lemma pulse_bounded_load e : pulse_bounded (load e).
Proof.
  destruct (cursor_enabled e) eqn:He; [left; by apply pulsing_load|right].
  unfold silent, pulse_timers. rewrite timers_load, He, ring_animations_load, now_load.
  done.
Qed.

(** The parts of the state the pulse depends on. *)
Definition pulse_view (w : world) := (pulse_timers w, ringAnim w, now w, ring_animations w).

Lemma pulse_view_blind : dom_blind pulse_view.
Proof. done. Qed.

End PulseBound.

(** ** The alphabet of an encoding *)

Section EncodeAlphabet.

(** The characters [encodeURIComponent] has to escape to keep a component
    apart from the rest of a URI: ; / ? : @ & = + $ , and #. *)
Definition is_reserved (c : N) : bool :=
  (c =? 0x3B) || (c =? 0x2F) || (c =? 0x3F) || (c =? 0x3A) || (c =? 0x40)
  || (c =? 0x26) || (c =? 0x3D) || (c =? 0x2B) || (c =? 0x24) || (c =? 0x2C)
  || (c =? 0x23).

Definition unreserved_text (s : jsstring) : Prop :=
  Forall (fun c => is_reserved c = false) s.

Lemma is_reserved_false c :
  is_reserved c = false
  <-> c <> 0x3B /\ c <> 0x2F /\ c <> 0x3F /\ c <> 0x3A /\ c <> 0x40 /\ c <> 0x26
      /\ c <> 0x3D /\ c <> 0x2B /\ c <> 0x24 /\ c <> 0x2C /\ c <> 0x23.
Proof.
  unfold is_reserved. rewrite !orb_false_iff, !N.eqb_neq. tauto.
Qed.

Lemma unreserved_not_reserved c : is_unreserved c = true -> is_reserved c = false.
Proof.
  unfold is_unreserved, in_range. intros Hu. apply is_reserved_false.
  repeat rewrite orb_true_iff in Hu. repeat rewrite andb_true_iff in Hu.
  rewrite ?N.leb_le, ?N.eqb_eq in Hu. lia.
Qed.

Lemma hex_digit_not_reserved d : is_reserved (hex_digit d) = false.
Proof.
  apply is_reserved_false. unfold hex_digit.
  destruct (N.ltb_spec d 10); lia.
Qed.

Lemma percent_encode_unreserved cp : unreserved_text (percent_encode cp).
Proof.
  unfold percent_encode, unreserved_text.
  induction (utf8_octets cp) as [|b bs IH]; [constructor|].
  cbn [map concat]. apply Forall_app. split; [|exact IH].
  unfold percent_octet. repeat constructor; apply hex_digit_not_reserved.
Qed.

(** Whatever the text, its encoding holds no reserved character. *)
Lemma encode_unreserved s : forall r,
  encodeURIComponent s = Ok r -> unreserved_text r.
Proof.
  induction s as [|c rest IH1 IH2] using list_pair_ind; intros r Hr; simpl in Hr.
  - injection Hr as <-. constructor.
  - destruct (is_unreserved c) eqn:Hu.
    + destruct (encodeURIComponent rest) as [r0|]; [|discriminate].
      injection Hr as <-. constructor; [by apply unreserved_not_reserved|by apply IH1].
    + destruct (is_trailing_surrogate c); [discriminate|].
      destruct (is_leading_surrogate c).
      * destruct rest as [|d rest']; [discriminate|].
        destruct (is_trailing_surrogate d); [|discriminate].
        destruct (encodeURIComponent rest') as [r0|] eqn:Hr0; [|discriminate].
        injection Hr as <-. apply Forall_app. split; [apply percent_encode_unreserved|].
        by apply (IH2 d rest' eq_refl).
      * destruct (encodeURIComponent rest) as [r0|]; [|discriminate].
        injection Hr as <-. apply Forall_app. split; [apply percent_encode_unreserved|].
        by apply IH1.
Qed.

End EncodeAlphabet.

(** ** The disabled button and the pending send *)

Section Sending.

Variable s : site.

Local Open Scope Z_scope.

(** The submit button is disabled. *)
Definition busy (w : world) : Prop :=
  props w !! (SubmitBtn, Disabled) = Some (VBool true).

(** A send is under way: its timeout is in the table, falls due within
    900 ms, and is not the interval a blur of the window clears. *)
Definition sending (w : world) : Prop :=
  exists x name email message,
    x ∈ timers w /\ timer_task x = SubmitDone name email message
    /\ timer_period x = None
    /\ (forall i, ringAnim w = Some i -> i <> timer_id x)
    /\ now w < timer_due x <= now w + 900.

Definition busy_sends (w : world) : Prop := busy w -> sending w.

(** What [busy_sends] reads. *)
Definition send_view (w : world) :=
  (props w !! (SubmitBtn, Disabled), timers w, now w, ringAnim w).

Lemma send_view_eq w w' : send_view w' = send_view w -> busy_sends w -> busy_sends w'.
Proof.
  unfold send_view, busy_sends, busy, sending.
  intros [= H1 H2 H3 H4]. by rewrite H1, H2, H3, H4.
Qed.

Lemma send_view_frame {A} (m : M A) : preserves send_view m -> stable busy_sends m.
Proof. intros Hm w Hw. by apply (send_view_eq w), Hw. Qed.

Lemma send_view_set_prop n p v :
  (n, p) <> (SubmitBtn, Disabled) -> preserves send_view (set_prop n p v).
Proof.
  intros Hp w. unfold send_view. cbn [snd set_prop modify props timers now ringAnim set_props].
  by rewrite lookup_insert_ne.
Qed.

Lemma busy_sends_blur : stable busy_sends on_window_blur.
Proof.
  intros w Hw. unfold on_window_blur, mbind, M_bind, gets, clearInterval, modify.
  cbn [snd]. destruct (ringAnim w) as [i|] eqn:Hr; [|done].
  intros Hb. destruct (Hw Hb) as (x & name & email & message & Hx & Ht & Hp & Hid & Hdue).
  exists x, name, email, message. cbn [timers set_timers now ringAnim].
  split; [|split; [done|split; [done|split; [exact Hid|lia]]]].
  apply list_elem_of_filter. split; [|done]. intros He. by apply (Hid i).
Qed.

(** The deferred step enables the button, whether or not it then throws. *)
Lemma submit_done_enables name email message w :
  props (handle (submit_done name email message) w) !! (SubmitBtn, Disabled)
  = Some (VBool false).
Proof.
  cbv [handle submit_done mbind M_bind set_prop modify lift navigate].
  destruct (encodeURIComponent (lit "Website inquiry from " ++ name)) as [subject|];
    [destruct (encodeURIComponent (lit "Name: " ++ _)) as [body|]|];
    cbn [fst snd props set_props set_uncaught set_location_href];
    do 2 (rewrite lookup_insert_ne by done); by rewrite lookup_insert_eq.
Qed.

Lemma ring_pulse_disabled w :
  props (handle ring_pulse w) !! (SubmitBtn, Disabled) = props w !! (SubmitBtn, Disabled).
Proof. done. Qed.

Lemma task_keeps_enabled t w :
  props w !! (SubmitBtn, Disabled) = Some (VBool false) ->
  props (handle (run_task t) w) !! (SubmitBtn, Disabled) = Some (VBool false).
Proof.
  destruct t as [name email message|]; cbn [run_task]; intros Hw.
  - apply submit_done_enables.
  - by rewrite ring_pulse_disabled.
Qed.

Lemma fire_all_keeps_enabled due : forall w,
  props w !! (SubmitBtn, Disabled) = Some (VBool false) ->
  props (fire_all due w) !! (SubmitBtn, Disabled) = Some (VBool false).
Proof.
  induction due as [|y due IH]; intros w Hw; [done|].
  cbn [fire_all fold_left]. apply IH. by apply task_keeps_enabled.
Qed.

(** The timers that fire are all pulses and leave the button as it is, or
    one of them ends a send and the button is enabled. *)
Lemma fire_all_cases due : forall w,
  (Forall (fun x => timer_task x = RingPulse) due
   /\ props (fire_all due w) !! (SubmitBtn, Disabled) = props w !! (SubmitBtn, Disabled))
  \/ props (fire_all due w) !! (SubmitBtn, Disabled) = Some (VBool false).
Proof.
  induction due as [|y due IH]; intros w; [by left|].
  cbn [fire_all fold_left]. destruct (timer_task y) as [name email message|] eqn:Hy.
  - right. apply fire_all_keeps_enabled. cbn [run_task]. apply submit_done_enables.
  - destruct (IH (handle (run_task RingPulse) w)) as [[Hall Hp]|Hen]; [left|by right].
    split; [by constructor|]. etrans; [exact Hp|]. apply ring_pulse_disabled.
Qed.

Lemma busy_sends_tick w : busy_sends w -> busy_sends (tick w).
Proof.
  intros Hw Hb. unfold busy in Hb. revert Hb. rewrite tick_unfold.
  destruct (fire_all_cases (filter (fun x => is_due (now w + 1) x = true) (timers w))
              (set_now (now w + 1)
                 (set_timers (reschedule (now w + 1) (timers w)) w)))
    as [[Hall Hp]|Hen]; [|by rewrite Hen].
  rewrite Hp. cbn [props set_now set_timers]. intros Hb.
  destruct (Hw Hb) as (x & name & email & message & Hx & Ht & Hper & Hid & Hdue).
  rewrite <- tick_unfold.
  assert (Hnot : is_due (now w + 1) x = false).
  { destruct (is_due (now w + 1) x) eqn:Hd; [|done].
    rewrite Forall_forall in Hall. specialize (Hall x).
    rewrite Ht in Hall. discriminate Hall. by apply list_elem_of_filter. }
  exists x, name, email, message. rewrite tick_timers, tick_now.
  assert (Hr : ringAnim (tick w) = ringAnim w).
  { unfold tick. rewrite (tasks_preserve ringAnim); [done| |done].
    apply task_preserves_ringAnim. }
  rewrite Hr. repeat split; try done.
  - apply list_elem_of_In, in_flat_map. exists x. split; [by apply list_elem_of_In|].
    rewrite Hnot. by left.
  - unfold is_due in Hnot. apply Z.leb_gt in Hnot. lia.
  - lia.
Qed.

Lemma busy_sends_submit w : ui_reachable s w -> busy_sends w -> busy_sends (submit_result w).
Proof.
  intros Hr Hw. unfold submit_result.
  assert (Hrej : forall msg f, busy_sends (rejected msg f w)).
  { intros msg f. apply (send_view_eq w); [|done]. unfold send_view, rejected.
    cbn [props timers now ringAnim set_activeElement set_props set_defaultPrevented].
    by rewrite lookup_insert_ne. }
  repeat case_match; try apply Hrej.
  intros _. eexists _, _, _, _. unfold accepted.
  cbn [timers now ringAnim set_next_timer_id set_timers set_props set_defaultPrevented].
  split; [apply elem_of_app; right; by apply list_elem_of_singleton|].
  cbn [timer_task timer_period timer_due timer_id]. repeat split; try done; try lia.
  intros i Hi%(handle_known_reachable s w Hr). lia.
Qed.

Lemma busy_sends_other w ev :
  (forall bev, ev <> Basic bev) -> busy_sends w -> busy_sends (ui_step s w ev).
Proof.
  assert (Hset : forall n p v, (n, p) <> (SubmitBtn, Disabled) ->
                   preserves send_view (set_prop n p v))
    by apply send_view_set_prop.
  apply (ui_other_stable s busy_sends).
  - intros x w0. by apply (send_view_eq w0).
  - intros b w0. by apply (send_view_eq w0).
  - apply send_view_frame. unfold on_nav_click.
    repeat first [ apply Hset; done | frame_step ].
  - apply send_view_frame. unfold on_reset_click, form_reset.
    repeat first [ apply Hset; done | frame_step ].
  - intros n p v Hp. apply send_view_frame, Hset. destruct Hp; congruence.
Qed.

Lemma busy_sends_step w ev :
  ui_reachable s w -> busy_sends w -> busy_sends (ui_step s w ev).
Proof.
  intros Hr Hw.
  assert (Hset : forall n p v, (n, p) <> (SubmitBtn, Disabled) ->
                   preserves send_view (set_prop n p v))
    by apply send_view_set_prop.
  destruct ev as [ev| | | | | | | | | | |]; [|by apply busy_sends_other..].
  destruct ev as [|field text| | | |changes|].
  - apply (send_view_eq w); [|done]. cbn [ui_step step].
    apply (fire_preserves send_view); [|done]. script_unfold.
    repeat first [ apply Hset; done | frame_step ].
  - apply (send_view_eq w); [|done]. cbn [ui_step step].
    apply (preserves_exec send_view). by apply Hset.
  - rewrite ui_step_submit by done. by apply busy_sends_submit.
  - cbn [ui_step step]. apply fire_calm; [script_total|apply busy_sends_blur|done].
  - done.
  - apply (send_view_eq w); [|done]. cbn [ui_step step]. unfold deliver.
    destruct (observer w); [|done].
    apply (preserves_handle send_view); [|done]. script_unfold.
    repeat first [ apply Hset; done | frame_step ].
  - by apply busy_sends_tick.
Qed.

Lemma busy_sends_run evs :
  busy_sends (load (site_env s)) -> busy_sends (ui_run s (load (site_env s)) evs).
Proof.
  intros Hl. induction evs as [|ev evs IH] using rev_ind; [done|].
  rewrite ui_run_app. cbn [ui_run fold_left].
  apply busy_sends_step; [by eexists|done].
Qed.

Lemma busy_sends_load :
  markup (site_env s) !! (SubmitBtn, Disabled) <> Some (VBool true) ->
  busy_sends (load (site_env s)).
Proof.
  intros Hm Hb. destruct Hm. unfold busy in Hb. rewrite load_props_frame in Hb; [done|].
  unfold load_written. intros [(el & _ & [?|?])|Hl]; [congruence..|].
  elem_cases Hl; discriminate Hl.
Qed.

(** The disabled flag and the label of the submit button. *)
Definition button_state (w : world) : option value * option value :=
  (props w !! (SubmitBtn, Disabled), props w !! (SubmitBtn, TextContent)).

End Sending.

(** * The properties of the specification *)

(** A page used to exercise the statements: two reveal candidates (one
    near the top, one far below an 800 px viewport), one tilt card, one
    internal link, a cursor overlay, pointer input, motion allowed. *)
Definition demo_env : env :=
  {| prefersReduced := false; isTouch := false; has_cursor := true;
     reveal_els := [Elem 0; Elem 1]; tilt_els := [Elem 2]; anchor_els := [Elem 3];
     interactive_els := [SubmitBtn; ResetBtn; FieldName];
     input_els := [FieldName; FieldEmail; FieldMessage];
     rect_top := fun n => match n with Elem 0 => of_Z 100 | _ => of_Z 5000 end;
     innerHeight := of_Z 800; full_year := lit "2025";
     markup := ∅; stored := ∅; document_url := lit "https://aurora.example/" |}.

(** The user fills in the three controls. *)
Definition fill (name email message : jsstring) : list event :=
  [Input FieldName name; Input FieldEmail email; Input FieldMessage message].

Definition filled (name email message : jsstring) : world :=
  run (load demo_env) (fill name email message).

Lemma filled_reachable name email message : reachable demo_env (filled name email message).
Proof. by eexists. Defined.

(** C1. On every submit event the checks run in the order name, e-mail,
    message and the first failure decides: a trimmed name of fewer than 2
    code units gives the name message and focuses the name control;
    otherwise a trimmed e-mail that does not have the shape
    [plain@plain.plain] gives the e-mail message and focuses the e-mail
    control; otherwise a trimmed message of fewer than 10 code units gives
    the message text and focuses the message control.  The shape is stated
    in the specification's words ([email_shape]); the script tests it with
    its regular expression. *)
Theorem submit_validation_order (e : env) (w : world) :
  reachable e w ->
  let name := field_value w FieldName in
  let email := field_value w FieldEmail in
  let message := field_value w FieldMessage in
  let w' := step w Submit in
  ((length name < 2)%nat ->
     str_prop w' FormFeedback TextContent = msg_name
     /\ activeElement w' = Some FieldName)
  /\ ((2 <= length name)%nat -> ~ email_shape email ->
     str_prop w' FormFeedback TextContent = msg_email
     /\ activeElement w' = Some FieldEmail)
  /\ ((2 <= length name)%nat -> email_shape email -> (length message < 10)%nat ->
     str_prop w' FormFeedback TextContent = msg_message
     /\ activeElement w' = Some FieldMessage).
Proof.
  intros Hw name email message w'. subst w'. rewrite (step_submit e w Hw).
  unfold submit_result. fold name email message.
  assert (Hfb : forall msg f, str_prop (rejected msg f w) FormFeedback TextContent = msg
                              /\ activeElement (rejected msg f w) = Some f).
  { intros msg f. unfold rejected, str_prop. simpl. by rewrite lookup_insert_eq. }
  destruct (N.ltb_spec (str_length name) 2) as [Hn|Hn]; unfold str_length in Hn.
  { split; [auto|]. split; intros; lia. }
  split; [intros; lia|].
  destruct (test_anchored email_pattern email) eqn:He; simpl.
  - apply email_pattern_shape in He. split; [tauto|]. intros _ _ Hm.
    destruct (N.ltb_spec (str_length message) 10) as [Hm'|Hm']; unfold str_length in Hm';
      [auto|lia].
  - split; [auto|]. intros _ He'. apply email_pattern_shape in He'. congruence.
Qed.

Lemma submit_validation_order_witness :
  (str_prop (step (filled (lit " J ") (lit "jane@example.com") (lit "Hello there, world")) Submit)
     FormFeedback TextContent = msg_name)
  /\ (str_prop (step (filled (lit "Jane") (lit "jane@example") (lit "Hello there, world")) Submit)
        FormFeedback TextContent = msg_email)
  /\ (str_prop (step (filled (lit "Jane") (lit "jane@example.com") (lit " too short ")) Submit)
        FormFeedback TextContent = msg_message).
Proof.
  split; [|split].
  - apply (submit_validation_order demo_env _ (filled_reachable _ _ _)).
    vm_compute. lia.
  - apply (submit_validation_order demo_env _ (filled_reachable _ _ _)).
    + vm_compute. lia.
    + rewrite <- email_pattern_shape. vm_compute. discriminate.
  - apply (submit_validation_order demo_env _ (filled_reachable _ _ _)).
    + vm_compute. lia.
    + rewrite <- email_pattern_shape. vm_compute. reflexivity.
    + vm_compute. lia.
Defined.




(** The page of the specification's example. *)
Example jane_doe_link :
  let w := filled (lit "Jane Doe") (lit "jane@example.com")
             (lit "I would like a quote for a new site") in
  location_href (run (step w Submit) (repeat Tick 900))
  = lit "mailto:hello@aurora.example?subject=Website%20inquiry%20from%20Jane%20Doe"
    ++ lit "&body=Name%3A%20Jane%20Doe%0AEmail%3A%20jane%40example.com%0A%0A"
    ++ lit "I%20would%20like%20a%20quote%20for%20a%20new%20site".
Proof. vm_compute. reflexivity. Qed.



(** The theme state is coherent when exactly one of the two theme
    classes is on the body and the stored value names it. *)
Definition theme_coherent (w : world) : Prop :=
  TokenList.contains (body_class w) theme_light
  = negb (TokenList.contains (body_class w) theme_dark)
  /\ localStorage w !! site_theme
     = Some (if TokenList.contains (body_class w) theme_dark then theme_dark else theme_light).




(** C8. Start-up never writes to [localStorage]: after the script has
    run the store is what the last visit left.  A stored, non-empty theme
    is applied: its classes are on the body, [aria-pressed] says whether it
    is ["theme-dark"], and the toggle shows the matching glyph. *)
Theorem init_applies_without_write (e : env) :
  localStorage (load e) = stored e
  /\ forall s, stored e !! site_theme = Some s -> s <> [] ->
       (forall u, u ∈ TokenList.parse s -> has_class Body u (load e))
       /\ (Body ∉ reveal_els e -> body_class (load e) = s)
       /\ props (load e) !! (ThemeToggle, AriaPressed)
          = Some (VStr (string_of_bool (bool_decide (s = theme_dark))))
       /\ props (load e) !! (ThemeToggle, TextContent)
          = Some (VStr (if bool_decide (s = theme_dark) then glyph_sun else glyph_moon)).
Proof.
  split; [apply localStorage_load|]. intros s Hs Hne.
  pose proof (theme_init_exec (before_theme e) s Hs Hne) as Hinit.
  split; [|split; [|split]].
  - intros u Hu. apply has_class_after_theme. rewrite Hinit.
    unfold has_class, str_prop. cbn [props set_props].
    rewrite !lookup_insert_ne, lookup_insert_eq by done.
    by apply contains_elem.
  - by apply body_class_load.
  - rewrite props_after_theme, Hinit; [|intros el _; split; congruence|done].
    cbn [props set_props]. by rewrite lookup_insert_ne, lookup_insert_eq.
  - rewrite props_after_theme, Hinit; [|intros el _; split; congruence|done].
    cbn [props set_props]. by rewrite lookup_insert_eq.
Qed.

(** C10. With a stored, non-empty theme the start-up assigns the stored
    string to the body's [class] attribute, so the body's classes are
    exactly the tokens of that string and every class the markup gave is
    gone.  A click on the toggle, in contrast, only adds or removes
    ["theme-dark"] and ["theme-light"]: every other class stays, in its
    place. *)
Theorem init_overwrites_toggle_keeps (e : env) (s : jsstring) :
  stored e !! site_theme = Some s -> s <> [] ->
  body_class (exec theme_init (before_theme e)) = s
  /\ (Body ∉ reveal_els e ->
      body_class (load e) = s
      /\ forall u, has_class Body u (load e) <-> u ∈ TokenList.parse s)
  /\ (forall w u, reachable e w -> u <> theme_dark -> u <> theme_light ->
        TokenList.contains (body_class (step w ThemeClick)) u
        = TokenList.contains (body_class w) u)
  /\ (forall w, reachable e w ->
        filter (fun u => u <> theme_dark /\ u <> theme_light)
          (TokenList.parse (body_class (step w ThemeClick)))
        = filter (fun u => u <> theme_dark /\ u <> theme_light)
            (TokenList.parse (body_class w))).
Proof.
  intros Hs Hne. split; [|split; [|split]].
  - rewrite (theme_init_exec _ s) by done. unfold body_class, str_prop.
    cbn [props set_props]. by rewrite !lookup_insert_ne, lookup_insert_eq by done.
  - intros Hb. pose proof (body_class_load e s Hs Hne Hb) as Hc. split; [done|].
    intros u. unfold has_class. fold (body_class (load e)). rewrite Hc.
    apply contains_elem.
  - intros w u Hw Hd Hl. rewrite (body_class_theme_click e) by done.
    by apply toggled_class_other.
  - intros w Hw. rewrite (body_class_theme_click e) by done.
    apply toggled_class_order.
Qed.

Lemma init_overwrites_toggle_keeps_witness :
  let e := Env false false true [] [] [] [] [] (fun _ => lit_0) lit_0 (lit "2025")
             {[ (Body, ClassName) := VStr (lit "home wide theme-light") ]}
             {[ site_theme := theme_dark ]} [] in
  body_class (fresh e) = lit "home wide theme-light"
  /\ body_class (load e) = theme_dark.
Proof.
  intros e. split; [reflexivity|].
  destruct (init_overwrites_toggle_keeps e theme_dark) as (_ & H & _).
  - reflexivity.
  - discriminate.
  - apply H. apply not_elem_of_nil.
Defined.

(** The page of [demo_env] for a visitor who asked for reduced motion. *)
Definition demo_env_reduced : env :=
  {| prefersReduced := true; isTouch := isTouch demo_env; has_cursor := has_cursor demo_env;
     reveal_els := reveal_els demo_env; tilt_els := tilt_els demo_env;
     anchor_els := anchor_els demo_env; interactive_els := interactive_els demo_env;
     input_els := input_els demo_env; rect_top := rect_top demo_env;
     innerHeight := innerHeight demo_env; full_year := full_year demo_env;
     markup := markup demo_env; stored := stored demo_env;
     document_url := document_url demo_env |}.




(** Listener functions of the tilt effect and of the cursor follower. *)
Definition is_tilt_handler (h : handler) : bool :=
  match h with OnTiltMove _ | OnTiltLeave _ => true | _ => false end.

Definition is_cursor_handler (h : handler) : bool :=
  match h with
  | OnCursorMove | OnCursorEnter | OnCursorLeave | OnInputFocus | OnInputBlur
  | OnWindowBlur => true
  | _ => false
  end.

(** C5. Under a reduced-motion preference the script marks every reveal
    candidate revealed at start-up and constructs no observer; the
    listener table holds the theme, navigation, link, form, reset and
    keyboard listeners only, so no tilt or cursor listener is attached;
    no timer is started; a cursor overlay that exists is hidden; and no
    later event adds an observer or a listener. *)
Theorem reduced_motion_startup (e : env) :
  prefersReduced e = true ->
  (forall el, el ∈ reveal_els e -> has_class el revealed (load e))
  /\ observer (load e) = None
  /\ listeners (load e)
     = [(ThemeToggle, Click, OnThemeClick); (MobileNavToggle, Click, OnNavClick)]
       ++ anchor_listeners e
       ++ [(ContactForm, SubmitEvent, OnFormSubmit); (ResetBtn, Click, OnResetClick);
           (Document, KeyDown, OnKeyDown)]
  /\ Forall (fun l => is_tilt_handler l.2 = false /\ is_cursor_handler l.2 = false)
       (listeners (load e))
  /\ timers (load e) = []
  /\ (has_cursor e = true ->
      props (load e) !! (Cursor, StyleDisplay) = Some (VStr (lit "none")))
  /\ (forall evs, listeners (run (load e) evs) = listeners (load e)
                  /\ observer (run (load e) evs) = None).
Proof.
  intros Hred.
  assert (Ht : tilt_enabled e = false) by (unfold tilt_enabled; by rewrite Hred).
  assert (Hc : cursor_enabled e = false)
    by (unfold cursor_enabled; rewrite Hred; apply andb_false_r).
  assert (Hl : listeners (load e)
     = [(ThemeToggle, Click, OnThemeClick); (MobileNavToggle, Click, OnNavClick)]
       ++ anchor_listeners e
       ++ [(ContactForm, SubmitEvent, OnFormSubmit); (ResetBtn, Click, OnResetClick);
           (Document, KeyDown, OnKeyDown)])
    by (by rewrite listeners_load, Ht, Hc).
  assert (Ho : observer (load e) = None) by (by rewrite observer_load, Hred).
  split; [|split; [|split; [|split; [|split; [|split]]]]]; try done.
  - intros el Hel. by apply reduced_all_revealed.
  - rewrite Hl. repeat (apply Forall_app; split); try (by repeat constructor).
    unfold anchor_listeners. apply Forall_flat_map. intros a. by repeat constructor.
  - by rewrite timers_load, Hc.
  - by apply reduced_cursor_hidden.
  - intros evs. split; [apply listeners_run|].
    destruct (observer (run (load e) evs)) as [ts|] eqn:E; [|done].
    exfalso.
    assert (Hinv : forall w, observer w = None -> observer (run w evs) = None).
    { clear. intros w. apply (run_stable (fun w => observer w = None)); try done.
      - apply (preserves_stable _ observer); [congruence|script_frame].
      - apply (preserves_stable _ observer); [congruence|script_frame].
      - apply (preserves_stable _ observer); [congruence|script_frame].
      - intros entries. unfold reveal_callback.
        apply stable_for_each. intros x _.
        destruct (x.2); [|apply stable_ret].
        apply stable_bind; [apply (preserves_stable _ observer);
                            [congruence|unfold classList_add; frame]|].
        intros _ w' Hw'. unfold unobserve, modify. simpl. by rewrite Hw'.
      - intros t. apply (preserves_stable _ observer); [congruence|].
        apply task_preserves_observer.
      - intros field text. by apply (preserves_stable _ observer); [congruence|]. }
    rewrite (Hinv _ Ho) in E. discriminate.
Qed.

Lemma reduced_motion_startup_witness :
  has_class (Elem 1) revealed (load demo_env_reduced)
  /\ observer (load demo_env_reduced) = None
  /\ timers (load demo_env_reduced) = [].
Proof.
  destruct (reduced_motion_startup demo_env_reduced eq_refl)
    as (Hrev & Hobs & _ & _ & Htim & _).
  split; [|by split]. apply Hrev. right. left.
Defined.

(** The pulse is either running or has been cleared for good. *)
Lemma pulsing_or_silent (e : env) (evs : list event) :
  cursor_enabled e = true ->
  forall w, reachable e w -> pulsing w \/ silent w ->
  pulsing (run w evs) \/ silent (run w evs).
Proof.
  intros He. induction evs as [|ev evs IH]; intros w Hw Hstate; [done|].
  simpl. apply IH; [by apply reachable_step|].
  destruct (is_blur ev) eqn:Hb.
  - destruct ev; try done. right. by apply (blur_silences e).
  - destruct Hstate as [Hp|Hs]; [left; by apply pulsing_step|right; by apply silent_step].
Qed.

(** C9, as stated, fails: the interval is cleared by the first blur of
    the window and nothing starts it again.  Without a blur one pulse
    plays in 4000 ms; after a blur followed by a refocus none plays. *)
Lemma pulse_dead_after_refocus :
  ring_animations (run (load demo_env) (repeat Tick 4000)) = 1
  /\ ring_animations (run (load demo_env) ([WindowBlur; WindowFocus] ++ repeat Tick 4000)) = 0
  /\ timers (run (load demo_env) [WindowBlur; WindowFocus]) = [].
Proof. vm_compute. repeat split. Qed.

(** C9, amended.  With the cursor follower enabled, the pulse plays once
    every 3200 ms from start-up for as long as the window has not lost
    focus: after [n] ms without a blur, [n / 3200] pulses have played.  A
    blur of the window clears the interval, and from then on no pulse
    plays, whatever follows (a refocus included). *)
Theorem pulse_until_first_blur (e : env) :
  cursor_enabled e = true ->
  (forall evs, Forall (fun ev => is_blur ev = false) evs ->
     Z.of_N (ring_animations (run (load e) evs)) = (Z.of_nat (elapsed evs) / 3200)%Z)
  /\ (forall evs1 evs2,
        ring_animations (run (load e) (evs1 ++ WindowBlur :: evs2))
        = ring_animations (run (load e) evs1)
        /\ pulse_timers (run (load e) (evs1 ++ [WindowBlur])) = []).
Proof.
  intros He. split.
  - intros evs Hevs.
    rewrite (pulsing_count _ (pulsing_run evs _ Hevs (pulsing_load e He))).
    by rewrite now_run, now_load.
  - intros evs1 evs2. unfold run. rewrite !fold_left_app. simpl.
    fold (run (load e) evs1). set (w1 := run (load e) evs1).
    assert (Hw1 : reachable e w1) by (by eexists).
    assert (Hs : silent (fire Window BlurEvent OnWindowBlur on_window_blur w1)).
    { apply (blur_silences e w1 He Hw1).
      apply (pulsing_or_silent e evs1 He); [apply reachable_load|].
      left. by apply pulsing_load. }
    split; [|exact Hs].
    change (fold_left step evs2 ?w) with (run w evs2).
    rewrite (silent_run evs2 _ Hs).
    apply fire_preserves; [script_frame|done].
Qed.

Lemma pulse_until_first_blur_witness :
  Z.of_N (ring_animations (run (load demo_env) (repeat Tick 4000))) = 1%Z
  /\ ring_animations (run (load demo_env) ([WindowFocus] ++ WindowBlur :: repeat Tick 4000))
     = ring_animations (run (load demo_env) [WindowFocus]).
Proof.
  destruct (pulse_until_first_blur demo_env eq_refl) as [Hplay Hstop]. split.
  - rewrite (Hplay (repeat Tick 4000)); [by vm_compute|].
    apply Forall_forall. intros ev Hev%list_elem_of_In. by apply repeat_spec in Hev as ->.
  - apply Hstop.
Defined.

(** C6. Whenever the page observes its reveal candidates, every candidate
    [el] at distance [d] from the top of the viewport has been given the
    transition delay [min(300, max(0, round(d * 0.12)))] milliseconds when
    start-up ends, that is before any observation is delivered: [d * 0.12]
    is the script's product of Numbers, [round] rounds halves upwards, and
    the minimum and the maximum are those of exact arithmetic. The candidate
    is then among the observer's targets, nothing that happens later changes
    the delay, and for a distance of up to 4096 whole pixels the delay is
    the one of the decimal formula. The distance is a well-formed Number. *)
Theorem stagger_delay_formula (e : env) (el : node) (ts : list node) :
  observer (load e) = Some ts ->
  el ∈ reveal_els e ->
  valid_binary prec emax (rect_top e el) = true ->
  el ∈ ts
  /\ props (load e) !! (el, StyleTransitionDelay)
     = Some (VMillis (clamped_round (mul (rect_top e el) lit_0_12)))
  /\ (forall evs,
        props (run (load e) evs) !! (el, StyleTransitionDelay)
        = Some (VMillis (clamped_round (mul (rect_top e el) lit_0_12))))
  /\ (forall n, (-4096 <= n <= 4096)%Z -> rect_top e el = of_Z n ->
        clamped_round (mul (rect_top e el) lit_0_12) = of_Z (decimal_delay n)).
Proof.
  intros Hobs Hel Hd. rewrite observer_load in Hobs.
  destruct (prefersReduced e) eqn:Hred; [done|]. injection Hobs as <-.
  assert (Hdelay : stagger_delay (rect_top e el)
                   = clamped_round (mul (rect_top e el) lit_0_12)).
  { apply clamp_exact, mul_valid; [exact Hd|reflexivity]. }
  assert (Hload : props (load e) !! (el, StyleTransitionDelay)
                  = Some (VMillis (clamped_round (mul (rect_top e el) lit_0_12)))).
  { rewrite <- Hdelay. by apply delay_load. }
  split; [apply observe_all_elem; by right|].
  split; [exact Hload|]. split.
  - intros evs. by rewrite delay_run.
  - intros n Hn Hpx. rewrite <- Hdelay, Hpx. by apply stagger_delay_whole_pixels.
Qed.

Lemma stagger_delay_formula_witness :
  props (load demo_env) !! (Elem 0, StyleTransitionDelay) = Some (VMillis (of_Z 12))
  /\ props (run (load demo_env) [Intersection [(Elem 0, true)]; ThemeClick])
       !! (Elem 0, StyleTransitionDelay) = Some (VMillis (of_Z 12)).
Proof.
  destruct (stagger_delay_formula demo_env (Elem 0) [Elem 0; Elem 1])
    as (_ & Hload & Hrun & Hpx).
  - vm_compute. reflexivity.
  - left.
  - reflexivity.
  - rewrite (Hpx 100%Z) in Hload, Hrun by (lia || reflexivity).
    split; [exact Hload|]. apply Hrun.
Defined.

(** * Further properties of the script *)

(** A page with two internal links, one to the contact form and one that
    is a bare ["#"], and a link to an element that does not exist. *)
Definition demo_site : site :=
  {| site_env :=
       {| prefersReduced := false; isTouch := false; has_cursor := true;
          reveal_els := [Elem 0; Elem 1]; tilt_els := [Elem 2];
          anchor_els := [Elem 3; Elem 4; Elem 5];
          interactive_els := [SubmitBtn; ResetBtn; FieldName];
          input_els := [FieldName; FieldEmail; FieldMessage];
          rect_top := fun n => match n with Elem 0 => of_Z 100 | _ => of_Z 5000 end;
          innerHeight := of_Z 800; full_year := lit "2025";
          markup := ∅; stored := ∅; document_url := lit "https://aurora.example/" |};
     href := fun n => match n with
                      | Elem 3 => lit "#contact"
                      | Elem 5 => lit "#missing"
                      | _ => lit "#"
                      end;
     getElementById := fun id => if decide (id = lit "contact") then Some ContactForm else None;
     default_value := fun c => match c with FieldMessage => lit "Hello, " | _ => [] end;
     more_controls := [];
     offsetWidth := fun _ => of_Z 320;
     offsetHeight := fun _ => of_Z 200;
     Number_toString := fun _ => lit "0" |}.


(** X2. The two flags of the navigation move together: in every state
    of the page they differ exactly if they differed in the markup.  So a
    page whose markup has the navigation closed on both counts shows the
    panel exactly when [aria-expanded] is "true". *)
Theorem nav_flags_in_step (s : site) (evs : list ui_event) :
  let w := ui_run s (load (site_env s)) evs in
  xorb (nav_expanded w) (nav_shown w)
  = xorb (nav_expanded (fresh (site_env s))) (nav_shown (fresh (site_env s))).
Proof.
  intros w. subst w.
  set (c := xorb (nav_expanded (fresh (site_env s))) (nav_shown (fresh (site_env s)))).
  assert (Hframe : forall {A} (m : M A),
    preserves (fun w => props w !! (MobileNavToggle, AriaExpanded)) m ->
    preserves (fun w => props w !! (Nav, StyleDisplay)) m ->
    stable (fun w => xorb (nav_expanded w) (nav_shown w) = c) m).
  { intros A m H1 H2 w Hw.
    destruct (nav_flags_frame w (snd (m w)) (H1 w) (H2 w)) as [-> ->]. exact Hw. }
  apply (ui_run_stable s (fun w => xorb (nav_expanded w) (nav_shown w) = c)).
  - intros w ev Hw.
    destruct (nav_flags_frame w (step w ev)) as [-> ->]; [| |done];
      apply step_props_frame; not_written.
  - done.
  - done.
  - intros w Hw. change (snd (on_nav_click w)) with (exec on_nav_click w).
    rewrite nav_click_exec, nav_toggled_expanded, nav_toggled_shown.
    by destruct (nav_expanded w), (nav_shown w).
  - unfold on_reset_click, form_reset.
    apply Hframe; repeat first [ apply set_prop_other; done | frame_step ].
  - intros n p v Hp. apply Hframe; apply set_prop_other; destruct Hp; congruence.
  - subst c.
    destruct (nav_flags_frame (fresh (site_env s)) (load (site_env s))) as [-> ->]; [| |done];
      apply load_props_frame; unfold load_written;
      intros [(el & _ & [?|?])|Hl]; try congruence; elem_cases Hl; discriminate Hl.
Qed.

(** X3. Escape closes the navigation and never opens it: after the key
    the toggle's [aria-expanded] is not "true"; when it was "true" the key
    does what a click on the toggle does; when it was not, or for any
    other key, the page stays as it is. *)
Theorem escape_closes_nav (s : site) (evs : list ui_event) (key : jsstring) :
  let w := ui_run s (load (site_env s)) evs in
  let w' := ui_step s w (KeyDownEvent key) in
  (key = lit "Escape" -> nav_expanded w' = false)
  /\ (key = lit "Escape" -> nav_expanded w = true -> w' = ui_step s w NavClick)
  /\ (key <> lit "Escape" \/ nav_expanded w = false -> w' = w).
Proof.
  intros w w'. subst w'.
  assert (Hw : ui_reachable s w) by (by eexists).
  rewrite (ui_step_keydown s key w Hw), (ui_step_nav_click s w Hw).
  split; [|split].
  - intros ->. rewrite bool_decide_eq_true_2 by done. cbn [andb].
    destruct (nav_expanded w) eqn:E; [|done].
    by rewrite nav_toggled_expanded, E.
  - intros -> ->. by rewrite bool_decide_eq_true_2.
  - intros [Hk| ->]; [by rewrite bool_decide_eq_false_2|by rewrite andb_false_r].
Qed.






(** X7. The script uses [localStorage] for the theme and for nothing
    else: in every state of the page every key other than ["site-theme"]
    holds what the last visit left, and ["site-theme"] holds either what
    the last visit left, or ["theme-dark"], or ["theme-light"]. *)
Theorem storage_holds_only_the_theme (s : site) (evs : list ui_event) :
  let e := site_env s in
  let w := ui_run s (load e) evs in
  (forall k, k <> site_theme -> localStorage w !! k = stored e !! k)
  /\ (localStorage w !! site_theme = stored e !! site_theme
      \/ localStorage w !! site_theme = Some theme_dark
      \/ localStorage w !! site_theme = Some theme_light).
Proof.
  intros e w. subst w.
  set (Q := fun m : gmap jsstring jsstring =>
    (forall k, k <> site_theme -> m !! k = stored e !! k)
    /\ (m !! site_theme = stored e !! site_theme
        \/ m !! site_theme = Some theme_dark \/ m !! site_theme = Some theme_light)).
  assert (Hkeep : forall {A} (m : M A), preserves localStorage m ->
                    stable (fun w => Q (localStorage w)) m).
  { intros A m Hm w Hw. by rewrite Hm. }
  apply (ui_run_blind_invariant s localStorage Q); [done| |].
  - intros w ev. apply (step_stable (fun w => Q (localStorage w))); try done.
    + intros w0 [Hother _]. change (snd (on_theme_click w0)) with (exec on_theme_click w0).
      rewrite theme_click_exec. cbn [localStorage set_localStorage set_props]. split.
      * intros k Hk. rewrite lookup_insert_ne by done. by apply Hother.
      * rewrite lookup_insert_eq. destruct (TokenList.toggle _ _).1; auto.
    + apply Hkeep. script_frame.
    + apply Hkeep. script_frame.
    + intros entries. apply Hkeep. script_frame.
    + intros t. apply Hkeep. destruct t; script_frame.
    + intros field text. by apply Hkeep.
  - subst Q. cbn beta. rewrite localStorage_load. auto.
Qed.

(** X8. The year is written into the footer once, at start-up, and no
    event of the page changes it. *)
Theorem year_is_written_once (s : site) (evs : list ui_event) :
  props (ui_run s (load (site_env s)) evs) !! (YearEl, TextContent)
  = Some (VStr (full_year (site_env s))).
Proof.
  rewrite ui_run_props_frame by not_written.
  unfold load. rewrite handle_total by script_total.
  unfold main. rewrite exec_seq by script_total.
  pose (f := fun w => props w !! (YearEl, TextContent)).
  assert (Hset : forall n p v, (n, p) <> (YearEl, TextContent) -> preserves f (set_prop n p v)).
  { intros n p v Hne. apply set_prop_other. congruence. }
  etrans.
  { apply (preserves_exec f). script_unfold.
    repeat first [ apply Hset; congruence | frame_step ]. }
  unfold f, exec, set_prop, modify. cbn [snd props set_props].
  apply lookup_insert_eq.
Qed.

(** X9. The only place the page ever navigates to is a mail link to
    hello@aurora.example: in every state the location is the address the
    document was loaded from, or it starts with
    ["mailto:hello@aurora.example?subject="]. *)
Theorem navigation_is_mail_only (s : site) (evs : list ui_event) :
  let e := site_env s in
  let w := ui_run s (load e) evs in
  location_href w = document_url e
  \/ exists rest, location_href w = lit "mailto:hello@aurora.example?subject=" ++ rest.
Proof.
  intros e w. subst w.
  set (Q := fun h : jsstring =>
    h = document_url e
    \/ exists rest, h = lit "mailto:hello@aurora.example?subject=" ++ rest).
  assert (Hkeep : forall {A} (m : M A), preserves location_href m ->
                    stable (fun w => Q (location_href w)) m).
  { intros A m Hm w Hw. by rewrite Hm. }
  apply (ui_run_blind_invariant s location_href Q); [done| |].
  - intros w ev. apply (step_stable (fun w => Q (location_href w))); try done.
    + apply Hkeep. script_frame.
    + apply Hkeep. script_frame.
    + apply Hkeep. script_frame.
    + intros entries. apply Hkeep. script_frame.
    + intros [name email message|]; [|apply Hkeep; script_frame].
      intros w0 Hw0. cbn [run_task]. unfold submit_done.
      unfold mbind, M_bind, set_prop, modify, lift, navigate. cbn [snd].
      destruct (encodeURIComponent (lit "Website inquiry from " ++ name)); [|exact Hw0].
      destruct (encodeURIComponent _); [|exact Hw0].
      cbn [snd location_href set_location_href]. right. eauto.
    + intros field text. by apply Hkeep.
  - subst Q. cbn beta. rewrite location_load. auto.
Qed.


(** X11. What is sent is what was submitted.  When a submit passes
    validation, the name, e-mail and message of that moment are what the
    mail link carries 900 ms later, whatever happens in between short of
    another submit: typing in the fields, a click on reset, a blur of the
    window, a change of theme.  The button is enabled again and the
    success message shown at that same moment. *)
Theorem submitted_values_are_sent (s : site) (evs0 evs : list ui_event)
    (name' email' message' : jsstring) :
  let w := ui_run s (load (site_env s)) evs0 in
  let name := field_value w FieldName in
  let email := field_value w FieldEmail in
  let message := field_value w FieldMessage in
  (2 <= length name)%nat -> email_shape email -> (10 <= length message)%nat ->
  encodeURIComponent name = Ok name' ->
  encodeURIComponent email = Ok email' ->
  encodeURIComponent message = Ok message' ->
  Forall (fun ev => ev <> Basic Submit) evs -> ui_elapsed evs = 899%nat ->
  let w2 := ui_run s (ui_step s w (Basic Submit)) (evs ++ [Basic Tick]) in
  location_href w2 = mailto_link name' email' message'
  /\ props w2 !! (SubmitBtn, Disabled) = Some (VBool false)
  /\ str_prop w2 SubmitBtn TextContent = lit "Send message"
  /\ str_prop w2 FormFeedback TextContent = msg_success.
Proof.
  intros w name email message Hn He Hm En Ee Em Hevs Hel w2.
  assert (Hw : ui_reachable s w) by (by eexists).
  set (x := Timer (next_timer_id w) (now w + 900) None (SubmitDone name email message)).
  assert (Hw1 : ui_step s w (Basic Submit) = accepted name email message w).
  { rewrite (ui_step_submit s w Hw). unfold submit_result.
    fold name email message.
    destruct (N.ltb_spec (str_length name) 2) as [H|_]; [unfold str_length in H; lia|].
    apply email_pattern_shape in He. rewrite He. cbn [negb].
    destruct (N.ltb_spec (str_length message) 10) as [H|_]; [unfold str_length in H; lia|].
    done. }
  assert (Hp1 : pending x (accepted name email message w)).
  { split; [by exists (timers w)|]. cbn. intros i Hi.
    apply (handle_known_reachable s w Hw) in Hi. lia. }
  subst w2. rewrite Hw1, ui_run_app. cbn [ui_run fold_left ui_step step].
  fold (ui_run s (accepted name email message w) evs).
  pose proof (now_ui_run s evs (accepted name email message w)) as Hnow.
  rewrite Hel in Hnow. cbn [now accepted set_next_timer_id set_timers set_props
                              set_defaultPrevented] in Hnow.
  destruct (pending_run s x evs _ Hp1 Hevs) as [[ts Hts] _].
  { rewrite Hel. cbn. lia. }
  revert Hts Hnow. generalize (ui_run s (accepted name email message w) evs) as wm.
  intros wm Hts Hnow.
  destruct (tick_fires_last wm ts x Hts) as [w' Hw']; [cbn [timer_due x]; lia|].
  rewrite Hw'. cbn [timer_task x run_task].
  rewrite (submit_done_ok _ _ _ _ _ _ w' En Ee Em).
  unfold str_prop, submit_done_props.
  cbn [location_href props set_location_href set_props].
  rewrite lookup_insert_eq.
  rewrite !(lookup_insert_ne _ (FormFeedback, TextContent) (SubmitBtn, _)) by done.
  rewrite lookup_insert_eq.
  rewrite (lookup_insert_ne _ (SubmitBtn, TextContent) (SubmitBtn, Disabled)) by done.
  by rewrite lookup_insert_eq.
Qed.

Lemma submitted_values_are_sent_witness :
  let fill := [Basic (Input FieldName (lit "Jane Doe"));
               Basic (Input FieldEmail (lit "jane@example.com"));
               Basic (Input FieldMessage (lit "I would like a quote"))] in
  let meanwhile := [ResetClick; Basic (Input FieldName (lit "John")); Basic WindowBlur;
                    Basic ThemeClick] ++ repeat (Basic Tick) 899 in
  let w := ui_run demo_site (load (site_env demo_site)) fill in
  location_href (ui_run demo_site (ui_step demo_site w (Basic Submit))
                   (meanwhile ++ [Basic Tick]))
  = mailto_link (lit "Jane%20Doe") (lit "jane%40example.com")
      (lit "I%20would%20like%20a%20quote").
Proof.
  intros fill meanwhile w.
  apply (submitted_values_are_sent demo_site fill meanwhile).
  - vm_compute. lia.
  - rewrite <- email_pattern_shape. vm_compute. reflexivity.
  - vm_compute. lia.
  - reflexivity.
  - reflexivity.
  - reflexivity.
  - subst meanwhile. apply Forall_app. split; [by repeat constructor|].
    apply Forall_forall. intros ev Hev%list_elem_of_In. by apply repeat_spec in Hev as ->.
  - vm_compute. reflexivity.
Defined.



(** X13. A reveal candidate whose top is above 90% of the viewport
    height when the script runs is marked revealed at start-up and stays
    so.  Unless reduced motion is asked for it is put under observation all
    the same: the early mark does not take it off the observer. *)
Theorem above_fold_revealed_at_startup (s : site) (el : node) :
  let e := site_env s in
  el ∈ reveal_els e ->
  ltb (rect_top e el) (mul (innerHeight e) lit_0_9) = true ->
  has_class el revealed (load e)
  /\ (forall evs, has_class el revealed (ui_run s (load e) evs))
  /\ (prefersReduced e = false -> exists ts, observer (load e) = Some ts /\ el ∈ ts).
Proof.
  intros e Hel Htop.
  assert (Hload : has_class el revealed (load e)).
  { rewrite load_eq. unfold reveal_above_fold.
    apply (for_each_establishes (has_class el revealed) (reveal_els e) _ el Hel).
    - intros w. rewrite Htop. apply has_class_added, valid_token_lit_revealed.
    - intros y. has_class_stable.
    - intros y. script_total. }
  split; [done|]. split.
  - intros evs. apply (ui_run_stable s (has_class el revealed)); try done.
    + intros w ev Hw. by apply (revealed_forever el w [ev]).
    + unfold on_nav_click. has_class_stable.
    + unfold on_reset_click, form_reset. has_class_stable.
    + intros n p v Hp. apply has_class_set_prop. destruct Hp; congruence.
  - intros Hred. rewrite observer_load, Hred. eexists. split; [done|].
    apply observe_all_elem. by right.
Qed.

Lemma above_fold_revealed_at_startup_witness :
  has_class (Elem 0) revealed (load (site_env demo_site))
  /\ exists ts, observer (load (site_env demo_site)) = Some ts /\ Elem 0 ∈ ts.
Proof.
  destruct (above_fold_revealed_at_startup demo_site (Elem 0)) as (Hrev & _ & Hobs).
  - left.
  - reflexivity.
  - split; [exact Hrev|]. by apply Hobs.
Defined.

(** An event brings no intersecting entry for [el]. *)
Definition no_entry_for (el : node) (ev : ui_event) : Prop :=
  match ev with
  | Basic (Intersection changes) => Forall (fun c => c <> (el, true)) changes
  | _ => True
  end.

(** X14. Nothing but start-up and an intersecting entry marks an
    element revealed: an element that is not marked once the script has
    run stays unmarked through any events that bring no intersecting entry
    for it - clicks, key presses, typing, timers, theme changes. *)
Theorem revealed_only_by_intersection (s : site) (el : node) (evs : list ui_event) :
  lacks_class el revealed (load (site_env s)) ->
  Forall (no_entry_for el) evs ->
  lacks_class el revealed (ui_run s (load (site_env s)) evs).
Proof.
  intros Hload Hevs. revert Hload. generalize (load (site_env s)) as w.
  induction Hevs as [|ev evs Hev _ IH]; intros w Hw; [done|].
  cbn [ui_run fold_left]. apply IH. clear IH.
  destruct ev as [ev| | | | | | | | | | |].
  { cbn [ui_step].
    apply (guarded_step_stable (lacks_class el revealed) (fun c => c <> (el, true)));
      try done.
    all: try solve [lacks_class_stable].
    all: try solve [by destruct ev].
    all: try (intros t; destruct t; solve [lacks_class_stable]).
    all: try (intros field text; solve [lacks_class_stable]).
    intros entries Hok. unfold reveal_callback.
    apply stable_for_each. intros [n b] Hin.
    destruct b; cbn [fst snd]; [|apply stable_ret].
    apply stable_bind; [|intros _; lacks_class_step].
    apply lacks_class_add; [by split; [|repeat constructor]|].
    intros [= ->]. by apply (proj1 (Forall_forall _ _) Hok (el, true)). }
  all: apply (ui_other_stable s (lacks_class el revealed)); try done.
    all: try (unfold on_nav_click, on_reset_click, form_reset; lacks_class_stable).
    all: intros n' p v Hp; apply lacks_class_set_prop; destruct Hp; congruence.
Qed.

Lemma revealed_only_by_intersection_witness :
  lacks_class (Elem 1) revealed
    (ui_run demo_site (load (site_env demo_site))
       [Basic (Intersection [(Elem 0, true); (Elem 1, false)]); Basic ThemeClick;
        NavClick; Basic Tick]).
Proof.
  apply revealed_only_by_intersection.
  - reflexivity.
  - repeat constructor; discriminate.
Defined.

(** X15. On a touch device the script attaches no tilt and no cursor
    listener and starts no timer: the listener table holds the theme,
    navigation, link, form, reset and keyboard listeners only; an overlay
    that exists is hidden at start-up and no event shows it again; pointer,
    focus and window-blur events change nothing.  The reveal observer is
    set up as on any other device. *)
Theorem touch_switches_pointer_effects_off (s : site) :
  let e := site_env s in
  isTouch e = true ->
  listeners (load e)
  = [(ThemeToggle, Click, OnThemeClick); (MobileNavToggle, Click, OnNavClick)]
    ++ anchor_listeners e
    ++ [(ContactForm, SubmitEvent, OnFormSubmit); (ResetBtn, Click, OnResetClick);
        (Document, KeyDown, OnKeyDown)]
  /\ timers (load e) = []
  /\ (has_cursor e = true -> forall evs,
        props (ui_run s (load e) evs) !! (Cursor, StyleDisplay) = Some (VStr (lit "none")))
  /\ (forall evs ev, pointer_event ev ->
        ui_step s (ui_run s (load e) evs) ev = ui_run s (load e) evs)
  /\ (prefersReduced e = false -> observer (load e) = Some (observe_all (reveal_els e) [])).
Proof.
  intros e Htouch.
  assert (Ht : tilt_enabled e = false)
    by (unfold tilt_enabled; rewrite Htouch; apply andb_false_r).
  assert (Hc : cursor_enabled e = false)
    by (unfold cursor_enabled; rewrite Htouch; cbn [negb]; by rewrite andb_false_r).
  split; [by rewrite listeners_load, Ht, Hc|].
  split; [by rewrite timers_load, Hc|].
  split; [|split].
  - intros Hcur evs. rewrite ui_run_props_frame by not_written.
    by apply cursor_hidden_when_disabled.
  - intros evs ev Hev. apply pointer_event_ignored; try done. by eexists.
  - intros Hred. by rewrite observer_load, Hred.
Qed.

Lemma touch_switches_pointer_effects_off_witness :
  let s := Site (Env false true true [Elem 0] [Elem 2] [] [SubmitBtn] [FieldName]
                   (fun _ => lit_0) lit_0 (lit "2025") ∅ ∅ [])
             (fun _ => []) (fun _ => None) (fun _ => []) []
             (fun _ => lit_0) (fun _ => lit_0) (fun _ => []) in
  timers (load (site_env s)) = []
  /\ props (ui_run s (load (site_env s)) [CursorMove lit_0 lit_0; InputFocus FieldName])
       !! (Cursor, StyleDisplay) = Some (VStr (lit "none")).
Proof.
  intros s.
  destruct (touch_switches_pointer_effects_off s eq_refl) as (_ & Ht & Hhide & _).
  split; [exact Ht|]. by apply Hhide.
Defined.



(** X17. With the cursor follower enabled, entering an interactive
    element shrinks the dot to 0.6, grows the ring to 1.6 and makes it
    opaque; leaving one puts dot and ring back to scale 1 and the ring to
    opacity 0.9, whatever the state before; a second enter or leave changes
    nothing more; and entering or leaving an element that is not
    interactive changes nothing. *)
Theorem hover_sets_the_overlay (s : site) (evs : list ui_event) (n : node) :
  let e := site_env s in
  let w := ui_run s (load e) evs in
  cursor_enabled e = true -> n ∈ interactive_els e ->
  let w1 := ui_step s w (CursorEnter n) in
  let w2 := ui_step s w1 (CursorLeave n) in
  (str_prop w1 CursorDot StyleTransform = lit "translate(-50%,-50%) scale(0.6)"
   /\ str_prop w1 CursorRing StyleTransform = lit "translate(-50%,-50%) scale(1.6)"
   /\ str_prop w1 CursorRing StyleOpacity = lit "1")
  /\ (str_prop w2 CursorDot StyleTransform = lit "translate(-50%,-50%) scale(1)"
      /\ str_prop w2 CursorRing StyleTransform = lit "translate(-50%,-50%) scale(1)"
      /\ str_prop w2 CursorRing StyleOpacity = lit "0.9")
  /\ w2 = ui_step s w (CursorLeave n)
  /\ ui_step s w1 (CursorEnter n) = w1
  /\ ui_step s w2 (CursorLeave n) = w2
  /\ (forall n', n' ∉ interactive_els e ->
        ui_step s w (CursorEnter n') = w /\ ui_step s w (CursorLeave n') = w).
Proof.
  intros e w Hc Hn w1 w2.
  assert (Hw : ui_reachable s w) by (by eexists).
  assert (H1 : w1 = hovering w) by (by apply ui_step_cursor_enter).
  assert (Hw1 : ui_reachable s w1) by (by apply ui_reachable_step).
  assert (H2 : w2 = resting w).
  { subst w2. rewrite (ui_step_cursor_leave s w1 n Hw1 Hc Hn), H1. apply resting_hovering. }
  assert (Hw2 : ui_reachable s w2) by (by apply ui_reachable_step).
  split; [|split; [|split; [|split; [|split]]]].
  - rewrite H1. unfold hovering, str_prop. cbn [props set_props].
    repeat split; rewrite !lookup_insert; by repeat case_decide.
  - rewrite H2. unfold resting, str_prop. cbn [props set_props].
    repeat split; rewrite !lookup_insert; by repeat case_decide.
  - by rewrite H2, (ui_step_cursor_leave s w n Hw Hc Hn).
  - rewrite (ui_step_cursor_enter s w1 n Hw1 Hc Hn), H1. apply hovering_twice.
  - rewrite (ui_step_cursor_leave s w2 n Hw2 Hc Hn), H2. apply resting_twice.
  - intros n' Hn'. by apply ui_step_cursor_elsewhere.
Qed.

Lemma hover_sets_the_overlay_witness :
  let w := ui_run demo_site (load (site_env demo_site)) [NavClick] in
  str_prop (ui_step demo_site w (CursorEnter SubmitBtn)) CursorRing StyleOpacity = lit "1"
  /\ ui_step demo_site w (CursorEnter (Elem 7)) = w.
Proof.
  intros w.
  destruct (hover_sets_the_overlay demo_site [NavClick] SubmitBtn) as ((_ & _ & H1) & H).
  - reflexivity.
  - left.
  - split; [exact H1|].
    destruct H as (_ & _ & _ & _ & Hn). apply Hn.
    intros Hin. cbn in Hin. elem_cases Hin; discriminate Hin.
Defined.

(** An event other than a focus or a blur of a control. *)
Definition keeps_focus (ev : ui_event) : Prop :=
  match ev with InputFocus _ | InputBlur _ => False | _ => True end.

(** X18. The overlay stays hidden while the visitor types: with the
    cursor follower enabled, once a text control has gained focus the
    overlay's opacity is "0" and stays "0" through every event - pointer
    moves, hovering, clicks, keys, timers - until a control loses focus,
    which sets it to "1". *)
Theorem overlay_hidden_while_typing (s : site) (evs0 evs : list ui_event) (inp : node) :
  let e := site_env s in
  let w := ui_run s (load e) evs0 in
  cursor_enabled e = true -> inp ∈ input_els e ->
  Forall keeps_focus evs ->
  let w1 := ui_run s (ui_step s w (InputFocus inp)) evs in
  str_prop w1 Cursor StyleOpacity = lit "0"
  /\ str_prop (ui_step s w1 (InputBlur inp)) Cursor StyleOpacity = lit "1".
Proof.
  intros e w Hc Hin Hevs w1. subst e.
  assert (Hw : ui_reachable s w) by (by eexists).
  assert (Hpos : (0 < occurrences inp (input_els (site_env s)))%nat)
    by (by apply occurrences_pos).
  assert (H1 : props w1 !! (Cursor, StyleOpacity) = Some (VStr (lit "0"))).
  { subst w1. rewrite ui_run_written.
    - cbn [ui_step]. unfold on_input_focus. rewrite fire_set_prop.
      + unfold exec, set_prop, modify. cbn [snd props set_props]. apply lookup_insert_eq.
      + rewrite (registrations_ui_reachable s) by done.
        by rewrite input_focus_registered, Hc.
    - eapply Forall_impl; [exact Hevs|]. intros ev Hev.
      destruct ev; cbn [written_by keeps_focus] in *; try done; try discriminate.
      + not_written.
      + intros Hk. unfold nav_keys in Hk. elem_cases Hk; discriminate Hk.
      + intros Hk. unfold nav_keys in Hk. elem_cases Hk; discriminate Hk.
      + intros Hk. unfold nav_keys in Hk. elem_cases Hk; discriminate Hk.
      + intros [Hk|Hk]; discriminate Hk.
      + intros Hk. unfold hover_keys in Hk. elem_cases Hk; discriminate Hk.
      + intros Hk. unfold hover_keys in Hk. elem_cases Hk; discriminate Hk. }
  split; [unfold str_prop; by rewrite H1|].
  cbn [ui_step]. unfold on_input_blur. rewrite fire_set_prop.
  - unfold exec, set_prop, modify. cbn [snd]. apply str_prop_insert_eq.
  - rewrite (registrations_ui_reachable s).
    + by rewrite input_blur_registered, Hc.
    + subst w1. by apply ui_reachable_run, ui_reachable_step.
Qed.

Lemma overlay_hidden_while_typing_witness :
  str_prop (ui_run demo_site
              (ui_step demo_site (load (site_env demo_site)) (InputFocus FieldEmail))
              [CursorMove (of_Z 3) (of_Z 4); CursorEnter SubmitBtn; CursorLeave SubmitBtn;
               Basic (Input FieldEmail (lit "j")); KeyDownEvent (lit "Escape")])
    Cursor StyleOpacity = lit "0".
Proof.
  apply (overlay_hidden_while_typing demo_site [] _ FieldEmail).
  - reflexivity.
  - right; left.
  - by repeat constructor.
Defined.

(** X19. The tilt is at its largest in the corners of a card: for a
    card of finite, non-zero size the pointer on its top-left corner gives
    [rotateX(4deg) rotateY(-4deg)], and the pointer one width and one
    height further gives [rotateX(-4deg) rotateY(4deg)].  A card whose
    width was zero when the listener was attached never gets a finite
    [rotateY], and one whose height was zero never a finite [rotateX]:
    the script divides by that size. *)
Theorem tilt_angles_at_the_corners
    (width height clientX clientY rleft rtop : number) :
  (is_finite_nonzero width = true -> is_finite_nonzero height = true ->
   is_finite rleft = true -> is_finite rtop = true ->
   tilt_angles width height rleft rtop rleft rtop = (of_Z 4, of_Z (-4)))
  /\ (is_finite_nonzero width = true -> is_finite_nonzero height = true ->
      number_sub clientX rleft = width -> number_sub clientY rtop = height ->
      tilt_angles width height clientX clientY rleft rtop = (of_Z (-4), of_Z 4))
  /\ (forall sw,
        is_finite (tilt_angles (S754_zero sw) height clientX clientY rleft rtop).2 = false)
  /\ (forall sh,
        is_finite (tilt_angles width (S754_zero sh) clientX clientY rleft rtop).1 = false).
Proof.
  split; [|split; [|split]].
  - apply tilt_angles_top_left.
  - apply tilt_angles_bottom_right.
  - intros sw. apply tilt_angles_zero_width.
  - intros sh. apply tilt_angles_zero_height.
Qed.

Lemma tilt_angles_at_the_corners_witness :
  tilt_angles (of_Z 320) (of_Z 200) (of_Z 30) (of_Z 40) (of_Z 30) (of_Z 40)
  = (of_Z 4, of_Z (-4))
  /\ tilt_angles (of_Z 320) (of_Z 200) (of_Z 350) (of_Z 240) (of_Z 30) (of_Z 40)
     = (of_Z (-4), of_Z 4).
Proof.
  split.
  - apply (proj1 (tilt_angles_at_the_corners (of_Z 320) (of_Z 200) (of_Z 30) (of_Z 40)
                    (of_Z 30) (of_Z 40))); reflexivity.
  - apply (proj1 (proj2 (tilt_angles_at_the_corners (of_Z 320) (of_Z 200)
                           (of_Z 350) (of_Z 240) (of_Z 30) (of_Z 40))));
      vm_compute; reflexivity.
Defined.



(** X21. The idle pulse never piles up: in every state of the page at
    most one pulse interval is pending, and no more pulses have played
    than one per 3200 ms elapsed.  When the cursor follower is not enabled
    no pulse interval exists and no pulse ever plays. *)
Theorem pulse_never_piles_up (s : site) (evs : list ui_event) :
  let e := site_env s in
  let w := ui_run s (load e) evs in
  (length (pulse_timers w) <= 1)%nat
  /\ (Z.of_N (ring_animations w) <= now w / 3200)%Z
  /\ (cursor_enabled e = false -> pulse_timers w = [] /\ ring_animations w = 0).
Proof.
  intros e w. subst w.
  assert (Hb : pulse_bounded (ui_run s (load e) evs)).
  { refine (ui_run_blind_invariant s pulse_view
              (fun v => (exists due,
                           v.1.1.1 = [Timer 1 due (Some 3200%Z) RingPulse]
                           /\ v.1.1.2 = Some 1
                           /\ (v.1.2 < due <= v.1.2 + 3200)%Z
                           /\ (Z.of_N v.2 * 3200 + 3200 = due)%Z)
                        \/ (v.1.1.1 = [] /\ (Z.of_N v.2 <= v.1.2 / 3200)%Z))
              pulse_view_blind _ evs _ (pulse_bounded_load e)).
    intros w ev. apply pulse_bounded_step. }
  split; [|split].
  - destruct Hb as [(due & -> & _)|[-> _]]; cbn; lia.
  - destruct Hb as [Hp|[_ Hb]]; [|done]. by rewrite (pulsing_count _ Hp).
  - intros Hoff.
    refine (ui_run_blind_invariant s pulse_view
              (fun v => v.1.1.1 = [] /\ v.2 = 0)
              pulse_view_blind _ evs _ _).
    + intros w ev [Hs Hc]. destruct (silent_step w ev Hs) as [Hs' Hc'].
      split; [exact Hs'|]. cbn [pulse_view snd]. by rewrite Hc'.
    + cbn [pulse_view fst snd]. unfold pulse_timers.
      by rewrite timers_load, Hoff, ring_animations_load.
Qed.

(** X22. What the visitor typed cannot change the shape of the mail link:
    in every state of the page the location is the address the document
    was loaded from, or it is
    ["mailto:hello@aurora.example?subject=" ++ subject ++ "&body=" ++ body]
    where neither [subject] nor [body] holds any of the reserved characters
    ; / ? : @ & = + $ , #.  So the link has one recipient and the two header
    fields of the script only. *)
Theorem mail_link_fields_are_escaped (s : site) (evs : list ui_event) :
  let e := site_env s in
  let w := ui_run s (load e) evs in
  location_href w = document_url e
  \/ exists subject body,
       location_href w = lit "mailto:hello@aurora.example?subject=" ++ subject
                         ++ lit "&body=" ++ body
       /\ unreserved_text subject /\ unreserved_text body.
Proof.
  intros e w. subst w.
  set (Q := fun h : jsstring =>
    h = document_url e
    \/ exists subject body,
         h = lit "mailto:hello@aurora.example?subject=" ++ subject
             ++ lit "&body=" ++ body
         /\ unreserved_text subject /\ unreserved_text body).
  assert (Hkeep : forall {A} (m : M A), preserves location_href m ->
                    stable (fun w => Q (location_href w)) m).
  { intros A m Hm w Hw. by rewrite Hm. }
  apply (ui_run_blind_invariant s location_href Q); [done| |].
  - intros w ev. apply (step_stable (fun w => Q (location_href w))); try done.
    + apply Hkeep. script_frame.
    + apply Hkeep. script_frame.
    + apply Hkeep. script_frame.
    + intros entries. apply Hkeep. script_frame.
    + intros [name email message|]; [|apply Hkeep; script_frame].
      intros w0 Hw0. cbn [run_task]. unfold submit_done.
      unfold mbind, M_bind, set_prop, modify, lift, navigate. cbn [snd].
      destruct (encodeURIComponent (lit "Website inquiry from " ++ name))
        as [subject|] eqn:Hs; [|exact Hw0].
      destruct (encodeURIComponent (lit "Name: " ++ _)) as [body|] eqn:Hb; [|exact Hw0].
      cbn [snd location_href set_location_href]. right. exists subject, body.
      eauto using encode_unreserved.
    + intros field text. by apply Hkeep.
  - subst Q. cbn beta. rewrite location_load. auto.
Qed.

(** X23. The submit button is never left disabled without a send under
    way: if the markup does not disable it, then in every state of the page
    where the button is disabled the timeout of an accepted submit is
    pending, due within the next 900 ms, and a blur of the window does not
    clear it.  (When it fires it enables the button, whether or not the
    mail link can be built.) *)
Theorem disabled_button_has_a_send_pending (s : site) (evs : list ui_event) :
  markup (site_env s) !! (SubmitBtn, Disabled) <> Some (VBool true) ->
  let w := ui_run s (load (site_env s)) evs in
  busy w ->
  sending w
  /\ forall x name email message w',
       timer_task x = SubmitDone name email message ->
       ~ busy (handle (run_task (timer_task x)) w').
Proof.
  intros Hm w Hb. split.
  - by apply (busy_sends_run s evs (busy_sends_load s Hm)).
  - intros x name email message w' ->. cbn [run_task]. unfold busy.
    by rewrite submit_done_enables.
Qed.

Lemma disabled_button_has_a_send_pending_witness :
  let fill := [Basic (Input FieldName (lit "Jane Doe"));
               Basic (Input FieldEmail (lit "jane@example.com"));
               Basic (Input FieldMessage (lit "I would like a quote"))] in
  let evs := fill ++ [Basic Submit; Basic WindowBlur; Basic Tick; ResetClick] in
  sending (ui_run demo_site (load (site_env demo_site)) evs).
Proof.
  intros fill evs.
  apply (disabled_button_has_a_send_pending demo_site evs).
  - vm_compute. discriminate.
  - vm_compute. reflexivity.
Defined.

(** X24. The label of the submit button follows its state: in every
    state of the page the button is as the markup has it, or disabled and
    labelled ["Sending..."], or enabled and labelled ["Send message"]. *)
Theorem button_label_follows_state (s : site) (evs : list ui_event) :
  let e := site_env s in
  let w := ui_run s (load e) evs in
  button_state w = (markup e !! (SubmitBtn, Disabled), markup e !! (SubmitBtn, TextContent))
  \/ button_state w = (Some (VBool true), Some (VStr (lit "Sending...")))
  \/ button_state w = (Some (VBool false), Some (VStr (lit "Send message"))).
Proof.
  intros e w. subst w.
  set (Q := fun b : option value * option value =>
    b = (markup e !! (SubmitBtn, Disabled), markup e !! (SubmitBtn, TextContent))
    \/ b = (Some (VBool true), Some (VStr (lit "Sending...")))
    \/ b = (Some (VBool false), Some (VStr (lit "Send message")))).
  assert (Hkeep : forall {A} (m : M A), preserves button_state m ->
                    stable (fun w => Q (button_state w)) m).
  { intros A m Hm w Hw. by rewrite Hm. }
  assert (Hset : forall n p v, n <> SubmitBtn -> preserves button_state (set_prop n p v)).
  { intros n p v Hn w. unfold button_state.
    cbn [snd set_prop modify props set_props].
    rewrite !lookup_insert_ne; [done|..]; congruence. }
  assert (Hval : forall n v, preserves button_state (set_prop n Value v)).
  { intros n v w. unfold button_state. cbn [snd set_prop modify props set_props].
    rewrite !lookup_insert_ne; [done|..]; congruence. }
  assert (Hstyle : forall n p v, p = StyleTransform \/ p = StyleOpacity ->
                     preserves button_state (set_prop n p v)).
  { intros n p v Hp w. unfold button_state. cbn [snd set_prop modify props set_props].
    rewrite !lookup_insert_ne; [done|..]; destruct Hp; congruence. }
  assert (Hclass : forall n v, preserves button_state (set_prop n ClassName v)).
  { intros n v w. unfold button_state. cbn [snd set_prop modify props set_props].
    rewrite !lookup_insert_ne; [done|..]; congruence. }
  apply (ui_run_stable s (fun w => Q (button_state w))).
  - intros w ev. apply (step_stable (fun w => Q (button_state w))); try done.
    + apply Hkeep. script_unfold.
      repeat first [ apply Hclass | apply Hset; done | frame_step ].
    + intros w0 Hw0. change (snd (on_submit w0)) with (exec on_submit w0).
      rewrite on_submit_result. unfold submit_result.
      assert (Hrej : forall msg f, button_state (rejected msg f w0) = button_state w0).
      { intros msg f. unfold button_state, rejected.
        cbn [props set_activeElement set_props set_defaultPrevented].
        by rewrite !lookup_insert_ne. }
      repeat case_match; rewrite ?Hrej; try done.
      right; left. unfold button_state, accepted.
      cbn [props set_next_timer_id set_timers set_props set_defaultPrevented].
      rewrite lookup_insert_ne, lookup_insert_eq, lookup_insert_eq by done. done.
    + apply Hkeep. script_frame.
    + intros entries. apply Hkeep. script_unfold.
      repeat first [ apply Hclass | apply Hset; done | frame_step ].
    + intros [name email message|]; [|apply Hkeep; script_frame].
      intros w0 _. right; right. cbn [run_task].
      cbv [submit_done mbind M_bind set_prop modify lift navigate].
      destruct (encodeURIComponent (lit "Website inquiry from " ++ name)) as [subject|];
        [destruct (encodeURIComponent (lit "Name: " ++ _)) as [body|]|];
        unfold button_state; cbn [fst snd props set_props set_location_href];
        rewrite (lookup_insert_ne _ (FormFeedback, TextContent) (SubmitBtn, Disabled)),
                (lookup_insert_ne _ (SubmitBtn, TextContent) (SubmitBtn, Disabled)),
                lookup_insert_eq,
                (lookup_insert_ne _ (FormFeedback, TextContent) (SubmitBtn, TextContent)),
                lookup_insert_eq by done; done.
    + intros field text. apply Hkeep, Hval.
  - done.
  - done.
  - apply Hkeep. unfold on_nav_click. repeat first [ apply Hset; done | frame_step ].
  - apply Hkeep. unfold on_reset_click, form_reset.
    repeat first [ apply Hval | apply Hset; done | frame_step ].
  - intros n p v Hp. by apply Hkeep, Hstyle.
  - left. unfold button_state. rewrite !load_props_frame; [done|..].
    all: unfold load_written; intros [(el & _ & [?|?])|Hl]; [congruence..|].
    all: elem_cases Hl; discriminate Hl.
Qed.
